(** * MapManager: element lifecycle and region highlighting

    A shallow embedding of [src/map3d/mapManager.ts], of the drawing
    helpers of [src/map3d/drawFunc.ts] it calls, and of the two functions
    of [drawFunc.ts] that make the element data the map component adds.

    - JavaScript numbers are idealised as rationals ([Q]) extended with
      [undefined] and [NaN]; every arithmetic result is kept in lowest
      terms so that equal numbers are equal terms.
    - JavaScript objects that are compared by identity (scene objects,
      materials, timers, load requests) are named by natural numbers
      drawn from counters kept in the manager state.
    - [Map] objects are insertion-ordered association lists.
    - A creation payload is a value. The manager keeps and updates the
      object it is given; the callers in this repository build a new
      object literal for every call and never write to an element the
      manager holds, so nobody else sees or changes that object.
    - Timers, animation-frame callbacks and asset loads are explicit
      queues in the state; firing one of them is an event of the
      transition system at the end of the definitions. *)

From Stdlib Require Import List String Ascii Bool Arith ZArith QArith Lia.
From Stdlib Require Import Qreduction Qround Lqa.
Import ListNotations.

Set Warnings "-register-all".

Local Close Scope Q_scope.
Local Open Scope string_scope.
Local Open Scope list_scope.
Local Open Scope nat_scope.

(** ** JavaScript numbers *)

Module JS.

Inductive num : Type :=
| Undef            (* the value [undefined] read from a missing property *)
| NaN
| Num (q : Q).

Definition of_Z (z : Z) : num := Num (inject_Z z).

(** [a + b] on numbers; [undefined] is converted to [NaN]. *)
Definition add (a b : num) : num :=
  match a, b with
  | Num x, Num y => Num (Qred (x + y)%Q)
  | _, _ => NaN
  end.

Definition sub (a b : num) : num :=
  match a, b with
  | Num x, Num y => Num (Qred (x - y)%Q)
  | _, _ => NaN
  end.

Definition mul (a b : num) : num :=
  match a, b with
  | Num x, Num y => Num (Qred (x * y)%Q)
  | _, _ => NaN
  end.

Definition neg (a : num) : num :=
  match a with
  | Num x => Num (Qred (- x)%Q)
  | _ => NaN
  end.

(** [a <= b]; every comparison with [NaN] or [undefined] is false. *)
Definition le (a b : num) : bool :=
  match a, b with
  | Num x, Num y => Qle_bool x y
  | _, _ => false
  end.

(** [a < b]. *)
Definition lt (a b : num) : bool :=
  match a, b with
  | Num x, Num y => negb (Qle_bool y x)
  | _, _ => false
  end.

(** An array of numbers, or [None] for [null] / [undefined]. *)
Definition array : Type := option (list Q).

(** [coord && coord.length] as a condition. *)
Definition truthy_nonempty (coord : array) : bool :=
  match coord with
  | Some (_ :: _) => true
  | _ => false
  end.

(** [coord[i]]. *)
Definition index (coord : list Q) (i : nat) : num :=
  match nth_error coord i with
  | Some q => Num q
  | None => Undef
  end.

End JS.

(** ** Insertion-ordered maps ([Map<string, V>]) *)

Module JSMap.
Section Ops.
Context {V : Type}.

Definition t : Type := list (string * V).

Definition empty : t := [].

Fixpoint get (k : string) (m : t) : option V :=
  match m with
  | [] => None
  | (k', v) :: rest => if String.eqb k k' then Some v else get k rest
  end.

Definition has (k : string) (m : t) : bool :=
  match get k m with
  | Some _ => true
  | None => false
  end.

(** [m.set(k, v)]: an existing key keeps its place, a new key goes last. *)
Fixpoint set (k : string) (v : V) (m : t) : t :=
  match m with
  | [] => [(k, v)]
  | (k', v') :: rest =>
      if String.eqb k k' then (k, v) :: rest else (k', v') :: set k v rest
  end.

(** [m.delete(k)]. *)
Definition delete (k : string) (m : t) : t :=
  filter (fun kv => negb (String.eqb k (fst kv))) m.

(** [Array.from(m.keys())]. *)
Definition keys (m : t) : list string := map fst m.

Definition values (m : t) : list V := map snd m.
End Ops.
Arguments t : clear implicits.
End JSMap.

(** ** Scene objects, colours and materials *)

Definition ObjId : Type := nat.
Definition MatId : Type := nat.

(** [THREE.Color]. *)
Record Color : Type := mkColor { r : Q; g : Q; b : Q }.

(** [Color.setHex]: one byte per channel, scaled to the unit interval. *)
Definition setHex (hex : Z) : Color :=
  mkColor (Qred (inject_Z (Z.land (Z.shiftr hex 16) 255) / 255)%Q)
          (Qred (inject_Z (Z.land (Z.shiftr hex 8) 255) / 255)%Q)
          (Qred (inject_Z (Z.land hex 255) / 255)%Q).

(** [Color.lerpColors(c1, c2, alpha)]. *)
Definition lerpColors (c1 c2 : Color) (alpha : Q) : Color :=
  mkColor (Qred (r c1 + (r c2 - r c1) * alpha)%Q)
          (Qred (g c1 + (g c2 - g c1) * alpha)%Q)
          (Qred (b c1 + (b c2 - b c1) * alpha)%Q).

(** A material: whether it is a [MeshPhongMaterial], and the two colours
    the highlight protocol reads and writes. *)
Record Material : Type := mkMaterial {
  isPhong : bool;
  color : Color;
  emissive : Color
}.

(** [mesh.material]: an array of possibly absent materials, or one
    possibly absent material. Materials live in the manager's material
    store and are referred to by index. *)
Inductive MaterialSlot : Type :=
| MatArray (ms : list (option MatId))
| MatSingle (m : option MatId).

(** The fields of a scene node the manager looks at. *)
Record Properties : Type := mkProperties {
  p_name : option string;
  p_NAME : option string;
  p_adcode : option string;  (* [None]: absent, or not a string *)
  p_code : option string
}.

Record Mesh : Type := mkMesh {
  isChangeColor : bool;       (* [userData.isChangeColor] *)
  material : MaterialSlot
}.

(** [THREE.Object3D] as a tree; a node may be a mesh and may carry
    [customProperties]. *)
Inductive Object3D : Type :=
| Node (customProperties : option Properties)
       (mesh : option Mesh)
       (children : list Object3D).

(** ** Map elements *)

Inductive ElementType : Type := label | spot | model | line | bubble.

(** [element.data]: what [addSpot] and [addLine] store there. *)
Inductive ElementData : Type :=
| NoData
| SpotData (circle ring : ObjId)
| LineData (flyLine flySpot : ObjId).

(** A creation payload and, once added, a live element. The fields of
    all variants are laid side by side; a variant reads only its own. *)
Record MapElement : Type := mkElement {
  id : string;
  type : ElementType;
  position : JS.array;
  text : string;
  modelPath : string;
  scale : option (Q * Q * Q);
  animation : bool;
  startPosition : JS.array;
  endPosition : JS.array;
  data : ElementData;
  object3D : option ObjId
}.

Definition set_object3D (o : ObjId) (d : ElementData) (e : MapElement)
  : MapElement :=
  mkElement (id e) (type e) (position e) (text e) (modelPath e) (scale e)
            (animation e) (startPosition e) (endPosition e) d (Some o).

(** The ring of a spot as the animation loop sees it. [drawSpot] creates
    it as a plain mesh: no [_s] property, unit scale, opaque material. *)
Record Ring : Type := mkRing {
  ring_obj : ObjId;
  _s : JS.num;
  ring_scale : JS.num * JS.num * JS.num;
  opacity : JS.num
}.

(** The moving marker of a line; [drawflySpot] sets its [_s] to 0. *)
Record FlySpot : Type := mkFlySpot {
  fly_obj : ObjId;
  fly_s : JS.num
}.

(** [THREE.AnimationMixer]: its root object and its clock. *)
Record AnimationMixer : Type := mkMixer {
  getRoot : ObjId;
  mixer_time : Q
}.

(** What the loader hands to the success callback. *)
Record GLTF : Type := mkGLTF { animations : nat }.

(** The state of a promise when the call that made it returns. *)
Inductive Promise : Type :=
| Fulfilled
| Rejected
| Pending (request : nat).

Record LoadRequest : Type := mkLoad {
  load_id : nat;
  load_element : MapElement
}.

(** ** Highlight records, timers and colour tweens *)

Record HighlightInfo : Type := mkHighlight {
  meshes : list Mesh;
  originalMaterials : list Material;
  timeoutId : nat
}.

(** A pending [setTimeout(() => restoreRegionMaterial(regionName), duration)]. *)
Record Timer : Type := mkTimer {
  timer_id : nat;
  timer_region : string;
  timer_duration : Z
}.

(** The closure [animate] of [restoreRegionMaterial], waiting for the
    next animation frame. *)
Record Tween : Type := mkTween {
  tween_material : MatId;
  startColor : Color;
  endColor : Color;
  startEmissive : Color;
  endEmissive : Color;
  colorTween_t : Q
}.

(** ** The manager *)

Record MapManager : Type := mkManager {
  labelsContainer : list ObjId;
  spotsContainer : list ObjId;
  modelsContainer : list ObjId;
  linesContainer : list ObjId;
  elements : JSMap.t MapElement;
  animatedSpots : list Ring;
  flySpots : list FlySpot;
  modelMixers : list AnimationMixer;
  highlightedRegions : JSMap.t HighlightInfo;
  (* the surroundings the class reads and writes *)
  materials : list Material;      (* the materials of the map's meshes *)
  timers : list Timer;            (* pending timeouts *)
  nextTimer : nat;
  rafQueue : list Tween;          (* callbacks of the next animation frame *)
  pendingLoads : list LoadRequest;
  nextRequest : nat;
  nextObject : ObjId;             (* the next fresh scene object *)
  disposed : list ObjId           (* roots handed to [disposeObject3D] *)
}.

(** [new MapManager(scene, mapObject3D)] over a map whose materials are [mats]. *)
Definition newMapManager (mats : list Material) : MapManager :=
  mkManager [] [] [] [] JSMap.empty [] [] [] JSMap.empty
            mats [] 0 [] [] 0 0 [].

Definition with_labelsContainer (x : list ObjId) (m : MapManager) :=
  mkManager x (spotsContainer m) (modelsContainer m) (linesContainer m)
    (elements m) (animatedSpots m) (flySpots m) (modelMixers m)
    (highlightedRegions m) (materials m) (timers m) (nextTimer m)
    (rafQueue m) (pendingLoads m) (nextRequest m) (nextObject m) (disposed m).

Definition with_spotsContainer (x : list ObjId) (m : MapManager) :=
  mkManager (labelsContainer m) x (modelsContainer m) (linesContainer m)
    (elements m) (animatedSpots m) (flySpots m) (modelMixers m)
    (highlightedRegions m) (materials m) (timers m) (nextTimer m)
    (rafQueue m) (pendingLoads m) (nextRequest m) (nextObject m) (disposed m).

Definition with_modelsContainer (x : list ObjId) (m : MapManager) :=
  mkManager (labelsContainer m) (spotsContainer m) x (linesContainer m)
    (elements m) (animatedSpots m) (flySpots m) (modelMixers m)
    (highlightedRegions m) (materials m) (timers m) (nextTimer m)
    (rafQueue m) (pendingLoads m) (nextRequest m) (nextObject m) (disposed m).

Definition with_linesContainer (x : list ObjId) (m : MapManager) :=
  mkManager (labelsContainer m) (spotsContainer m) (modelsContainer m) x
    (elements m) (animatedSpots m) (flySpots m) (modelMixers m)
    (highlightedRegions m) (materials m) (timers m) (nextTimer m)
    (rafQueue m) (pendingLoads m) (nextRequest m) (nextObject m) (disposed m).

Definition with_elements (x : JSMap.t MapElement) (m : MapManager) :=
  mkManager (labelsContainer m) (spotsContainer m) (modelsContainer m)
    (linesContainer m) x (animatedSpots m) (flySpots m) (modelMixers m)
    (highlightedRegions m) (materials m) (timers m) (nextTimer m)
    (rafQueue m) (pendingLoads m) (nextRequest m) (nextObject m) (disposed m).

Definition with_animatedSpots (x : list Ring) (m : MapManager) :=
  mkManager (labelsContainer m) (spotsContainer m) (modelsContainer m)
    (linesContainer m) (elements m) x (flySpots m) (modelMixers m)
    (highlightedRegions m) (materials m) (timers m) (nextTimer m)
    (rafQueue m) (pendingLoads m) (nextRequest m) (nextObject m) (disposed m).

Definition with_flySpots (x : list FlySpot) (m : MapManager) :=
  mkManager (labelsContainer m) (spotsContainer m) (modelsContainer m)
    (linesContainer m) (elements m) (animatedSpots m) x (modelMixers m)
    (highlightedRegions m) (materials m) (timers m) (nextTimer m)
    (rafQueue m) (pendingLoads m) (nextRequest m) (nextObject m) (disposed m).

Definition with_modelMixers (x : list AnimationMixer) (m : MapManager) :=
  mkManager (labelsContainer m) (spotsContainer m) (modelsContainer m)
    (linesContainer m) (elements m) (animatedSpots m) (flySpots m) x
    (highlightedRegions m) (materials m) (timers m) (nextTimer m)
    (rafQueue m) (pendingLoads m) (nextRequest m) (nextObject m) (disposed m).

Definition with_highlightedRegions (x : JSMap.t HighlightInfo) (m : MapManager) :=
  mkManager (labelsContainer m) (spotsContainer m) (modelsContainer m)
    (linesContainer m) (elements m) (animatedSpots m) (flySpots m)
    (modelMixers m) x (materials m) (timers m) (nextTimer m)
    (rafQueue m) (pendingLoads m) (nextRequest m) (nextObject m) (disposed m).

Definition with_materials (x : list Material) (m : MapManager) :=
  mkManager (labelsContainer m) (spotsContainer m) (modelsContainer m)
    (linesContainer m) (elements m) (animatedSpots m) (flySpots m)
    (modelMixers m) (highlightedRegions m) x (timers m) (nextTimer m)
    (rafQueue m) (pendingLoads m) (nextRequest m) (nextObject m) (disposed m).

Definition with_timers (x : list Timer) (n : nat) (m : MapManager) :=
  mkManager (labelsContainer m) (spotsContainer m) (modelsContainer m)
    (linesContainer m) (elements m) (animatedSpots m) (flySpots m)
    (modelMixers m) (highlightedRegions m) (materials m) x n
    (rafQueue m) (pendingLoads m) (nextRequest m) (nextObject m) (disposed m).

Definition with_rafQueue (x : list Tween) (m : MapManager) :=
  mkManager (labelsContainer m) (spotsContainer m) (modelsContainer m)
    (linesContainer m) (elements m) (animatedSpots m) (flySpots m)
    (modelMixers m) (highlightedRegions m) (materials m) (timers m)
    (nextTimer m) x (pendingLoads m) (nextRequest m) (nextObject m)
    (disposed m).

Definition with_pendingLoads (x : list LoadRequest) (n : nat) (m : MapManager) :=
  mkManager (labelsContainer m) (spotsContainer m) (modelsContainer m)
    (linesContainer m) (elements m) (animatedSpots m) (flySpots m)
    (modelMixers m) (highlightedRegions m) (materials m) (timers m)
    (nextTimer m) (rafQueue m) x n (nextObject m) (disposed m).

Definition with_nextObject (x : ObjId) (m : MapManager) :=
  mkManager (labelsContainer m) (spotsContainer m) (modelsContainer m)
    (linesContainer m) (elements m) (animatedSpots m) (flySpots m)
    (modelMixers m) (highlightedRegions m) (materials m) (timers m)
    (nextTimer m) (rafQueue m) (pendingLoads m) (nextRequest m) x
    (disposed m).

Definition with_disposed (x : list ObjId) (m : MapManager) :=
  mkManager (labelsContainer m) (spotsContainer m) (modelsContainer m)
    (linesContainer m) (elements m) (animatedSpots m) (flySpots m)
    (modelMixers m) (highlightedRegions m) (materials m) (timers m)
    (nextTimer m) (rafQueue m) (pendingLoads m) (nextRequest m)
    (nextObject m) x.

(** ** Drawing helpers ([drawFunc.ts]) *)

(** What the helpers compute of a drawn object: where it is placed. The
    depth coordinate is a constant of [mapConfig]. *)
Record Drawn : Type := mkDrawn { drawn_x : JS.num; drawn_y : JS.num }.

Definition place (coord : list Q) : Drawn :=
  mkDrawn (JS.index coord 0) (JS.neg (JS.index coord 1)).

(** [draw2dLabel]: nothing is returned for a missing or empty [coord]. *)
Definition draw2dLabel (coord : JS.array) (proviceName : string)
  : option Drawn :=
  if JS.truthy_nonempty coord
  then option_map place coord
  else None.

Definition draw2dBubble (coord : JS.array) (text : string) : option Drawn :=
  if JS.truthy_nonempty coord
  then option_map place coord
  else None.

(** [drawSpot]: the pair [{circle, ring}], both at [coord]. *)
Definition drawSpot (coord : JS.array) : option (Drawn * Drawn) :=
  if JS.truthy_nonempty coord
  then option_map (fun c => (place c, place c)) coord
  else None.

(** [drawLineBetween2Spot] spreads both arguments: a [null] or
    [undefined] end point raises a [TypeError] ([None] here). *)
Definition drawLineBetween2Spot (coordStart coordEnd : JS.array)
  : option (Drawn * Drawn) :=
  match coordStart, coordEnd with
  | Some s, Some e => Some (place s, place e)
  | _, _ => None
  end.

(** ** Adding elements *)

(** [Object3D.add] of a fresh child and [Object3D.remove]. *)
Definition add_child (o : ObjId) (cs : list ObjId) : list ObjId := cs ++ [o].

Fixpoint remove_child (o : ObjId) (cs : list ObjId) : list ObjId :=
  match cs with
  | [] => []
  | c :: rest => if Nat.eqb c o then rest else c :: remove_child o rest
  end.

Definition addLabel (element : MapElement) (st : MapManager)
  : Promise * MapManager :=
  match draw2dLabel (position element) (text element) with
  | Some _ =>
      let labelObject := nextObject st in
      let st := with_nextObject (S labelObject) st in
      let st := with_labelsContainer
                  (add_child labelObject (labelsContainer st)) st in
      (Fulfilled,
       with_elements
         (JSMap.set (id element)
            (set_object3D labelObject (data element) element)
            (elements st)) st)
  | None => (Fulfilled, st)
  end.

Definition addBubble (element : MapElement) (st : MapManager)
  : Promise * MapManager :=
  match draw2dBubble (position element) (text element) with
  | Some _ =>
      let bubbleObject := nextObject st in
      let st := with_nextObject (S bubbleObject) st in
      let st := with_labelsContainer
                  (add_child bubbleObject (labelsContainer st)) st in
      (Fulfilled,
       with_elements
         (JSMap.set (id element)
            (set_object3D bubbleObject (data element) element)
            (elements st)) st)
  | None => (Fulfilled, st)
  end.

Definition addSpot (element : MapElement) (st : MapManager)
  : Promise * MapManager :=
  match drawSpot (position element) with
  | Some _ =>
      let circle := nextObject st in
      let ring := S circle in
      let container := S ring in
      let st := with_nextObject (S container) st in
      let st := with_spotsContainer
                  (add_child container (spotsContainer st)) st in
      let st := with_elements
                  (JSMap.set (id element)
                     (set_object3D container (SpotData circle ring) element)
                     (elements st)) st in
      (Fulfilled,
       with_animatedSpots
         (animatedSpots st
          ++ [mkRing ring JS.Undef (JS.of_Z 1, JS.of_Z 1, JS.of_Z 1)
                (JS.of_Z 1)]) st)
  | None => (Fulfilled, st)
  end.

(** [addModel] only hands the path to the loader; the callbacks run when
    the load settles. *)
Definition addModel (element : MapElement) (st : MapManager)
  : Promise * MapManager :=
  let request := nextRequest st in
  (Pending request,
   with_pendingLoads (pendingLoads st ++ [mkLoad request element])
     (S request) st).

(** The success callback of [addModel]. *)
Definition onLoad (element : MapElement) (glb : GLTF) (st : MapManager)
  : MapManager :=
  let clonedModel := nextObject st in
  let st := with_nextObject (S clonedModel) st in
  let st :=
    if animation element && (0 <? animations glb)
    then with_modelMixers (modelMixers st ++ [mkMixer clonedModel 0%Q]) st
    else st in
  let st := with_modelsContainer
              (add_child clonedModel (modelsContainer st)) st in
  with_elements
    (JSMap.set (id element)
       (set_object3D clonedModel (data element) element) (elements st)) st.

(** The loader settles request [request]: with a model, or with an error
    ([None]), which is logged and rejects that element's promise. *)
Definition loadSettled (request : nat) (result : option GLTF)
  (st : MapManager) : MapManager :=
  match find (fun l => Nat.eqb (load_id l) request) (pendingLoads st) with
  | None => st
  | Some l =>
      let st :=
        with_pendingLoads
          (filter (fun l => negb (Nat.eqb (load_id l) request))
             (pendingLoads st))
          (nextRequest st) st in
      match result with
      | Some glb => onLoad (load_element l) glb st
      | None => st
      end
  end.

Definition addLine (element : MapElement) (st : MapManager)
  : Promise * MapManager :=
  match drawLineBetween2Spot (startPosition element) (endPosition element) with
  | Some _ =>
      let flySpot := nextObject st in
      let flyLine := S flySpot in
      let container := S flyLine in
      let st := with_nextObject (S container) st in
      let st := with_linesContainer
                  (add_child container (linesContainer st)) st in
      let st := with_elements
                  (JSMap.set (id element)
                     (set_object3D container (LineData flyLine flySpot) element)
                     (elements st)) st in
      (Fulfilled,
       with_flySpots (flySpots st ++ [mkFlySpot flySpot (JS.of_Z 0)]) st)
  | None => (Rejected, st)
  end.

(** One iteration of the [map] in [addElements]. *)
Definition addElement (element : MapElement) (st : MapManager)
  : Promise * MapManager :=
  match type element with
  | label => addLabel element st
  | bubble => addBubble element st
  | spot => addSpot element st
  | model => addModel element st
  | line => addLine element st
  end.

(** [addElements]: the promises in batch order and the state when the
    synchronous part has run. *)
Fixpoint addElements (batch : list MapElement) (st : MapManager)
  : list Promise * MapManager :=
  match batch with
  | [] => ([], st)
  | element :: rest =>
      let '(p, st1) := addElement element st in
      let '(ps, st2) := addElements rest st1 in
      (p :: ps, st2)
  end.

(** ** Removing elements *)

Fixpoint remove_ring (ring : ObjId) (l : list Ring) : list Ring :=
  match l with
  | [] => []
  | x :: rest =>
      if Nat.eqb (ring_obj x) ring then rest else x :: remove_ring ring rest
  end.

Fixpoint remove_flySpot (flySpot : ObjId) (l : list FlySpot) : list FlySpot :=
  match l with
  | [] => []
  | x :: rest =>
      if Nat.eqb (fly_obj x) flySpot then rest
      else x :: remove_flySpot flySpot rest
  end.

Fixpoint remove_mixer (root : ObjId) (l : list AnimationMixer)
  : list AnimationMixer :=
  match l with
  | [] => []
  | x :: rest =>
      if Nat.eqb (getRoot x) root then rest else x :: remove_mixer root rest
  end.

Definition disposeObject3D (object : ObjId) (st : MapManager) : MapManager :=
  with_disposed (disposed st ++ [object]) st.

Definition removeElement (id0 : string) (st : MapManager)
  : bool * MapManager :=
  match JSMap.get id0 (elements st) with
  | None => (false, st)
  | Some element =>
      match object3D element with
      | None => (false, st)
      | Some obj =>
          let st :=
            match type element with
            | bubble | label =>
                with_labelsContainer (remove_child obj (labelsContainer st)) st
            | spot =>
                let st := with_spotsContainer
                            (remove_child obj (spotsContainer st)) st in
                match data element with
                | SpotData _ ring =>
                    with_animatedSpots (remove_ring ring (animatedSpots st)) st
                | _ => st
                end
            | model =>
                let st := with_modelsContainer
                            (remove_child obj (modelsContainer st)) st in
                with_modelMixers (remove_mixer obj (modelMixers st)) st
            | line =>
                let st := with_linesContainer
                            (remove_child obj (linesContainer st)) st in
                match data element with
                | LineData _ flySpot =>
                    with_flySpots (remove_flySpot flySpot (flySpots st)) st
                | _ => st
                end
            end in
          let st := disposeObject3D obj st in
          (true, with_elements (JSMap.delete id0 (elements st)) st)
      end
  end.

(** [ids.forEach(id => this.removeElement(id))]. *)
Definition removeElements (ids : list string) (st : MapManager) : MapManager :=
  fold_left (fun st id0 => snd (removeElement id0 st)) ids st.

(** [id.match(/^label-(\d+)$/)]: the capture group, when the id matches. *)
Definition is_digit (c : ascii) : bool :=
  (48 <=? nat_of_ascii c) && (nat_of_ascii c <=? 57).

Fixpoint all_digits (s : string) : bool :=
  match s with
  | EmptyString => true
  | String c rest => is_digit c && all_digits rest
  end.

Fixpoint strip_prefix (p s : string) : option string :=
  match p, s with
  | EmptyString, _ => Some s
  | String a p', String c s' =>
      if Ascii.eqb a c then strip_prefix p' s' else None
  | String _ _, EmptyString => None
  end.

Definition match_label (id0 : string) : option string :=
  match strip_prefix "label-" id0 with
  | Some digits =>
      match digits with
      | EmptyString => None
      | _ => if all_digits digits then Some digits else None
      end
  | None => None
  end.

(** [parseInt] on a string of decimal digits; [NaN] on the empty string. *)
Fixpoint parse_digits (acc : Z) (s : string) : Z :=
  match s with
  | EmptyString => acc
  | String c rest =>
      parse_digits (10 * acc + (Z.of_nat (nat_of_ascii c) - 48))%Z rest
  end.

Definition parseInt (s : string) : JS.num :=
  match s with
  | EmptyString => JS.NaN
  | _ => JS.of_Z (parse_digits 0 s)
  end.

(** The filter of [clearAllElements]: ids to remove. *)
Definition idsToRemove_filter (id0 : string) : bool :=
  match match_label id0 with
  | Some digits =>
      let num := parseInt digits in
      JS.lt num (JS.of_Z 0) || JS.lt (JS.of_Z 31) num
  | None => true
  end.

Definition clearAllElements (st : MapManager) : MapManager :=
  let allIds := JSMap.keys (elements st) in
  let idsToRemove := filter idsToRemove_filter allIds in
  removeElements idsToRemove st.

Definition getElement (id0 : string) (st : MapManager) : option MapElement :=
  JSMap.get id0 (elements st).

Definition getAllElements (st : MapManager) : list MapElement :=
  JSMap.values (elements st).

(** ** The animation tick *)

Definition update_ring (mesh : Ring) : Ring :=
  let s := JS.add (_s mesh) (JS.Num (1 # 100)) in
  let sc := JS.mul (JS.of_Z 1) s in
  if JS.le s (JS.of_Z 2)
  then mkRing (ring_obj mesh) s (sc, sc, sc) (JS.sub (JS.of_Z 2) s)
  else mkRing (ring_obj mesh) (JS.of_Z 1) (sc, sc, sc) (opacity mesh).

(** The marker's position is read off its curve at [_s % 1]; only [_s]
    is kept here. *)
Definition update_flySpot (mesh : FlySpot) : FlySpot :=
  mkFlySpot (fly_obj mesh) (JS.add (fly_s mesh) (JS.Num (3 # 1000))).

Definition update_mixer (delta : Q) (mixer : AnimationMixer) : AnimationMixer :=
  mkMixer (getRoot mixer) (Qred (mixer_time mixer + delta)%Q).

Definition updateAnimations (delta : Q) (st : MapManager) : MapManager :=
  let st := with_modelMixers (map (update_mixer delta) (modelMixers st)) st in
  let st := with_animatedSpots (map update_ring (animatedSpots st)) st in
  with_flySpots (map update_flySpot (flySpots st)) st.

(** ** Region highlighting *)

(** [Object3D.traverse]: the node itself, then its children's subtrees in
    order. *)
Fixpoint traverse (o : Object3D) : list Object3D :=
  match o with
  | Node _ _ children => o :: flat_map traverse children
  end.

Definition customProperties (o : Object3D) : option Properties :=
  match o with Node p _ _ => p end.

Definition as_mesh (o : Object3D) : option Mesh :=
  match o with Node _ m _ => m end.

(** [field === regionName]. *)
Definition field_is (field : option string) (regionName : string) : bool :=
  match field with
  | Some s => String.eqb s regionName
  | None => false
  end.

Definition properties_match (properties : Properties) (regionName : string)
  : bool :=
  field_is (p_name properties) regionName
  || field_is (p_NAME properties) regionName
  || field_is (p_adcode properties) regionName
  || field_is (p_code properties) regionName.

(** [materials[m]] for a possibly absent reference. *)
Definition deref (mats : list Material) (m : option MatId) : option Material :=
  match m with
  | Some i => nth_error mats i
  | None => None
  end.

Fixpoint set_nth {A : Type} (i : nat) (x : A) (l : list A) : list A :=
  match l, i with
  | [], _ => []
  | _ :: rest, O => x :: rest
  | y :: rest, S i' => y :: set_nth i' x rest
  end.

(** Overwrite the two colours of material [i]. *)
Definition paint (i : MatId) (c e : Color) (st : MapManager) : MapManager :=
  match nth_error (materials st) i with
  | Some mat =>
      with_materials (set_nth i (mkMaterial (isPhong mat) c e) (materials st)) st
  | None => st
  end.

(** The value pushed by [originalMaterials.push(mat.clone())] for each
    material of a mesh. *)
Definition clone_materials (mats : list Material) (mesh : Mesh)
  : list Material :=
  match material mesh with
  | MatArray ms =>
      flat_map (fun m => match deref mats m with
                         | Some mat => [mat]
                         | None => []
                         end) ms
  | MatSingle m =>
      match deref mats m with
      | Some mat => [mat]
      | None => []
      end
  end.

Definition highlight_one (m : option MatId) (st : MapManager) : MapManager :=
  match m with
  | Some i =>
      match nth_error (materials st) i with
      | Some mat =>
          if isPhong mat
          then paint i (setHex 0xFFD700) (setHex 0x444400) st
          else st
      | None => st
      end
  | None => st
  end.

(** [applyHighlightMaterial]: of an array only the entry at index 0, the
    top face, is recoloured. *)
Definition applyHighlightMaterial (meshes0 : list Mesh) (st : MapManager)
  : MapManager :=
  fold_left
    (fun st mesh =>
       match material mesh with
       | MatArray (m :: _) => highlight_one m st
       | MatArray [] => st
       | MatSingle m => highlight_one m st
       end) meshes0 st.

(** One call of the closure [animate]. *)
Definition animate (tw : Tween) (st : MapManager) : MapManager :=
  let t := Qred (colorTween_t tw + (2 # 100))%Q in
  if Qle_bool 1 t
  then paint (tween_material tw) (endColor tw) (endEmissive tw) st
  else
    let st := paint (tween_material tw)
                (lerpColors (startColor tw) (endColor tw) t)
                (lerpColors (startEmissive tw) (endEmissive tw) t) st in
    with_rafQueue
      (rafQueue st
       ++ [mkTween (tween_material tw) (startColor tw) (endColor tw)
             (startEmissive tw) (endEmissive tw) t]) st.

(** The body guarded by [material && index === 0 && materialIndex <
    originalMaterials.length] (array) and by [mesh.material &&
    materialIndex < originalMaterials.length] (single material): start
    the tween when both materials are Phong, then advance
    [materialIndex]. *)
Definition restore_one (originals : list Material) (m : option MatId)
  (acc : nat * MapManager) : nat * MapManager :=
  let '(materialIndex, st) := acc in
  match m with
  | Some i =>
      match nth_error (materials st) i, nth_error originals materialIndex with
      | Some mat, Some originalMaterial =>
          (S materialIndex,
           if isPhong mat && isPhong originalMaterial
           then animate (mkTween i (color mat) (color originalMaterial)
                           (emissive mat) (emissive originalMaterial) 0%Q) st
           else st)
      | _, _ => acc
      end
  | None => acc
  end.

Definition restore_mesh (originals : list Material)
  (acc : nat * MapManager) (mesh : Mesh) : nat * MapManager :=
  match material mesh with
  | MatArray (m :: _) => restore_one originals m acc
  | MatArray [] => acc
  | MatSingle m => restore_one originals m acc
  end.

Definition restoreRegionMaterial (regionName : string) (st : MapManager)
  : MapManager :=
  match JSMap.get regionName (highlightedRegions st) with
  | None => st
  | Some highlightInfo =>
      let st := snd (fold_left (restore_mesh (originalMaterials highlightInfo))
                       (meshes highlightInfo) (0, st)) in
      with_highlightedRegions
        (JSMap.delete regionName (highlightedRegions st)) st
  end.

Definition clearTimeout (tid : nat) (st : MapManager) : MapManager :=
  with_timers (filter (fun tm => negb (Nat.eqb (timer_id tm) tid)) (timers st))
    (nextTimer st) st.

Definition clearRegionHighlight (regionName : string) (st : MapManager)
  : bool * MapManager :=
  match JSMap.get regionName (highlightedRegions st) with
  | None => (false, st)
  | Some highlightInfo =>
      let st := clearTimeout (timeoutId highlightInfo) st in
      (true, restoreRegionMaterial regionName st)
  end.

Definition clearAllHighlights (st : MapManager) : MapManager :=
  let regionNames := JSMap.keys (highlightedRegions st) in
  fold_left (fun st regionName => snd (clearRegionHighlight regionName st))
    regionNames st.

Definition getHighlightedRegions (st : MapManager) : list string :=
  JSMap.keys (highlightedRegions st).

(** The timeout [tid] expires. *)
Definition timerFired (tid : nat) (st : MapManager) : MapManager :=
  match find (fun tm => Nat.eqb (timer_id tm) tid) (timers st) with
  | None => st
  | Some tm =>
      restoreRegionMaterial (timer_region tm) (clearTimeout tid st)
  end.

(** The browser runs the callbacks registered for this animation frame;
    what they register runs in the next one. *)
Definition animationFrame (st : MapManager) : MapManager :=
  fold_left (fun st tw => animate tw st) (rafQueue st) (with_rafQueue [] st).

Fixpoint animationFrames (n : nat) (st : MapManager) : MapManager :=
  match n with
  | O => st
  | S n' => animationFrames n' (animationFrame st)
  end.

Section Scene.

(** The map handed to the constructor. The manager never changes its
    shape; the element containers it hangs below the map hold objects
    without [customProperties], which the region search skips. *)
Variable mapObject3D : Object3D.

(** [findRegionByName]: the last matching node of the traversal. *)
Definition findRegionByName (regionName : string) : option Object3D :=
  fold_left
    (fun targetRegion child =>
       match customProperties child with
       | Some properties =>
           if properties_match properties regionName
           then Some child else targetRegion
       | None => targetRegion
       end) (traverse mapObject3D) None.

(** The meshes [highlightRegion] collects below the target. *)
Definition highlightable_meshes (targetRegion : Object3D) : list Mesh :=
  flat_map (fun child =>
              match as_mesh child with
              | Some mesh => if isChangeColor mesh then [mesh] else []
              | None => []
              end) (traverse targetRegion).

Definition highlightRegion (regionName : string) (duration : Z)
  (st : MapManager) : bool * MapManager :=
  let st :=
    if JSMap.has regionName (highlightedRegions st)
    then snd (clearRegionHighlight regionName st)
    else st in
  match findRegionByName regionName with
  | None => (false, st)
  | Some targetRegion =>
      let meshes0 := highlightable_meshes targetRegion in
      let originals := flat_map (clone_materials (materials st)) meshes0 in
      match meshes0 with
      | [] => (false, st)
      | _ :: _ =>
          let st := applyHighlightMaterial meshes0 st in
          let tid := nextTimer st in
          let st := with_timers
                      (timers st ++ [mkTimer tid regionName duration])
                      (S tid) st in
          (true,
           with_highlightedRegions
             (JSMap.set regionName (mkHighlight meshes0 originals tid)
                (highlightedRegions st)) st)
      end
  end.

(** [dispose]. *)
Definition dispose (st : MapManager) : MapManager :=
  let st := clearAllElements st in
  let st := with_modelMixers [] st in
  let st := with_animatedSpots [] st in
  let st := with_flySpots [] st in
  clearAllHighlights st.

(** ** The manager as a transition system *)

Inductive Event : Type :=
| AddElements (batch : list MapElement)
| RemoveElements (ids : list string)
| ClearAllElements
| UpdateAnimations (delta : Q)
| HighlightRegion (regionName : string) (duration : Z)
| ClearRegionHighlight (regionName : string)
| ClearAllHighlights
| Dispose
| LoadSettled (request : nat) (result : option GLTF)
| TimerFired (tid : nat)
| AnimationFrame.

Definition step (ev : Event) (st : MapManager) : MapManager :=
  match ev with
  | AddElements batch => snd (addElements batch st)
  | RemoveElements ids => removeElements ids st
  | ClearAllElements => clearAllElements st
  | UpdateAnimations delta => updateAnimations delta st
  | HighlightRegion regionName duration =>
      snd (highlightRegion regionName duration st)
  | ClearRegionHighlight regionName => snd (clearRegionHighlight regionName st)
  | ClearAllHighlights => clearAllHighlights st
  | Dispose => dispose st
  | LoadSettled request result => loadSettled request result st
  | TimerFired tid => timerFired tid st
  | AnimationFrame => animationFrame st
  end.

(** The states the manager can be in: those an event history leads to
    from a freshly constructed manager. *)
Inductive reachable : MapManager -> Prop :=
| reachable_new (mats : list Material) : reachable (newMapManager mats)
| reachable_step (ev : Event) (st : MapManager) :
    reachable st -> reachable (step ev st).

End Scene.

(** * Views, invariants and the notions of the specification *)

(** ** Which part of the state an operation touches *)

(** The highlight bookkeeping and what it acts on. *)
Definition highlight_side (st : MapManager) :=
  (highlightedRegions st, materials st, timers st, nextTimer st, rafQueue st).

(** The elements, their containers and the animation lists. *)
Definition element_side (st : MapManager) :=
  (labelsContainer st, spotsContainer st, modelsContainer st,
   linesContainer st, elements st, animatedSpots st, flySpots st,
   modelMixers st, nextObject st, disposed st).

(** The loads in flight. *)
Definition load_side (st : MapManager) := (pendingLoads st, nextRequest st).

Definition record_side (st : MapManager) :=
  (highlightedRegions st, timers st, nextTimer st).

(** ** The element side *)

Definition live_have_objects (st : MapManager) : Prop :=
  forall k e, In (k, e) (elements st) -> object3D e <> None.

(** [removeElement] takes its early exit. *)
Definition cannot_remove (id0 : string) (st : MapManager) : bool :=
  match getElement id0 st with
  | None => true
  | Some e => match object3D e with None => true | Some _ => false end
  end.

Definition loads_fresh (st : MapManager) : Prop :=
  Forall (fun l => load_id l < nextRequest st) (pendingLoads st).


(** [await addElements([e])]: the synchronous part and, for a model, the
    settling of its own load with [result]. *)
Definition add_one_awaited (e : MapElement) (result : option GLTF)
  (st : MapManager) : MapManager :=
  let st1 := snd (addElements [e] st) in
  match type e with
  | model => loadSettled (nextRequest st) result st1
  | _ => st1
  end.



(** ** Protected labels *)

(** The character of the decimal digit [d]. *)
Definition digit_char (d : nat) : ascii := ascii_of_nat (48 + d).

(** A list of digits written out; leading zeros are allowed. *)
Fixpoint numeral (ds : list nat) : string :=
  match ds with
  | [] => EmptyString
  | d :: rest => String (digit_char d) (numeral rest)
  end.

(** The number a list of decimal digits denotes. *)
Fixpoint positional (ds : list nat) : Z :=
  match ds with
  | [] => 0%Z
  | d :: rest =>
      (Z.of_nat d * 10 ^ Z.of_nat (List.length rest) + positional rest)%Z
  end.

(** [id0] is [label-N]: the prefix, then one or more decimal digits that
    denote [N]. *)
Definition is_label_N (id0 : string) (N : Z) : Prop :=
  exists ds : list nat,
    ds <> [] /\ Forall (fun d => d < 10) ds
    /\ id0 = ("label-" ++ numeral ds)%string /\ positional ds = N.

(** The protected ids in the words of the specification: [label-N] with
    [N] in the index range [0..31]. *)
Definition protected_id (id0 : string) : Prop :=
  exists N : Z, (0 <= N <= 31)%Z /\ is_label_N id0 N.

(** ** Regions and records *)

(** The state in which [highlightRegion] looks for the region. *)
Definition after_old_highlight (name : string) (st : MapManager) : MapManager :=
  if JSMap.has name (highlightedRegions st)
  then snd (clearRegionHighlight name st)
  else st.

(** The region search finds a node with something to highlight. *)
Definition can_highlight (scene : Object3D) (name : string) : Prop :=
  exists target,
    findRegionByName scene name = Some target
    /\ highlightable_meshes target <> [].

(** How records and pending timers hang together. *)
Record records_ok (scene : Object3D) (hl : JSMap.t HighlightInfo)
  (tms : list Timer) (next : nat)
  : Prop := {
  ok_nodup : NoDup (JSMap.keys hl);
  ok_timer_record :
    forall tm, In tm tms ->
      exists info, JSMap.get (timer_region tm) hl = Some info
                   /\ timeoutId info = timer_id tm;
  ok_timer_bound : forall tm, In tm tms -> timer_id tm < next;
  ok_timer_nodup : NoDup (map timer_id tms);
  ok_record_timer :
    forall name info, JSMap.get name hl = Some info ->
      exists tm, In tm tms /\ timer_id tm = timeoutId info
                 /\ timer_region tm = name;
  ok_record_region :
    forall name info, JSMap.get name hl = Some info -> can_highlight scene name
}.

Definition highlights_ok (scene : Object3D) (st : MapManager) : Prop :=
  records_ok scene (highlightedRegions st) (timers st) (nextTimer st).

(** No node below [root] carries [name] in any of the four identity
    fields. *)
Definition no_node_matches (root : Object3D) (name : string) : Prop :=
  forall child properties,
    In child (traverse root) ->
    customProperties child = Some properties ->
    p_name properties <> Some name /\ p_NAME properties <> Some name
    /\ p_adcode properties <> Some name /\ p_code properties <> Some name.

(** No mesh below [target] is marked as highlightable. *)
Definition no_mesh_marked (target : Object3D) : Prop :=
  forall child mesh,
    In child (traverse target) -> as_mesh child = Some mesh ->
    isChangeColor mesh = false.

(** ** Reverts in progress *)

(** The tween has run its first interpolation step and the material
    shows it. *)
Definition one_step_in (st : MapManager) (tw : Tween) : Prop :=
  colorTween_t tw = (1 # 50)%Q
  /\ exists mat,
       nth_error (materials st) (tween_material tw) = Some mat
       /\ color mat = lerpColors (startColor tw) (endColor tw) (1 # 50)
       /\ emissive mat
          = lerpColors (startEmissive tw) (endEmissive tw) (1 # 50).

(** What a revert has started, seen from the state [st0] it began in. *)
Definition revert_begun (st0 st : MapManager) : Prop :=
  exists started,
    rafQueue st = rafQueue st0 ++ started
    /\ Forall (fun tw => colorTween_t tw = (1 # 50)%Q) started
    /\ (forall pre tw, started = pre ++ [tw] -> one_step_in st tw)
    /\ (started = [] -> materials st = materials st0).

Definition aimed_elsewhere (j : MatId) (tws : list Tween) : Prop :=
  Forall (fun tw => tween_material tw <> j) tws.

(** The value of [colorTween.t] after [k] calls of [animate]. *)
Definition tween_time (k : nat) : Q :=
  Qred (inject_Z (Z.of_nat k) * (1 # 50))%Q.

(** The material the highlight recolours: entry 0 of an array, or the
    single material. *)
Definition top_material (mesh : Mesh) : option MatId :=
  match material mesh with
  | MatArray (m :: _) => m
  | MatArray [] => None
  | MatSingle m => m
  end.




(** ** Highlights: what they paint and when their tweens end *)

(** [mesh] has material [j] as its top material. *)
Definition has_top (j : MatId) (mesh : Mesh) : bool :=
  match top_material mesh with
  | Some i => Nat.eqb i j
  | None => false
  end.

(** The highlight colours on a material. *)
Definition highlighted (mat : Material) : Material :=
  mkMaterial (isPhong mat) (setHex 0xFFD700) (setHex 0x444400).

(** What [applyHighlightMaterial] over [ms] makes of material [j]. *)
Definition after_highlight (ms : list Mesh) (j : MatId) (mat : Material)
  : Material :=
  if isPhong mat && existsb (has_top j) ms then highlighted mat else mat.

(** A node carries [name] in one of its four identity fields. *)
Definition node_matches (name : string) (child : Object3D) : Prop :=
  exists properties,
    customProperties child = Some properties
    /\ (p_name properties = Some name \/ p_NAME properties = Some name
        \/ p_adcode properties = Some name \/ p_code properties = Some name).

(** What one animation frame leaves of a queued tween. *)
Definition next_frame (tw : Tween) : list Tween :=
  let t := Qred (colorTween_t tw + (2 # 100))%Q in
  if Qle_bool 1 t then []
  else [mkTween (tween_material tw) (startColor tw) (endColor tw)
          (startEmissive tw) (endEmissive tw) t].

(** Every queued tween has made between 1 and 49 steps. *)
Definition tweens_under_way (st : MapManager) : Prop :=
  Forall (fun tw => exists k, 1 <= k <= 49 /\ colorTween_t tw = tween_time k)
         (rafQueue st).

(** ** Elements and the scene objects they own *)

(** The first entry with a given key dropped: the shape of every
    [indexOf]/[findIndex] followed by [splice(index, 1)] of the manager. *)
Fixpoint remove_by {A : Type} (key : A -> ObjId) (r : ObjId) (l : list A)
  : list A :=
  match l with
  | [] => []
  | x :: rest => if Nat.eqb (key x) r then rest else x :: remove_by key r rest
  end.

(** The container an element of a given type is hung into. *)
Definition container_of (ty : ElementType) (st : MapManager) : list ObjId :=
  match ty with
  | label | bubble => labelsContainer st
  | spot => spotsContainer st
  | model => modelsContainer st
  | line => linesContainer st
  end.

(** Everything below [elementsContainer]. *)
Definition all_children (st : MapManager) : list ObjId :=
  labelsContainer st ++ spotsContainer st ++ modelsContainer st
  ++ linesContainer st.

(** The scene objects of the live elements, in map order. *)
Definition live_objects (m : JSMap.t MapElement) : list ObjId :=
  flat_map (fun kv => match object3D (snd kv) with
                      | Some o => [o]
                      | None => []
                      end) m.

(** The helper of the payload's variant draws something right away. *)
Definition drawable (e : MapElement) : bool :=
  match type e with
  | label | bubble | spot => JS.truthy_nonempty (position e)
  | line =>
      match startPosition e, endPosition e with
      | Some _, Some _ => true
      | _, _ => false
      end
  | model => false
  end.

(** What [addSpot] and [addLine] record of the parts of their object: the
    ring is made just before the spot's container, the moving marker two
    objects before the line's container. *)
Definition data_fits (e : MapElement) (o : ObjId) : Prop :=
  match type e with
  | spot => exists circle ring, data e = SpotData circle ring /\ o = S ring
  | line =>
      exists flyLine flySpot,
        data e = LineData flyLine flySpot /\ o = S (S flySpot)
  | _ => True
  end.

(** How elements, containers and animation lists hang together. *)
Record scene_ok (st : MapManager) : Prop := {
  so_children_fresh : forall o, In o (all_children st) -> o < nextObject st;
  so_children_nodup : NoDup (all_children st);
  so_rings_fresh :
    forall r, In r (animatedSpots st) -> S (ring_obj r) < nextObject st;
  so_rings_nodup : NoDup (map ring_obj (animatedSpots st));
  so_fly_fresh :
    forall f, In f (flySpots st) -> S (S (fly_obj f)) < nextObject st;
  so_fly_nodup : NoDup (map fly_obj (flySpots st));
  so_mixers_fresh :
    forall m, In m (modelMixers st) -> getRoot m < nextObject st;
  so_mixers_nodup : NoDup (map getRoot (modelMixers st));
  so_live_nodup : NoDup (live_objects (elements st));
  so_live :
    forall k e, In (k, e) (elements st) ->
      exists o, object3D e = Some o
                /\ In o (container_of (type e) st) /\ data_fits e o;
  so_loads_model :
    forall l, In l (pendingLoads st) -> type (load_element l) = model;
  so_disposed :
    forall o, In o (disposed st) ->
      o < nextObject st /\ ~ In o (all_children st);
  so_keyed : forall k e, In (k, e) (elements st) -> id e = k
}.

(** ** Animation state *)

(** [x % 1] as [updateAnimations] takes it of a marker's [_s]: the
    remainder has the sign of [x]. *)
Definition mod_1 (a : JS.num) : JS.num :=
  match a with
  | JS.Num q =>
      JS.Num (Qred (q - inject_Z (Z.quot (Qnum q) (Zpos (Qden q))))%Q)
  | _ => JS.NaN
  end.

(** The argument [updateAnimations] passes to [curve.getPointAt]. *)
Definition curve_parameter (mesh : FlySpot) : JS.num := mod_1 (fly_s mesh).

(** A ring that was never ticked, or one in the middle of its pulse. *)
Definition ring_in_range (mesh : Ring) : Prop :=
  (_s mesh = JS.Undef /\ opacity mesh = JS.of_Z 1)
  \/ exists s o : Q,
       _s mesh = JS.Num s /\ opacity mesh = JS.Num o
       /\ (1 <= s <= 2)%Q /\ (0 <= o <= 1)%Q.

Definition fly_under_way (mesh : FlySpot) : Prop :=
  exists s : Q, fly_s mesh = JS.Num s /\ (0 <= s)%Q.

Definition animations_ok (st : MapManager) : Prop :=
  Forall ring_in_range (animatedSpots st)
  /\ Forall fly_under_way (flySpots st).

(** ** The element data made from the map ([drawFunc.ts]) *)

(** An entry of [label2dData]: the projected centroid of a feature and
    its name. *)
Record LabelDatum : Type := mkLabelDatum {
  featureCenterCoord : JS.array;
  featureName : string
}.

(** The decimal digits of [n], most significant first: what a template
    literal makes of an array index. *)
Fixpoint decimal_digits (fuel n : nat) : list nat :=
  match fuel with
  | O => []
  | S fuel' =>
      if n <? 10 then [n]
      else decimal_digits fuel' (n / 10) ++ [n mod 10]
  end.

Definition template_number (n : nat) : string :=
  numeral (decimal_digits (S n) n).

(** [s.replace(pattern, replacement)] with a string pattern: the first
    occurrence only. Strings are sequences of UTF-8 bytes. *)
Fixpoint replace_first (pattern replacement s : string) : string :=
  match strip_prefix pattern s with
  | Some rest => (replacement ++ rest)%string
  | None =>
      match s with
      | EmptyString => EmptyString
      | String c s' => String c (replace_first pattern replacement s')
      end
  end.

Definition label_of (index : nat) (item : LabelDatum) : MapElement :=
  mkElement ("label-" ++ template_number index)%string label
    (featureCenterCoord item)
    (replace_first "特别行政区" "" (featureName item))
    "" None false None None NoData None.

Fixpoint generateElementsData_from (index : nat) (label2dData : list LabelDatum)
  : list MapElement :=
  match label2dData with
  | [] => []
  | item :: rest =>
      label_of index item :: generateElementsData_from (S index) rest
  end.

(** [generateElementsData]. *)
Definition generateElementsData (label2dData : list LabelDatum)
  : list MapElement :=
  generateElementsData_from 0 label2dData.

(** [label2dData[i]] for an integer [i]; [None] is [undefined]. *)
Definition item_at (label2dData : list LabelDatum) (i : Z)
  : option LabelDatum :=
  if (i <? 0)%Z then None else nth_error label2dData (Z.to_nat i).

(** The two indices an iteration of [generateLineElementsData] draws,
    from the two values [Math.random()] returned. *)
Definition line_indices (length0 : nat) (random1 random2 : Q) : Z * Z :=
  let midIndex := Z.of_nat (length0 / 2) in
  (Qfloor (random1 * inject_Z midIndex),
   (Qfloor (random2 * inject_Z midIndex) + midIndex - 1)%Z).

(** One iteration: nothing is pushed when an index is too large; reading
    [featureCenterCoord] of [undefined] raises a [TypeError] ([None]). *)
Definition line_of (count : nat) (label2dData : list LabelDatum)
  (random1 random2 : Q) : option (list MapElement) :=
  let '(indexStart, indexEnd) :=
    line_indices (List.length label2dData) random1 random2 in
  if (indexStart <? Z.of_nat (List.length label2dData))%Z
     && (indexEnd <? Z.of_nat (List.length label2dData))%Z
  then
    match item_at label2dData indexStart, item_at label2dData indexEnd with
    | Some a, Some b =>
        Some [mkElement ("line-" ++ template_number count)%string line
                (featureCenterCoord a) "" "" None false
                (featureCenterCoord a) (featureCenterCoord b) NoData None]
    | _, _ => None
    end
  else Some [].

(** [generateLineElementsData]; [randoms] are the values [Math.random()]
    returns, two for each iteration. *)
Fixpoint generateLineElementsData_from (count todo : nat)
  (label2dData : list LabelDatum) (randoms : nat -> Q * Q)
  : option (list MapElement) :=
  match todo with
  | O => Some []
  | S todo' =>
      match line_of count label2dData (fst (randoms count))
              (snd (randoms count)) with
      | None => None
      | Some pushed =>
          match generateLineElementsData_from (S count) todo' label2dData
                  randoms with
          | None => None
          | Some rest => Some (pushed ++ rest)
          end
      end
  end.

Definition generateLineElementsData (label2dData : list LabelDatum)
  (maxLineCount : nat) (randoms : nat -> Q * Q) : option (list MapElement) :=
  generateLineElementsData_from 0 maxLineCount label2dData randoms.

(** What [Math.random] promises of its results. *)
Definition unit_interval (randoms : nat -> Q * Q) : Prop :=
  forall count,
    (0 <= fst (randoms count) < 1)%Q /\ (0 <= snd (randoms count) < 1)%Q.

(** A line element between the centres of two entries of [label2dData]. *)
Definition line_between (label2dData : list LabelDatum) (e : MapElement)
  : Prop :=
  type e = line
  /\ exists a b,
       In a label2dData /\ In b label2dData
       /\ position e = featureCenterCoord a
       /\ startPosition e = featureCenterCoord a
       /\ endPosition e = featureCenterCoord b.

(** ** Example data *)

(** A few payloads for examples. *)
Definition a_label (k : string) (coord : JS.array) : MapElement :=
  mkElement k label coord "text" "" None false None None NoData None.

Definition a_bubble (k : string) (coord : JS.array) : MapElement :=
  mkElement k bubble coord "text" "" None false None None NoData None.

Definition a_spot (k : string) (coord : JS.array) : MapElement :=
  mkElement k spot coord "" "" None false None None NoData None.

Definition a_model (k : string) (animated : bool) : MapElement :=
  mkElement k model (Some [3 # 1; 4 # 1]%Q) "" "./models/cone.glb" None
            animated None None NoData None.

Definition a_line (k : string) (a b : JS.array) : MapElement :=
  mkElement k line a "" "" None false a b NoData None.

Definition here : JS.array := Some [1 # 1; 2 # 1]%Q.

Definition empty_scene : Object3D := Node None None [].

Definition two_labels : MapManager :=
  step empty_scene
    (AddElements [a_label "label-0" here; a_label "label-1" here])
    (newMapManager []).

Definition mixed_elements : MapManager :=
  step empty_scene
    (AddElements [a_label "label-31" here; a_label "label-32" here;
                  a_spot "spot-1" here; a_label "label-007" here])
    (newMapManager []).

(** A small map: region R (two polygons, so two marked meshes, and their
    outlines), region S (one polygon) and region E (an outline only).
    Every polygon has its own top (Phong) and side (shader) material. *)
Definition phong (c : Color) : Material := mkMaterial true c (mkColor 0 0 0).

Definition shader : Material := mkMaterial false (mkColor 0 0 0) (mkColor 0 0 0).

Definition blue : Color := mkColor (1 # 10) (2 # 10) (3 # 10).

Definition grey : Color := mkColor (1 # 2) (1 # 2) (1 # 2).

Definition teal : Color := mkColor 0 (1 # 2) (1 # 2).

Definition demo_materials : list Material :=
  [phong blue; shader; phong grey; shader; phong teal; shader; shader].

Definition polygon (top side : MatId) : Object3D :=
  Node None (Some (mkMesh true (MatArray [Some top; Some side]))) [].

Definition outline : Object3D :=
  Node None (Some (mkMesh false (MatSingle (Some 6)))) [].

Definition province (name adcode : string) (parts : list Object3D) : Object3D :=
  Node (Some (mkProperties (Some name) None (Some adcode) None)) None parts.

Definition demo_map : Object3D :=
  Node None None
    [province "R" "110000" [polygon 0 1; outline; polygon 2 3; outline];
     province "S" "120000" [polygon 4 5; outline];
     province "E" "130000" [outline]].

Definition demo_start : MapManager := newMapManager demo_materials.

Definition S_highlighted : MapManager :=
  step demo_map (HighlightRegion "S" 3000) demo_start.

(** ** Proof automation *)

Ltac break_match :=
  match goal with
  | |- context [match ?x with _ => _ end] => destruct x eqn:?
  end.

Ltac side_solver := repeat (simpl; try reflexivity; break_match).

Ltac old_lists H :=
  first
    [ apply (so_rings_nodup _ H)
    | apply (so_fly_nodup _ H)
    | apply (so_mixers_nodup _ H)
    | apply (so_loads_model _ H)
    | let x := fresh "x" in
      let Hx := fresh "Hx" in
      intros x Hx;
      first [ apply (so_rings_fresh _ H) in Hx
            | apply (so_fly_fresh _ H) in Hx
            | apply (so_mixers_fresh _ H) in Hx ];
      simpl; lia ].

Ltac grown_container :=
  let ty := fresh "ty" in
  let x := fresh "x" in
  let Hx := fresh "Hx" in
  intros ty x Hx; destruct ty; simpl in *; auto;
  apply in_or_app; left; exact Hx.

(** * Properties *)

(** ** Maps *)

Module JSMapFacts.
Import JSMap.
Section Facts.
Context {V : Type}.
Implicit Types (m : JSMap.t V) (k : string) (v : V).

Lemma get_delete_same k m : get k (delete k m) = None.
Proof.
  induction m as [|[k' v'] m IH]; simpl; auto.
  destruct (String.eqb k k') eqn:E; simpl; auto.
  rewrite E. exact IH.
Qed.

Lemma get_delete_other k k' m : k <> k' -> get k' (delete k m) = get k' m.
Proof.
  intros Hne. induction m as [|[k1 v1] m IH]; simpl; auto.
  destruct (String.eqb k k1) eqn:E; simpl.
  - apply String.eqb_eq in E. subst k1.
    destruct (String.eqb k' k) eqn:E'; auto.
    apply String.eqb_eq in E'. congruence.
  - rewrite IH. reflexivity.
Qed.

Lemma delete_absent k m : get k m = None -> delete k m = m.
Proof.
  induction m as [|[k' v'] m IH]; simpl; auto.
  destruct (String.eqb k k') eqn:E; simpl; [discriminate|].
  intros H. rewrite (IH H). reflexivity.
Qed.

Lemma set_absent k v m : get k m = None -> set k v m = m ++ [(k, v)].
Proof.
  induction m as [|[k' v'] m IH]; simpl; auto.
  destruct (String.eqb k k') eqn:E; [discriminate|].
  intros H. rewrite (IH H). reflexivity.
Qed.

Lemma get_set_same k v m : get k (set k v m) = Some v.
Proof.
  induction m as [|[k' v'] m IH]; simpl.
  - rewrite String.eqb_refl. reflexivity.
  - destruct (String.eqb k k') eqn:E; simpl.
    + rewrite String.eqb_refl. reflexivity.
    + rewrite E. exact IH.
Qed.

Lemma get_set_other k k' v m : k <> k' -> get k' (set k v m) = get k' m.
Proof.
  intros Hne. induction m as [|[k1 v1] m IH]; simpl.
  - destruct (String.eqb k' k) eqn:E; auto.
    apply String.eqb_eq in E. congruence.
  - destruct (String.eqb k k1) eqn:E; simpl.
    + apply String.eqb_eq in E. subst k1.
      destruct (String.eqb k' k) eqn:E'; auto.
      apply String.eqb_eq in E'. congruence.
    + rewrite IH. reflexivity.
Qed.

Lemma delete_set_absent k v m : get k m = None -> delete k (set k v m) = m.
Proof.
  intros H. rewrite (set_absent _ _ _ H). unfold delete.
  rewrite filter_app. simpl. rewrite String.eqb_refl. simpl.
  rewrite app_nil_r. apply (delete_absent _ _ H).
Qed.

Lemma get_none_keys k m : get k m = None <-> ~ In k (keys m).
Proof.
  induction m as [|[k' v'] m IH]; simpl.
  - split; auto.
  - destruct (String.eqb k k') eqn:E.
    + apply String.eqb_eq in E. subst. split; [discriminate|].
      intros H. exfalso. apply H. left. reflexivity.
    + apply String.eqb_neq in E. rewrite IH. split.
      * intros H [H1|H1]; [congruence | auto].
      * intros H H1. apply H. right. exact H1.
Qed.

Lemma get_some_in k v m : get k m = Some v -> In (k, v) m.
Proof.
  induction m as [|[k' v'] m IH]; simpl; [discriminate|].
  destruct (String.eqb k k') eqn:E.
  - apply String.eqb_eq in E. subst. intros [= ->]. left. reflexivity.
  - intros H. right. apply IH, H.
Qed.

Lemma keys_set_present k v m :
  get k m <> None -> keys (set k v m) = keys m.
Proof.
  induction m as [|[k' v'] m IH]; simpl; [congruence|].
  destruct (String.eqb k k') eqn:E; simpl.
  - apply String.eqb_eq in E. subst. reflexivity.
  - intros H. rewrite (IH H). reflexivity.
Qed.

Lemma keys_delete k m : keys (delete k m) = filter (fun x => negb (String.eqb k x)) (keys m).
Proof.
  induction m as [|[k' v'] m IH]; simpl; auto.
  destruct (String.eqb k k'); simpl; rewrite IH; reflexivity.
Qed.

Lemma NoDup_keys_set k v m : NoDup (keys m) -> NoDup (keys (set k v m)).
Proof.
  intros H. destruct (get k m) eqn:E.
  - rewrite keys_set_present; [exact H | congruence].
  - rewrite (set_absent _ _ _ E). unfold keys. rewrite map_app. simpl.
    apply NoDup_app.
    + exact H.
    + constructor; [intros [] | constructor].
    + intros x Hx [Hk|[]]. subst x.
      apply get_none_keys in E. apply E. exact Hx.
Qed.

Lemma NoDup_keys_delete k m : NoDup (keys m) -> NoDup (keys (delete k m)).
Proof.
  intros H. rewrite keys_delete. apply NoDup_filter. exact H.
Qed.

Lemma in_delete k m kv : In kv (delete k m) -> In kv m /\ fst kv <> k.
Proof.
  unfold delete. rewrite filter_In. intros [H1 H2]. split; auto.
  intros E. rewrite E, String.eqb_refl in H2. discriminate.
Qed.

Lemma in_set k v m kv : In kv (set k v m) -> kv = (k, v) \/ In kv m.
Proof.
  induction m as [|[k' v'] m IH]; simpl.
  - intros [H|[]]; auto.
  - destruct (String.eqb k k'); simpl.
    + intros [H|H]; auto.
    + intros [H|H]; auto. destruct (IH H); auto.
Qed.

End Facts.
End JSMapFacts.

(** ** Operations keep to their side of the state *)


Lemma addElement_highlight_side e st :
  highlight_side (snd (addElement e st)) = highlight_side st.
Proof.
  unfold addElement, addLabel, addBubble, addSpot, addModel, addLine.
  side_solver.
Qed.

Lemma addElements_highlight_side batch st :
  highlight_side (snd (addElements batch st)) = highlight_side st.
Proof.
  revert st. induction batch as [|e batch IH]; intros st; simpl; auto.
  destruct (addElement e st) as [p st1] eqn:E1.
  destruct (addElements batch st1) as [ps st2] eqn:E2. simpl.
  change st2 with (snd (ps, st2)). rewrite <- E2, IH.
  change st1 with (snd (p, st1)). rewrite <- E1.
  apply addElement_highlight_side.
Qed.

Lemma removeElement_highlight_side id0 st :
  highlight_side (snd (removeElement id0 st)) = highlight_side st.
Proof. unfold removeElement. side_solver. Qed.

Lemma removeElement_load_side id0 st :
  load_side (snd (removeElement id0 st)) = load_side st.
Proof. unfold removeElement. side_solver. Qed.

Lemma removeElements_highlight_side ids st :
  highlight_side (removeElements ids st) = highlight_side st.
Proof.
  unfold removeElements. revert st.
  induction ids as [|i ids IH]; intros st; simpl; auto.
  rewrite IH. apply removeElement_highlight_side.
Qed.

Lemma removeElements_load_side ids st :
  load_side (removeElements ids st) = load_side st.
Proof.
  unfold removeElements. revert st.
  induction ids as [|i ids IH]; intros st; simpl; auto.
  rewrite IH. apply removeElement_load_side.
Qed.

Lemma loadSettled_highlight_side request result st :
  highlight_side (loadSettled request result st) = highlight_side st.
Proof. unfold loadSettled, onLoad. side_solver. Qed.

Lemma paint_element_side i c e st :
  element_side (paint i c e st) = element_side st.
Proof. unfold paint. side_solver. Qed.

Lemma paint_load_side i c e st :
  load_side (paint i c e st) = load_side st.
Proof. unfold paint. side_solver. Qed.

Lemma animate_element_side tw st :
  element_side (animate tw st) = element_side st.
Proof.
  unfold animate. break_match.
  - apply paint_element_side.
  - unfold element_side. simpl. apply (paint_element_side _ _ _ st).
Qed.

Lemma animate_load_side tw st :
  load_side (animate tw st) = load_side st.
Proof.
  unfold animate. break_match.
  - apply paint_load_side.
  - unfold load_side. simpl. apply (paint_load_side _ _ _ st).
Qed.

(** A property of the state kept by every step of a fold is kept by the
    fold. *)
Lemma fold_left_preserves {A S T : Type} (f : S -> A -> S) (view : S -> T)
  (l : list A) (s : S) :
  (forall s a, view (f s a) = view s) -> view (fold_left f l s) = view s.
Proof.
  intros H. revert s. induction l as [|a l IH]; intros s; simpl; auto.
  rewrite IH. apply H.
Qed.

Lemma restore_mesh_element_side originals acc mesh :
  element_side (snd (restore_mesh originals acc mesh)) = element_side (snd acc).
Proof.
  unfold restore_mesh, restore_one. destruct acc as [n st]. simpl.
  repeat (break_match; simpl; try reflexivity);
    apply animate_element_side.
Qed.

Lemma restore_mesh_load_side originals acc mesh :
  load_side (snd (restore_mesh originals acc mesh)) = load_side (snd acc).
Proof.
  unfold restore_mesh, restore_one. destruct acc as [n st]. simpl.
  repeat (break_match; simpl; try reflexivity);
    apply animate_load_side.
Qed.

Lemma restoreRegionMaterial_element_side name st :
  element_side (restoreRegionMaterial name st) = element_side st.
Proof.
  unfold restoreRegionMaterial. break_match; auto.
  unfold element_side at 1. simpl.
  apply (fold_left_preserves _ (fun acc => element_side (snd acc))
           _ (0, st)).
  intros; apply restore_mesh_element_side.
Qed.

Lemma restoreRegionMaterial_load_side name st :
  load_side (restoreRegionMaterial name st) = load_side st.
Proof.
  unfold restoreRegionMaterial. break_match; auto.
  unfold load_side at 1. simpl.
  apply (fold_left_preserves _ (fun acc => load_side (snd acc)) _ (0, st)).
  intros; apply restore_mesh_load_side.
Qed.

Lemma clearRegionHighlight_element_side name st :
  element_side (snd (clearRegionHighlight name st)) = element_side st.
Proof.
  unfold clearRegionHighlight. break_match; auto. simpl.
  rewrite restoreRegionMaterial_element_side. reflexivity.
Qed.

Lemma clearRegionHighlight_load_side name st :
  load_side (snd (clearRegionHighlight name st)) = load_side st.
Proof.
  unfold clearRegionHighlight. break_match; auto. simpl.
  rewrite restoreRegionMaterial_load_side. reflexivity.
Qed.

Lemma clearAllHighlights_element_side st :
  element_side (clearAllHighlights st) = element_side st.
Proof.
  unfold clearAllHighlights. apply fold_left_preserves.
  intros; apply clearRegionHighlight_element_side.
Qed.

Lemma applyHighlightMaterial_element_side ms st :
  element_side (applyHighlightMaterial ms st) = element_side st.
Proof.
  unfold applyHighlightMaterial. apply fold_left_preserves.
  intros s a. unfold highlight_one.
  repeat (break_match; try reflexivity); apply paint_element_side.
Qed.

Lemma timerFired_element_side tid st :
  element_side (timerFired tid st) = element_side st.
Proof.
  unfold timerFired. break_match; auto.
  rewrite restoreRegionMaterial_element_side. reflexivity.
Qed.

Lemma animationFrame_element_side st :
  element_side (animationFrame st) = element_side st.
Proof.
  unfold animationFrame.
  rewrite (fold_left_preserves _ element_side); auto.
  intros; apply animate_element_side.
Qed.

Lemma highlightRegion_element_side scene name d st :
  element_side (snd (highlightRegion scene name d st)) = element_side st.
Proof.
  unfold highlightRegion.
  set (st1 := if JSMap.has name (highlightedRegions st)
              then snd (clearRegionHighlight name st) else st).
  assert (H1 : element_side st1 = element_side st).
  { unfold st1. break_match; auto. apply clearRegionHighlight_element_side. }
  destruct (findRegionByName scene name) as [target|]; [|exact H1].
  destruct (highlightable_meshes target) as [|m l] eqn:E; [exact H1|].
  cbv zeta.
  transitivity (element_side (applyHighlightMaterial (m :: l) st1));
    [reflexivity|].
  rewrite applyHighlightMaterial_element_side. exact H1.
Qed.

Lemma elements_of_side st st' :
  element_side st' = element_side st -> elements st' = elements st.
Proof. unfold element_side. intros H. inversion H. reflexivity. Qed.

Lemma updateAnimations_elements delta st :
  elements (updateAnimations delta st) = elements st.
Proof. reflexivity. Qed.

(** ** Live elements own a scene object *)

Lemma live_set st k o d e :
  live_have_objects st ->
  forall k' e', In (k', e') (JSMap.set k (set_object3D o d e) (elements st)) ->
                object3D e' <> None.
Proof.
  intros H k' e' Hin. apply JSMapFacts.in_set in Hin. destruct Hin as [E|Hin].
  - inversion E. simpl. discriminate.
  - apply (H _ _ Hin).
Qed.

Lemma addElement_live e st :
  live_have_objects st -> live_have_objects (snd (addElement e st)).
Proof.
  intros H.
  unfold addElement, addLabel, addBubble, addSpot, addModel, addLine.
  repeat (break_match; simpl; try exact H);
    unfold live_have_objects; simpl; apply live_set; exact H.
Qed.

Lemma addElements_live batch st :
  live_have_objects st -> live_have_objects (snd (addElements batch st)).
Proof.
  revert st. induction batch as [|e batch IH]; intros st H; simpl; auto.
  destruct (addElement e st) as [p st1] eqn:E1.
  destruct (addElements batch st1) as [ps st2] eqn:E2. simpl.
  change st2 with (snd (ps, st2)). rewrite <- E2. apply IH.
  change st1 with (snd (p, st1)). rewrite <- E1.
  apply addElement_live, H.
Qed.

Lemma loadSettled_live request result st :
  live_have_objects st -> live_have_objects (loadSettled request result st).
Proof.
  intros H. unfold loadSettled, onLoad.
  repeat (break_match; simpl; try exact H);
    unfold live_have_objects; simpl; apply live_set; exact H.
Qed.

(** What [removeElement] does to the element map. *)
Lemma removeElement_elements id0 st :
  elements (snd (removeElement id0 st)) = elements st
  \/ elements (snd (removeElement id0 st)) = JSMap.delete id0 (elements st).
Proof.
  unfold removeElement.
  repeat (break_match; simpl; auto).
Qed.

Lemma removeElement_elements_live id0 st :
  live_have_objects st ->
  elements (snd (removeElement id0 st)) = JSMap.delete id0 (elements st).
Proof.
  intros H. unfold removeElement.
  destruct (JSMap.get id0 (elements st)) as [e|] eqn:G.
  - destruct (object3D e) eqn:O.
    + repeat (break_match; simpl; auto).
    + exfalso. apply (H id0 e); auto. apply JSMapFacts.get_some_in, G.
  - simpl. symmetry. apply JSMapFacts.delete_absent, G.
Qed.

Lemma removeElement_live id0 st :
  live_have_objects st -> live_have_objects (snd (removeElement id0 st)).
Proof.
  intros H k e. rewrite (removeElement_elements_live _ _ H).
  intros Hin. apply JSMapFacts.in_delete in Hin. apply (H k e), Hin.
Qed.

Lemma removeElements_live ids st :
  live_have_objects st -> live_have_objects (removeElements ids st).
Proof.
  unfold removeElements. revert st.
  induction ids as [|i ids IH]; intros st H; simpl; auto.
  apply IH, removeElement_live, H.
Qed.

Lemma live_of_elements st st' :
  elements st' = elements st -> live_have_objects st -> live_have_objects st'.
Proof. unfold live_have_objects. intros ->. auto. Qed.

Lemma reachable_live scene st :
  reachable scene st -> live_have_objects st.
Proof.
  induction 1 as [mats|ev st Hr IH].
  - intros k e [].
  - destruct ev; simpl.
    + apply addElements_live, IH.
    + apply removeElements_live, IH.
    + apply removeElements_live, IH.
    + exact IH.
    + eapply live_of_elements; [|exact IH].
      apply elements_of_side, highlightRegion_element_side.
    + eapply live_of_elements; [|exact IH].
      apply elements_of_side, clearRegionHighlight_element_side.
    + eapply live_of_elements; [|exact IH].
      apply elements_of_side, clearAllHighlights_element_side.
    + unfold dispose.
      eapply live_of_elements;
        [apply elements_of_side, clearAllHighlights_element_side|].
      apply (removeElements_live _ _ IH).
    + apply loadSettled_live, IH.
    + eapply live_of_elements; [|exact IH].
      apply elements_of_side, timerFired_element_side.
    + eapply live_of_elements; [|exact IH].
      apply elements_of_side, animationFrame_element_side.
Qed.

(** ** Removing what is not there *)

Lemma cannot_remove_noop id0 st :
  cannot_remove id0 st = true -> removeElement id0 st = (false, st).
Proof.
  unfold cannot_remove, getElement, removeElement.
  destruct (JSMap.get id0 (elements st)) as [e|]; auto.
  destruct (object3D e); auto. discriminate.
Qed.

Lemma removeElement_deletes id0 st :
  cannot_remove id0 st = false ->
  elements (snd (removeElement id0 st)) = JSMap.delete id0 (elements st).
Proof.
  unfold cannot_remove, getElement, removeElement.
  destruct (JSMap.get id0 (elements st)) as [e|]; [|discriminate].
  destruct (object3D e); [|discriminate].
  intros _. repeat (break_match; simpl; auto).
Qed.

Lemma cannot_remove_after id0 st :
  cannot_remove id0 (snd (removeElement id0 st)) = true.
Proof.
  destruct (cannot_remove id0 st) eqn:C.
  - rewrite (cannot_remove_noop _ _ C). exact C.
  - unfold cannot_remove, getElement.
    rewrite (removeElement_deletes _ _ C), JSMapFacts.get_delete_same.
    reflexivity.
Qed.

Lemma cannot_remove_stable id0 j st :
  cannot_remove id0 st = true ->
  cannot_remove id0 (snd (removeElement j st)) = true.
Proof.
  intros C. destruct (String.eqb j id0) eqn:E.
  - apply String.eqb_eq in E. subst j. apply cannot_remove_after.
  - apply String.eqb_neq in E. unfold cannot_remove, getElement in *.
    destruct (removeElement_elements j st) as [H|H]; rewrite H; auto.
    rewrite (JSMapFacts.get_delete_other _ _ _ E). exact C.
Qed.

Lemma removeElements_all_noop ids st :
  Forall (fun i => cannot_remove i st = true) ids -> removeElements ids st = st.
Proof.
  unfold removeElements. induction 1 as [|i ids Hi _ IH]; simpl; auto.
  rewrite (cannot_remove_noop _ _ Hi). exact IH.
Qed.

Lemma cannot_remove_stable_many id0 ids st :
  cannot_remove id0 st = true ->
  cannot_remove id0 (removeElements ids st) = true.
Proof.
  unfold removeElements. revert st.
  induction ids as [|j ids IH]; intros st C; simpl; auto.
  apply IH, cannot_remove_stable, C.
Qed.

Lemma removeElements_exhausts ids st :
  Forall (fun i => cannot_remove i (removeElements ids st) = true) ids.
Proof.
  revert st. induction ids as [|j ids IH]; intros st; constructor.
  - change (removeElements (j :: ids) st)
      with (removeElements ids (snd (removeElement j st))).
    apply cannot_remove_stable_many, cannot_remove_after.
  - apply (IH (snd (removeElement j st))).
Qed.

(** Claim C7. Removing an id that is not in the element map is a no-op:
    [removeElement] answers [false] and returns the very same manager
    state (element map, containers, animation lists and all the rest);
    hence [removeElements] over unknown ids changes nothing, and running
    [removeElements] a second time over the same ids changes nothing
    more. *)
Theorem removeElement_unknown_id :
  forall (st : MapManager) (id0 : string) (unknown ids : list string),
    getElement id0 st = None ->
    Forall (fun i => getElement i st = None) unknown ->
    removeElement id0 st = (false, st)
    /\ removeElements unknown st = st
    /\ removeElements ids (removeElements ids st) = removeElements ids st.
Proof.
  intros st id0 unknown ids H0 Hu. split; [|split].
  - apply cannot_remove_noop. unfold cannot_remove. rewrite H0. reflexivity.
  - apply removeElements_all_noop.
    eapply Forall_impl; [|exact Hu].
    intros i Hi. unfold cannot_remove. rewrite Hi. reflexivity.
  - apply removeElements_all_noop, removeElements_exhausts.
Qed.

Lemma removeElement_unknown_id_witness :
  let st := snd (addElements [a_label "a" here; a_spot "s" here]
                   (newMapManager [])) in
  (getElement "ghost" st = None
   /\ Forall (fun i => getElement i st = None) ["ghost"; "b"])
  /\ removeElement "ghost" st = (false, st)
  /\ removeElements ["ghost"; "b"] st = st
  /\ removeElements ["a"; "ghost"; "a"] (removeElements ["a"; "ghost"; "a"] st)
     = removeElements ["a"; "ghost"; "a"] st.
Proof.
  intros st.
  assert (H0 : getElement "ghost" st = None) by reflexivity.
  assert (Hu : Forall (fun i => getElement i st = None) ["ghost"; "b"])
    by (repeat constructor).
  split; [split; assumption|].
  exact (removeElement_unknown_id st "ghost" ["ghost"; "b"]
           ["a"; "ghost"; "a"] H0 Hu).
Defined.

(** ** Requests in flight carry fresh numbers *)

Lemma clearAllHighlights_load_side st :
  load_side (clearAllHighlights st) = load_side st.
Proof.
  unfold clearAllHighlights. apply fold_left_preserves.
  intros; apply clearRegionHighlight_load_side.
Qed.

Lemma applyHighlightMaterial_load_side ms st :
  load_side (applyHighlightMaterial ms st) = load_side st.
Proof.
  unfold applyHighlightMaterial. apply fold_left_preserves.
  intros s a. unfold highlight_one.
  repeat (break_match; try reflexivity); apply paint_load_side.
Qed.

Lemma timerFired_load_side tid st :
  load_side (timerFired tid st) = load_side st.
Proof.
  unfold timerFired. break_match; auto.
  rewrite restoreRegionMaterial_load_side. reflexivity.
Qed.

Lemma animationFrame_load_side st :
  load_side (animationFrame st) = load_side st.
Proof.
  unfold animationFrame.
  rewrite (fold_left_preserves _ load_side); auto.
  intros; apply animate_load_side.
Qed.

Lemma highlightRegion_load_side scene name d st :
  load_side (snd (highlightRegion scene name d st)) = load_side st.
Proof.
  unfold highlightRegion.
  set (st1 := if JSMap.has name (highlightedRegions st)
              then snd (clearRegionHighlight name st) else st).
  assert (H1 : load_side st1 = load_side st).
  { unfold st1. break_match; auto. apply clearRegionHighlight_load_side. }
  destruct (findRegionByName scene name) as [target|]; [|exact H1].
  destruct (highlightable_meshes target) as [|m l] eqn:E; [exact H1|].
  cbv zeta.
  transitivity (load_side (applyHighlightMaterial (m :: l) st1));
    [reflexivity|].
  rewrite applyHighlightMaterial_load_side. exact H1.
Qed.

Lemma loads_fresh_of_side st st' :
  load_side st' = load_side st -> loads_fresh st -> loads_fresh st'.
Proof.
  unfold load_side, loads_fresh. intros H. inversion H as [[H1 H2]].
  rewrite H1, H2. auto.
Qed.

Lemma addElement_loads_fresh e st :
  loads_fresh st -> loads_fresh (snd (addElement e st)).
Proof.
  intros H.
  unfold addElement, addLabel, addBubble, addSpot, addModel, addLine.
  repeat (break_match; simpl; try exact H).
  unfold loads_fresh. simpl. apply Forall_app. split.
  - eapply Forall_impl; [|exact H]. simpl. intros; lia.
  - repeat constructor.
Qed.

Lemma addElements_loads_fresh batch st :
  loads_fresh st -> loads_fresh (snd (addElements batch st)).
Proof.
  revert st. induction batch as [|e batch IH]; intros st H; simpl; auto.
  destruct (addElement e st) as [p st1] eqn:E1.
  destruct (addElements batch st1) as [ps st2] eqn:E2. simpl.
  change st2 with (snd (ps, st2)). rewrite <- E2. apply IH.
  change st1 with (snd (p, st1)). rewrite <- E1.
  apply addElement_loads_fresh, H.
Qed.

Lemma loadSettled_loads_fresh request result st :
  loads_fresh st -> loads_fresh (loadSettled request result st).
Proof.
  intros H. unfold loadSettled, onLoad.
  repeat (break_match; simpl; try exact H);
    unfold loads_fresh; simpl; apply incl_Forall with (2 := H);
    apply incl_filter.
Qed.

Lemma reachable_loads_fresh scene st :
  reachable scene st -> loads_fresh st.
Proof.
  induction 1 as [mats|ev st Hr IH].
  - constructor.
  - destruct ev; simpl.
    + apply addElements_loads_fresh, IH.
    + eapply loads_fresh_of_side; [apply removeElements_load_side | exact IH].
    + eapply loads_fresh_of_side; [apply removeElements_load_side | exact IH].
    + exact IH.
    + eapply loads_fresh_of_side; [apply highlightRegion_load_side | exact IH].
    + eapply loads_fresh_of_side;
        [apply clearRegionHighlight_load_side | exact IH].
    + eapply loads_fresh_of_side; [apply clearAllHighlights_load_side | exact IH].
    + unfold dispose.
      eapply loads_fresh_of_side; [apply clearAllHighlights_load_side|].
      eapply loads_fresh_of_side; [|exact IH].
      unfold load_side. simpl.
      apply (removeElements_load_side _ st).
    + apply loadSettled_loads_fresh, IH.
    + eapply loads_fresh_of_side; [apply timerFired_load_side | exact IH].
    + eapply loads_fresh_of_side; [apply animationFrame_load_side | exact IH].
Qed.

Lemma find_fresh_request st e :
  loads_fresh st ->
  find (fun l => Nat.eqb (load_id l) (nextRequest st))
       (pendingLoads st ++ [mkLoad (nextRequest st) e])
  = Some (mkLoad (nextRequest st) e).
Proof.
  unfold loads_fresh. generalize (nextRequest st) as n.
  induction (pendingLoads st) as [|l ls IH]; intros n H; simpl.
  - rewrite Nat.eqb_refl. reflexivity.
  - inversion H as [|? ? Hl Hls]; subst.
    destruct (Nat.eqb (load_id l) n) eqn:E.
    + apply Nat.eqb_eq in E. lia.
    + apply IH, Hls.
Qed.

(** ** Adding, then removing *)

Lemma add_one_awaited_elements e result st :
  loads_fresh st ->
  elements (add_one_awaited e result st) = elements st
  \/ exists o d,
       elements (add_one_awaited e result st)
       = JSMap.set (id e) (set_object3D o d e) (elements st).
Proof.
  intros Hf. unfold add_one_awaited. simpl.
  destruct (addElement e st) as [p st1] eqn:E. simpl.
  unfold addElement in E. destruct (type e) eqn:T.
  - unfold addLabel in E. destruct (draw2dLabel _ _); inversion E; subst;
      simpl; eauto.
  - unfold addSpot in E. destruct (drawSpot _); inversion E; subst;
      simpl; eauto.
  - unfold addModel in E. inversion E; subst. unfold loadSettled. simpl.
    rewrite (find_fresh_request st e Hf).
    destruct result; simpl; auto.
    unfold onLoad. break_match; simpl; eauto.
  - unfold addLine in E. destruct (drawLineBetween2Spot _ _); inversion E;
      subst; simpl; eauto.
  - unfold addBubble in E. destruct (draw2dBubble _ _); inversion E; subst;
      simpl; eauto.
Qed.

Lemma add_one_awaited_live e result st :
  live_have_objects st -> live_have_objects (add_one_awaited e result st).
Proof.
  intros H. unfold add_one_awaited.
  assert (H1 := addElements_live [e] st H).
  destruct (type e); auto. apply loadSettled_live, H1.
Qed.

(** Claim C4, as amended. For every state the manager can be in and every
    payload [e] whose id is not already in the element map, adding [e]
    (and, for a model, letting its load settle either way) and then
    removing [e.id] leaves the id-to-element map as it was before. *)
Theorem add_then_remove_fresh_id :
  forall (scene : Object3D) (st : MapManager) (e : MapElement)
         (result : option GLTF),
    reachable scene st ->
    getElement (id e) st = None ->
    elements (removeElements [id e] (add_one_awaited e result st))
    = elements st.
Proof.
  intros scene st e result Hr Hnew. unfold removeElements. simpl.
  rewrite removeElement_elements_live
    by (apply add_one_awaited_live, (reachable_live _ _ Hr)).
  destruct (add_one_awaited_elements e result st
              (reachable_loads_fresh _ _ Hr)) as [H|[o [d H]]]; rewrite H.
  - apply JSMapFacts.delete_absent, Hnew.
  - apply JSMapFacts.delete_set_absent, Hnew.
Qed.

Lemma two_labels_reachable : reachable empty_scene two_labels.
Proof. apply reachable_step, reachable_new. Qed.

Lemma add_then_remove_fresh_id_witness :
  (reachable empty_scene two_labels
   /\ getElement (id (a_model "m" true)) two_labels = None)
  /\ elements (removeElements [id (a_model "m" true)]
                 (add_one_awaited (a_model "m" true) (Some (mkGLTF 2))
                    two_labels))
     = elements two_labels.
Proof.
  assert (H : getElement (id (a_model "m" true)) two_labels = None)
    by reflexivity.
  split; [split; [exact two_labels_reachable | exact H]|].
  exact (add_then_remove_fresh_id empty_scene two_labels (a_model "m" true)
           (Some (mkGLTF 2)) two_labels_reachable H).
Defined.

(** Claim C4 as stated fails when the payload reuses a live id: the add
    replaces the live element and the remove then deletes the id, so the
    element that was there before the add is gone. *)
Lemma add_then_remove_live_id_differs :
  reachable empty_scene two_labels
  /\ elements (removeElements [id (a_label "label-1" here)]
                 (add_one_awaited (a_label "label-1" here) None two_labels))
     <> elements two_labels.
Proof.
  split; [exact two_labels_reachable|].
  vm_compute. discriminate.
Qed.

(** ** Adding what cannot be drawn *)

Lemma nothing_drawn_iff (coord : JS.array) (s : string) :
  JS.truthy_nonempty coord = false <->
  draw2dLabel coord s = None /\ draw2dBubble coord s = None
  /\ drawSpot coord = None.
Proof.
  unfold draw2dLabel, draw2dBubble, drawSpot.
  destruct coord as [[|x l]|]; simpl; split; auto;
    try discriminate; intros H; destruct H; discriminate.
Qed.

(** Claim C10, as amended. When the drawing helper returns nothing (a
    missing or empty coordinate array), [addLabel], [addBubble] and
    [addSpot] return a fulfilled promise and the same manager state;
    [getElement] therefore answers as before the call, which is
    [undefined] when no live element already had that id. *)
Theorem add_undrawable_changes_nothing :
  forall (st : MapManager) (e : MapElement),
    JS.truthy_nonempty (position e) = false ->
    addLabel e st = (Fulfilled, st)
    /\ addBubble e st = (Fulfilled, st)
    /\ addSpot e st = (Fulfilled, st)
    /\ (forall add, In add [addLabel; addBubble; addSpot] ->
        elements (snd (add e st)) = elements st
        /\ (forall k, getElement k (snd (add e st)) = getElement k st)
        /\ (getElement (id e) st = None ->
            getElement (id e) (snd (add e st)) = None)).
Proof.
  intros st e H.
  destruct (proj1 (nothing_drawn_iff (position e) (text e)) H)
    as [H1 [H2 H3]].
  assert (A1 : addLabel e st = (Fulfilled, st))
    by (unfold addLabel; rewrite H1; reflexivity).
  assert (A2 : addBubble e st = (Fulfilled, st))
    by (unfold addBubble; rewrite H2; reflexivity).
  assert (A3 : addSpot e st = (Fulfilled, st))
    by (unfold addSpot; rewrite H3; reflexivity).
  repeat split; auto;
    destruct H0 as [<-|[<-|[<-|[]]]];
    rewrite ?A1, ?A2, ?A3; simpl; auto.
Qed.

Lemma add_undrawable_changes_nothing_witness :
  JS.truthy_nonempty (position (a_spot "s" (Some []))) = false
  /\ addSpot (a_spot "s" (Some [])) two_labels = (Fulfilled, two_labels)
  /\ getElement "s" (snd (addSpot (a_spot "s" (Some [])) two_labels)) = None.
Proof.
  assert (H : JS.truthy_nonempty (position (a_spot "s" (Some []))) = false)
    by reflexivity.
  destruct (add_undrawable_changes_nothing two_labels
              (a_spot "s" (Some [])) H) as [_ [_ [A3 Hall]]].
  split; [exact H|]. split; [exact A3|].
  apply (Hall addSpot); [simpl; auto | reflexivity].
Defined.

(** Claim C10 as stated fails when the payload reuses a live id: nothing
    is inserted, yet [getElement] still finds the element that was
    already there. *)
Lemma getElement_after_undrawable_add_of_live_id :
  draw2dLabel (position (a_label "label-1" (Some [])))
              (text (a_label "label-1" (Some []))) = None
  /\ fst (addLabel (a_label "label-1" (Some [])) two_labels) = Fulfilled
  /\ elements (snd (addLabel (a_label "label-1" (Some [])) two_labels))
     = elements two_labels
  /\ getElement (id (a_label "label-1" (Some [])))
       (snd (addLabel (a_label "label-1" (Some [])) two_labels)) <> None.
Proof.
  repeat split. vm_compute. discriminate.
Qed.

(** ** Clearing all elements *)

Lemma strip_prefix_spec p s rest :
  strip_prefix p s = Some rest <-> s = (p ++ rest)%string.
Proof.
  revert s. induction p as [|a p IH]; intros s; simpl.
  - split; [intros [= ->]; reflexivity | intros ->; reflexivity].
  - destruct s as [|c s]; [split; discriminate|].
    destruct (Ascii.eqb a c) eqn:E.
    + apply Ascii.eqb_eq in E. subst c. rewrite IH. split.
      * intros ->. reflexivity.
      * intros [= ->]. reflexivity.
    + apply Ascii.eqb_neq in E. split; [discriminate|].
      intros [= -> _]. congruence.
Qed.

Lemma digit_char_code d : d < 10 -> nat_of_ascii (digit_char d) = 48 + d.
Proof. intros H. unfold digit_char. apply nat_ascii_embedding. lia. Qed.

Lemma is_digit_char d : d < 10 -> is_digit (digit_char d) = true.
Proof.
  intros H. unfold is_digit. rewrite (digit_char_code d H).
  apply andb_true_intro. split; apply Nat.leb_le; lia.
Qed.

Lemma is_digit_inv c :
  is_digit c = true -> exists d, d < 10 /\ c = digit_char d.
Proof.
  unfold is_digit. intros H. apply andb_prop in H. destruct H as [H1 H2].
  apply Nat.leb_le in H1. apply Nat.leb_le in H2.
  exists (nat_of_ascii c - 48). split; [lia|].
  unfold digit_char. replace (48 + (nat_of_ascii c - 48)) with (nat_of_ascii c)
    by lia.
  symmetry. apply ascii_nat_embedding.
Qed.

Lemma all_digits_numeral ds :
  Forall (fun d => d < 10) ds -> all_digits (numeral ds) = true.
Proof.
  induction 1 as [|d ds Hd _ IH]; cbn [numeral all_digits]; auto.
  rewrite (is_digit_char d Hd). exact IH.
Qed.

Lemma all_digits_inv s :
  all_digits s = true ->
  exists ds, Forall (fun d => d < 10) ds /\ s = numeral ds.
Proof.
  induction s as [|c s IH]; cbn [all_digits]; intros H.
  - exists []. split; [constructor | reflexivity].
  - apply andb_prop in H. destruct H as [Hc Hs].
    destruct (is_digit_inv c Hc) as [d [Hd ->]].
    destruct (IH Hs) as [ds [Hds ->]].
    exists (d :: ds). split; [constructor; assumption | reflexivity].
Qed.

Lemma parse_digits_numeral ds acc :
  Forall (fun d => d < 10) ds ->
  parse_digits acc (numeral ds)
  = (acc * 10 ^ Z.of_nat (List.length ds) + positional ds)%Z.
Proof.
  intros H. revert acc.
  induction H as [|d ds Hd _ IH]; intros acc;
    cbn [numeral parse_digits positional List.length].
  - change (10 ^ Z.of_nat 0)%Z with 1%Z. lia.
  - rewrite IH, (digit_char_code d Hd).
    replace (Z.of_nat (48 + d) - 48)%Z with (Z.of_nat d) by lia.
    rewrite Nat2Z.inj_succ, Z.pow_succ_r by lia. ring.
Qed.

Lemma positional_nonneg ds : (0 <= positional ds)%Z.
Proof.
  induction ds as [|d ds IH]; cbn [positional]; [lia|].
  assert (0 <= 10 ^ Z.of_nat (List.length ds))%Z by (apply Z.pow_nonneg; lia).
  nia.
Qed.

Lemma lt_of_Z a c : JS.lt (JS.of_Z a) (JS.of_Z c) = (a <? c)%Z.
Proof.
  unfold JS.lt, JS.of_Z, Qle_bool. simpl. rewrite !Z.mul_1_r.
  rewrite Z.ltb_antisym. reflexivity.
Qed.

Lemma numeral_nonempty ds : ds <> [] <-> numeral ds <> EmptyString.
Proof. destruct ds; cbn [numeral]; split; congruence. Qed.

(** The filter of [clearAllElements] spares exactly the protected ids. *)
Lemma idsToRemove_filter_spec id0 :
  idsToRemove_filter id0 = false <-> protected_id id0.
Proof.
  unfold idsToRemove_filter, match_label, protected_id, is_label_N. split.
  - destruct (strip_prefix "label-" id0) as [digits|] eqn:S; [|discriminate].
    apply strip_prefix_spec in S.
    destruct digits as [|c digits]; [discriminate|].
    destruct (all_digits (String c digits)) eqn:A; [|discriminate].
    destruct (all_digits_inv _ A) as [ds [Hds E]].
    unfold parseInt. rewrite E.
    assert (Hne : ds <> []) by (apply numeral_nonempty; rewrite <- E; discriminate).
    destruct (numeral ds) eqn:En; [destruct ds; [congruence | discriminate]|].
    rewrite <- En, !lt_of_Z, (parse_digits_numeral ds 0 Hds). simpl.
    intros H. apply orb_false_elim in H. destruct H as [H1 H2].
    apply Z.ltb_ge in H1. apply Z.ltb_ge in H2.
    exists (positional ds). split; [lia|].
    exists ds. repeat split; auto. rewrite S, E, En. reflexivity.
  - intros [N [HN [ds [Hne [Hds [-> HP]]]]]].
    rewrite (proj2 (strip_prefix_spec "label-" _ (numeral ds)) eq_refl).
    destruct (numeral ds) eqn:En;
      [apply numeral_nonempty in Hne; congruence|].
    rewrite <- En, (all_digits_numeral ds Hds).
    unfold parseInt. rewrite En, <- En.
    rewrite !lt_of_Z, (parse_digits_numeral ds 0 Hds). simpl. rewrite HP.
    apply orb_false_intro; apply Z.ltb_ge; lia.
Qed.

Lemma removeElements_elements ids st :
  live_have_objects st ->
  elements (removeElements ids st)
  = fold_left (fun m i => JSMap.delete i m) ids (elements st).
Proof.
  unfold removeElements. revert st.
  induction ids as [|i ids IH]; intros st H; simpl; auto.
  rewrite IH by (apply removeElement_live, H).
  rewrite (removeElement_elements_live _ _ H). reflexivity.
Qed.

Lemma get_fold_delete {V : Type} (k : string) ids (m : JSMap.t V) :
  (In k ids -> JSMap.get k (fold_left (fun m i => JSMap.delete i m) ids m) = None)
  /\ (~ In k ids ->
      JSMap.get k (fold_left (fun m i => JSMap.delete i m) ids m)
      = JSMap.get k m).
Proof.
  revert m. induction ids as [|i ids IH]; intros m; simpl.
  - split; [intros [] | reflexivity].
  - destruct (IH (JSMap.delete i m)) as [IH1 IH2]. split.
    + intros [->|H]; auto.
      destruct (in_dec string_dec k ids) as [Hin|Hnin]; auto.
      rewrite (IH2 Hnin). apply JSMapFacts.get_delete_same.
    + intros H. rewrite IH2 by tauto.
      apply JSMapFacts.get_delete_other. intros ->. tauto.
Qed.

Lemma clearAllElements_getElement st id0 :
  live_have_objects st ->
  getElement id0 (clearAllElements st)
  = if idsToRemove_filter id0 then None else getElement id0 st.
Proof.
  intros H. unfold clearAllElements, getElement.
  rewrite (removeElements_elements _ _ H).
  set (ids := filter idsToRemove_filter (JSMap.keys (elements st))).
  destruct (get_fold_delete id0 ids (elements st)) as [H1 H2].
  destruct (idsToRemove_filter id0) eqn:F.
  - destruct (in_dec string_dec id0 (JSMap.keys (elements st))) as [Hin|Hnin].
    + apply H1. unfold ids. apply filter_In. auto.
    + rewrite H2.
      * apply JSMapFacts.get_none_keys, Hnin.
      * unfold ids. rewrite filter_In. tauto.
  - apply H2. unfold ids. rewrite filter_In. intros [_ C]. congruence.
Qed.

(** Claim C3. In every state the manager can be in, [clearAllElements]
    keeps every element whose id is [label-N] with [0 <= N <= 31] and
    removes every other one ([label-N] with larger [N], and every id that
    is not of that form). *)
Theorem clearAllElements_spares_protected_labels :
  forall (scene : Object3D) (st : MapManager) (id0 : string),
    reachable scene st ->
    (protected_id id0 ->
     getElement id0 (clearAllElements st) = getElement id0 st)
    /\ (~ protected_id id0 -> getElement id0 (clearAllElements st) = None).
Proof.
  intros scene st id0 Hr.
  rewrite (clearAllElements_getElement st id0 (reachable_live _ _ Hr)).
  split; intros H.
  - apply idsToRemove_filter_spec in H. rewrite H. reflexivity.
  - destruct (idsToRemove_filter id0) eqn:F; auto.
    exfalso. apply H, idsToRemove_filter_spec, F.
Qed.

Lemma mixed_elements_reachable : reachable empty_scene mixed_elements.
Proof. apply reachable_step, reachable_new. Qed.

Lemma clearAllElements_spares_protected_labels_witness :
  reachable empty_scene mixed_elements
  /\ (protected_id "label-31"
      /\ getElement "label-31" (clearAllElements mixed_elements)
         = getElement "label-31" mixed_elements
      /\ getElement "label-31" mixed_elements <> None)
  /\ (~ protected_id "label-32"
      /\ getElement "label-32" (clearAllElements mixed_elements) = None
      /\ getElement "label-32" mixed_elements <> None).
Proof.
  assert (P31 : protected_id "label-31")
    by (apply idsToRemove_filter_spec; reflexivity).
  assert (P32 : ~ protected_id "label-32").
  { intros H. apply idsToRemove_filter_spec in H. discriminate H. }
  split; [exact mixed_elements_reachable|]. split.
  - split; [exact P31|]. split.
    + exact (proj1 (clearAllElements_spares_protected_labels empty_scene
                      mixed_elements "label-31" mixed_elements_reachable) P31).
    + discriminate.
  - split; [exact P32|]. split.
    + exact (proj2 (clearAllElements_spares_protected_labels empty_scene
                      mixed_elements "label-32" mixed_elements_reachable) P32).
    + discriminate.
Defined.

(** ** A failing model load *)

















(** ** The pulsing ring *)

Lemma Qred_mul_1_l q : Qred (1 * Qred q) = Qred q.
Proof.
  apply Qred_complete. rewrite Qmult_1_l. apply Qred_correct.
Qed.

(** Once [_s] holds a number, a tick does what the pulse is meant to do. *)
Lemma update_ring_numeric (mesh : Ring) (q : Q) :
  _s mesh = JS.Num q ->
  let s := Qred (q + (1 # 100))%Q in
  update_ring mesh
  = if Qle_bool s 2
    then mkRing (ring_obj mesh) (JS.Num s)
           (JS.Num s, JS.Num s, JS.Num s) (JS.Num (Qred (2 - s)%Q))
    else mkRing (ring_obj mesh) (JS.of_Z 1)
           (JS.Num s, JS.Num s, JS.Num s) (opacity mesh).
Proof.
  intros H s. unfold update_ring. rewrite H.
  cbn [JS.add JS.mul JS.of_Z JS.le JS.sub]. fold s.
  change (inject_Z 1) with 1%Q. change (inject_Z 2) with 2%Q.
  replace (Qred (1 * s)) with s
    by (unfold s; rewrite Qred_mul_1_l; reflexivity).
  reflexivity.
Qed.

(** Claim C9, on the tick the code gets wrong. [addSpot] registers the
    ring as [drawSpot] made it, without a [_s] property; on the first
    [updateAnimations] the sum [undefined + 0.01] is [NaN], the ring's
    scale is set to [NaN] in all three directions, the opacity is left
    alone, and [_s] is reset to 1. The rings already registered are
    ticked as usual. *)
Theorem first_tick_of_a_new_ring :
  forall (st : MapManager) (e : MapElement) (delta : Q) (c : Q) (rest : list Q),
    position e = Some (c :: rest) ->
    exists ring : ObjId,
      animatedSpots (snd (addSpot e st))
      = animatedSpots st
        ++ [mkRing ring JS.Undef (JS.of_Z 1, JS.of_Z 1, JS.of_Z 1) (JS.of_Z 1)]
      /\ animatedSpots (updateAnimations delta (snd (addSpot e st)))
         = map update_ring (animatedSpots st)
           ++ [mkRing ring (JS.of_Z 1) (JS.NaN, JS.NaN, JS.NaN) (JS.of_Z 1)].
Proof.
  intros st e delta c rest H. exists (S (nextObject st)).
  unfold addSpot, drawSpot. rewrite H. cbn [JS.truthy_nonempty option_map].
  cbn [snd]. unfold updateAnimations. cbn [animatedSpots with_animatedSpots
    with_flySpots with_modelMixers with_elements with_spotsContainer
    with_nextObject].
  split; [reflexivity|]. rewrite map_app. reflexivity.
Qed.

Lemma first_tick_of_a_new_ring_witness :
  position (a_spot "s" here) = Some [1 # 1; 2 # 1]%Q
  /\ animatedSpots
       (updateAnimations (1 # 60) (snd (addSpot (a_spot "s" here) two_labels)))
     = [mkRing 3 (JS.of_Z 1) (JS.NaN, JS.NaN, JS.NaN) (JS.of_Z 1)].
Proof.
  split; [reflexivity|].
  destruct (first_tick_of_a_new_ring two_labels (a_spot "s" here) (1 # 60)
              (1 # 1)%Q [2 # 1]%Q eq_refl) as [ring [H1 H2]].
  rewrite H2. vm_compute in H1. inversion H1. reflexivity.
Defined.

(** ** The highlight records and their timers *)

Lemma record_of_highlight_side st st' :
  highlight_side st' = highlight_side st -> record_side st' = record_side st.
Proof.
  unfold highlight_side, record_side. intros H. inversion H. reflexivity.
Qed.

Lemma paint_record_side i c e st :
  record_side (paint i c e st) = record_side st.
Proof. unfold paint. side_solver. Qed.

Lemma paint_rafQueue i c e st : rafQueue (paint i c e st) = rafQueue st.
Proof. unfold paint. side_solver. Qed.

Lemma animate_record_side tw st :
  record_side (animate tw st) = record_side st.
Proof.
  unfold animate. break_match.
  - apply paint_record_side.
  - unfold record_side. simpl. apply (paint_record_side _ _ _ st).
Qed.

Lemma restore_mesh_record_side originals acc mesh :
  record_side (snd (restore_mesh originals acc mesh)) = record_side (snd acc).
Proof.
  unfold restore_mesh, restore_one. destruct acc as [n st]. simpl.
  repeat (break_match; simpl; try reflexivity);
    apply animate_record_side.
Qed.

Lemma restoreRegionMaterial_record_side name st :
  record_side (restoreRegionMaterial name st)
  = (JSMap.delete name (highlightedRegions st), timers st, nextTimer st).
Proof.
  unfold restoreRegionMaterial.
  destruct (JSMap.get name (highlightedRegions st)) as [info|] eqn:G.
  - set (st' := snd (fold_left _ _ _)).
    assert (H : record_side st' = record_side st).
    { unfold st'.
      apply (fold_left_preserves _ (fun acc => record_side (snd acc))
               _ (0, st)).
      intros; apply restore_mesh_record_side. }
    unfold record_side in *. simpl. inversion H as [[H1 H2 H3]].
    rewrite H1. reflexivity.
  - unfold record_side. rewrite (JSMapFacts.delete_absent _ _ G). reflexivity.
Qed.

Lemma clearRegionHighlight_record_side name st :
  record_side (snd (clearRegionHighlight name st))
  = match JSMap.get name (highlightedRegions st) with
    | Some info =>
        (JSMap.delete name (highlightedRegions st),
         filter (fun tm => negb (Nat.eqb (timer_id tm) (timeoutId info)))
           (timers st),
         nextTimer st)
    | None => record_side st
    end.
Proof.
  unfold clearRegionHighlight.
  destruct (JSMap.get name (highlightedRegions st)) as [info|]; auto.
  cbn [snd]. rewrite restoreRegionMaterial_record_side. reflexivity.
Qed.

Lemma timerFired_record_side tid st :
  record_side (timerFired tid st)
  = match find (fun tm => Nat.eqb (timer_id tm) tid) (timers st) with
    | Some tm =>
        (JSMap.delete (timer_region tm) (highlightedRegions st),
         filter (fun tm => negb (Nat.eqb (timer_id tm) tid)) (timers st),
         nextTimer st)
    | None => record_side st
    end.
Proof.
  unfold timerFired. destruct (find _ (timers st)) as [tm|]; auto.
  rewrite restoreRegionMaterial_record_side. reflexivity.
Qed.

Lemma applyHighlightMaterial_record_side ms st :
  record_side (applyHighlightMaterial ms st) = record_side st.
Proof.
  unfold applyHighlightMaterial. apply fold_left_preserves.
  intros s a. unfold highlight_one.
  repeat (break_match; try reflexivity); apply paint_record_side.
Qed.

Lemma applyHighlightMaterial_rafQueue ms st :
  rafQueue (applyHighlightMaterial ms st) = rafQueue st.
Proof.
  unfold applyHighlightMaterial. apply fold_left_preserves.
  intros s a. unfold highlight_one.
  repeat (break_match; try reflexivity); apply paint_rafQueue.
Qed.

Lemma animationFrame_record_side st :
  record_side (animationFrame st) = record_side st.
Proof.
  unfold animationFrame.
  rewrite (fold_left_preserves _ record_side); auto.
  intros; apply animate_record_side.
Qed.

Lemma after_old_highlight_get name st :
  JSMap.get name (highlightedRegions (after_old_highlight name st)) = None.
Proof.
  unfold after_old_highlight, JSMap.has.
  destruct (JSMap.get name (highlightedRegions st)) as [info|] eqn:G; auto.
  assert (H := clearRegionHighlight_record_side name st). rewrite G in H.
  unfold record_side in H. inversion H as [[H1 H2 H3]]. rewrite H1.
  apply JSMapFacts.get_delete_same.
Qed.

(** [highlightRegion], case by case. *)
Lemma highlightRegion_cases scene name d st :
  let st1 := after_old_highlight name st in
  match findRegionByName scene name with
  | Some target =>
      match highlightable_meshes target with
      | [] => highlightRegion scene name d st = (false, st1)
      | ms =>
          fst (highlightRegion scene name d st) = true
          /\ record_side (snd (highlightRegion scene name d st))
             = (JSMap.set name
                  (mkHighlight ms
                     (flat_map (clone_materials (materials st1)) ms)
                     (nextTimer st1))
                  (highlightedRegions st1),
                timers st1 ++ [mkTimer (nextTimer st1) name d],
                S (nextTimer st1))
      end
  | None => highlightRegion scene name d st = (false, st1)
  end.
Proof.
  intros st1. unfold highlightRegion. fold (after_old_highlight name st).
  fold st1. destruct (findRegionByName scene name) as [target|]; auto.
  destruct (highlightable_meshes target) as [|m l] eqn:E; auto.
  cbv zeta. cbn [fst snd]. split; auto.
  assert (H := applyHighlightMaterial_record_side (m :: l) st1).
  unfold record_side in *. inversion H as [[H1 H2 H3]]. simpl.
  rewrite H1, H2, H3. reflexivity.
Qed.

(** Cancelling timers keeps the pending timer ids distinct. *)
Lemma timer_ids_after_filter (keep : Timer -> bool) (tms : list Timer) :
  NoDup (map timer_id tms) -> NoDup (map timer_id (filter keep tms)).
Proof.
  induction tms as [|tm tms IH]; cbn [filter map]; intros Hnd.
  - constructor.
  - apply NoDup_cons_iff in Hnd. destruct Hnd as [Hfresh Hnd].
    destruct (keep tm); cbn [map]; [|exact (IH Hnd)].
    apply NoDup_cons_iff. split; [|exact (IH Hnd)].
    intros Hin. apply Hfresh.
    apply (incl_map timer_id (incl_filter keep tms)), Hin.
Qed.

Lemma NoDup_map_inj {A B : Type} (f : A -> B) (l : list A) (a c : A) :
  NoDup (map f l) -> In a l -> In c l -> f a = f c -> a = c.
Proof.
  induction l as [|x l IH]; simpl; intros H Ha Hc E; [contradiction|].
  inversion H as [|? ? Hn Hl]; subst.
  destruct Ha as [->|Ha], Hc as [->|Hc]; auto.
  - exfalso. apply Hn. rewrite E. apply in_map, Hc.
  - exfalso. apply Hn. rewrite <- E. apply in_map, Ha.
Qed.

Section Records.

Variable scene : Object3D.

Lemma highlights_ok_of_record_side st st' :
  record_side st' = record_side st -> highlights_ok scene st -> highlights_ok scene st'.
Proof.
  unfold record_side, highlights_ok. intros H. inversion H as [[H1 H2 H3]].
  rewrite H1, H2, H3. auto.
Qed.

Lemma records_ok_clear hl tms next name info :
  records_ok scene hl tms next ->
  JSMap.get name hl = Some info ->
  records_ok scene (JSMap.delete name hl)
    (filter (fun tm => negb (Nat.eqb (timer_id tm) (timeoutId info))) tms)
    next.
Proof.
  intros [Hnd Htr Hb Htn Hrt Hrr] G. constructor.
  - apply JSMapFacts.NoDup_keys_delete, Hnd.
  - intros tm Hin. apply filter_In in Hin. destruct Hin as [Hin Hid].
    destruct (Htr tm Hin) as [info' [G' E']]. exists info'. split; auto.
    rewrite JSMapFacts.get_delete_other; auto.
    intros En. rewrite <- En, G in G'. inversion G'; subst info'.
    rewrite E', Nat.eqb_refl in Hid. discriminate.
  - intros tm Hin. apply filter_In in Hin. apply Hb, Hin.
  - apply timer_ids_after_filter, Htn.
  - intros name' info' G'.
    destruct (String.eqb name name') eqn:E.
    + apply String.eqb_eq in E. subst name'.
      rewrite JSMapFacts.get_delete_same in G'. discriminate.
    + apply String.eqb_neq in E.
      rewrite (JSMapFacts.get_delete_other _ _ _ E) in G'.
      destruct (Hrt name' info' G') as [tm [Hin [Hid Hreg]]].
      exists tm. repeat split; auto. apply filter_In. split; auto.
      destruct (Nat.eqb (timer_id tm) (timeoutId info)) eqn:Eid; auto.
      apply Nat.eqb_eq in Eid.
      destruct (Hrt name info G) as [tm0 [Hin0 [Hid0 Hreg0]]].
      assert (tm = tm0)
        by (apply (NoDup_map_inj timer_id tms); auto; congruence).
      subst tm0. congruence.
  - intros name' info' G'.
    destruct (String.eqb name name') eqn:E.
    + apply String.eqb_eq in E. subst name'.
      rewrite JSMapFacts.get_delete_same in G'. discriminate.
    + apply String.eqb_neq in E.
      rewrite (JSMapFacts.get_delete_other _ _ _ E) in G'.
      apply (Hrr name' info' G').
Qed.

Lemma records_ok_install hl tms next name ms originals d :
  records_ok scene hl tms next ->
  JSMap.get name hl = None ->
  can_highlight scene name ->
  records_ok scene (JSMap.set name (mkHighlight ms originals next) hl)
    (tms ++ [mkTimer next name d]) (S next).
Proof.
  intros [Hnd Htr Hb Htn Hrt Hrr] G Hcan. constructor.
  - apply JSMapFacts.NoDup_keys_set, Hnd.
  - intros tm Hin. apply in_app_or in Hin. destruct Hin as [Hin|[<-|[]]].
    + destruct (Htr tm Hin) as [info' [G' E']]. exists info'. split; auto.
      rewrite JSMapFacts.get_set_other; auto.
      intros En. rewrite <- En in G'. congruence.
    + simpl. rewrite JSMapFacts.get_set_same. eauto.
  - intros tm Hin. apply in_app_or in Hin. destruct Hin as [Hin|[<-|[]]].
    + specialize (Hb tm Hin). lia.
    + simpl. lia.
  - rewrite map_app. simpl. apply NoDup_app; auto.
    + constructor; [intros [] | constructor].
    + intros x Hx [<-|[]]. apply in_map_iff in Hx.
      destruct Hx as [tm [E Hin]]. specialize (Hb tm Hin). lia.
  - intros name' info' G'.
    destruct (String.eqb name name') eqn:E.
    + apply String.eqb_eq in E. subst name'.
      rewrite JSMapFacts.get_set_same in G'. inversion G'; subst info'.
      exists (mkTimer next name d). split; [|split; reflexivity].
      apply in_or_app. right. left. reflexivity.
    + apply String.eqb_neq in E.
      rewrite (JSMapFacts.get_set_other _ _ _ _ E) in G'.
      destruct (Hrt name' info' G') as [tm [Hin H]].
      exists tm. split; auto. apply in_or_app. left. exact Hin.
  - intros name' info' G'.
    destruct (String.eqb name name') eqn:E.
    + apply String.eqb_eq in E. subst name'. exact Hcan.
    + apply String.eqb_neq in E.
      rewrite (JSMapFacts.get_set_other _ _ _ _ E) in G'.
      apply (Hrr name' info' G').
Qed.

Lemma clearRegionHighlight_ok name st :
  highlights_ok scene st -> highlights_ok scene (snd (clearRegionHighlight name st)).
Proof.
  intros H. unfold highlights_ok.
  assert (E := clearRegionHighlight_record_side name st).
  destruct (JSMap.get name (highlightedRegions st)) as [info|] eqn:G.
  - unfold record_side in E. inversion E as [[E1 E2 E3]].
    rewrite E1, E2, E3. apply records_ok_clear; auto.
  - apply (highlights_ok_of_record_side _ _ E H).
Qed.

Lemma after_old_highlight_ok name st :
  highlights_ok scene st -> highlights_ok scene (after_old_highlight name st).
Proof.
  intros H. unfold after_old_highlight. break_match; auto.
  apply clearRegionHighlight_ok, H.
Qed.

Lemma highlightRegion_ok name d st :
  highlights_ok scene st -> highlights_ok scene (snd (highlightRegion scene name d st)).
Proof.
  intros H. assert (C := highlightRegion_cases scene name d st).
  cbv zeta in C.
  assert (H1 := after_old_highlight_ok name st H).
  assert (G1 := after_old_highlight_get name st).
  destruct (findRegionByName scene name) as [target|] eqn:F;
    [|rewrite C; exact H1].
  destruct (highlightable_meshes target) as [|m l] eqn:M;
    [rewrite C; exact H1|].
  destruct C as [_ C]. unfold highlights_ok, record_side in *.
  inversion C as [[C1 C2 C3]]. rewrite C1, C2, C3.
  apply records_ok_install; auto.
  exists target. split; auto. rewrite M. discriminate.
Qed.

Lemma timerFired_ok tid st :
  highlights_ok scene st -> highlights_ok scene (timerFired tid st).
Proof.
  intros H. assert (E := timerFired_record_side tid st).
  destruct (find _ (timers st)) as [tm|] eqn:F.
  - apply find_some in F. destruct F as [Hin Hid].
    apply Nat.eqb_eq in Hid. subst tid.
    destruct (ok_timer_record _ _ _ _ H tm Hin) as [info [G Ei]].
    unfold highlights_ok, record_side in *. inversion E as [[E1 E2 E3]].
    rewrite E1, E2, E3, <- Ei. apply records_ok_clear; auto.
  - apply (highlights_ok_of_record_side _ _ E H).
Qed.

Lemma clearAllHighlights_ok st :
  highlights_ok scene st -> highlights_ok scene (clearAllHighlights st).
Proof.
  unfold clearAllHighlights.
  generalize (JSMap.keys (highlightedRegions st)) as names. intros names.
  revert st. induction names as [|n names IH]; intros st H; simpl; auto.
  apply IH, clearRegionHighlight_ok, H.
Qed.

Lemma reachable_highlights_ok st : reachable scene st -> highlights_ok scene st.
Proof.
  induction 1 as [mats|ev st Hr IH].
  - constructor; simpl; try constructor; try contradiction; discriminate.
  - destruct ev; simpl.
    + eapply highlights_ok_of_record_side; [|exact IH].
      apply record_of_highlight_side, addElements_highlight_side.
    + eapply highlights_ok_of_record_side; [|exact IH].
      apply record_of_highlight_side, removeElements_highlight_side.
    + eapply highlights_ok_of_record_side; [|exact IH].
      apply record_of_highlight_side, removeElements_highlight_side.
    + exact IH.
    + apply highlightRegion_ok, IH.
    + apply clearRegionHighlight_ok, IH.
    + apply clearAllHighlights_ok, IH.
    + unfold dispose. apply clearAllHighlights_ok.
      eapply highlights_ok_of_record_side; [|exact IH].
      unfold record_side. simpl.
      apply (record_of_highlight_side _ _
               (removeElements_highlight_side _ st)).
    + eapply highlights_ok_of_record_side; [|exact IH].
      apply record_of_highlight_side, loadSettled_highlight_side.
    + apply timerFired_ok, IH.
    + eapply highlights_ok_of_record_side; [|exact IH].
      apply animationFrame_record_side.
Qed.

End Records.

(** ** Looking a region up *)

Lemma field_is_false field name :
  field_is field name = false <-> field <> Some name.
Proof.
  unfold field_is. destruct field as [s|]; [|split; congruence].
  destruct (String.eqb s name) eqn:E.
  - apply String.eqb_eq in E. subst. split; congruence.
  - apply String.eqb_neq in E. split; congruence.
Qed.

Lemma properties_match_false properties name :
  properties_match properties name = false <->
  p_name properties <> Some name /\ p_NAME properties <> Some name
  /\ p_adcode properties <> Some name /\ p_code properties <> Some name.
Proof.
  unfold properties_match. rewrite !orb_false_iff, !field_is_false. tauto.
Qed.

Lemma last_match_none name l acc :
  fold_left
    (fun targetRegion child =>
       match customProperties child with
       | Some properties =>
           if properties_match properties name
           then Some child else targetRegion
       | None => targetRegion
       end) l acc = None
  <-> acc = None
      /\ forall child properties,
           In child l -> customProperties child = Some properties ->
           properties_match properties name = false.
Proof.
  revert acc. induction l as [|c l IH]; intros acc; simpl.
  - split; [intros ->; split; [reflexivity | intros ? ? []] | tauto].
  - rewrite IH. destruct (customProperties c) as [p|] eqn:P.
    + destruct (properties_match p name) eqn:M.
      * split; [intros [H _]; discriminate|].
        intros [_ H]. specialize (H c p (or_introl eq_refl) P). congruence.
      * split.
        -- intros [-> H]. split; auto.
           intros child q [<-|Hin] Hq; [congruence | eauto].
        -- intros [-> H]. split; auto. intros child q Hin. apply H. auto.
    + split.
      * intros [-> H]. split; auto.
        intros child q [<-|Hin] Hq; [congruence | eauto].
      * intros [-> H]. split; auto. intros child q Hin. apply H. auto.
Qed.

Lemma findRegionByName_none scene name :
  findRegionByName scene name = None <-> no_node_matches scene name.
Proof.
  unfold findRegionByName, no_node_matches. rewrite last_match_none. split.
  - intros [_ H] child p Hin Hp. apply properties_match_false. eauto.
  - intros H. split; auto. intros child p Hin Hp.
    apply properties_match_false. eauto.
Qed.

Lemma highlightable_meshes_nil target :
  highlightable_meshes target = [] <-> no_mesh_marked target.
Proof.
  unfold highlightable_meshes, no_mesh_marked.
  induction (traverse target) as [|c l IH]; simpl.
  - split; auto. intros _ ? ? [].
  - split.
    + intros H. apply app_eq_nil in H. destruct H as [H1 H2].
      intros child mesh [<-|Hin] Hm.
      * rewrite Hm in H1. destruct (isChangeColor mesh); [discriminate|auto].
      * apply (proj1 IH H2 child mesh Hin Hm).
    + intros H. rewrite (proj2 IH) by (intros; eapply H; eauto).
      rewrite app_nil_r. destruct (as_mesh c) as [mesh|] eqn:Hm; auto.
      rewrite (H c mesh (or_introl eq_refl) Hm). reflexivity.
Qed.

Lemma cannot_highlight_cases scene name :
  ~ can_highlight scene name <->
  no_node_matches scene name
  \/ (exists target, findRegionByName scene name = Some target
                     /\ no_mesh_marked target).
Proof.
  unfold can_highlight. split.
  - intros H. destruct (findRegionByName scene name) as [target|] eqn:F.
    + right. exists target. split; auto. apply highlightable_meshes_nil.
      destruct (highlightable_meshes target) eqn:M; auto.
      exfalso. apply H. exists target. split; auto. rewrite M. discriminate.
    + left. apply findRegionByName_none, F.
  - intros [H|[target [F M]]] [target' [F' M']].
    + apply findRegionByName_none in H. congruence.
    + rewrite F in F'. inversion F'; subst target'.
      apply M', highlightable_meshes_nil, M.
Qed.

(** A name the search cannot resolve has no record, and highlighting it
    fails and changes nothing. *)
Lemma cannot_highlight_noop scene st name d :
  reachable scene st ->
  ~ can_highlight scene name ->
  highlightRegion scene name d st = (false, st)
  /\ JSMap.get name (highlightedRegions st) = None.
Proof.
  intros Hr Hno.
  assert (Hok := reachable_highlights_ok scene st Hr).
  assert (G : JSMap.get name (highlightedRegions st) = None).
  { destruct (JSMap.get name (highlightedRegions st)) as [info|] eqn:G; auto.
    exfalso. apply Hno, (ok_record_region _ _ _ _ Hok name info G). }
  split; auto.
  assert (C := highlightRegion_cases scene name d st). cbv zeta in C.
  assert (E : after_old_highlight name st = st)
    by (unfold after_old_highlight, JSMap.has; rewrite G; reflexivity).
  rewrite E in C.
  destruct (proj1 (cannot_highlight_cases scene name) Hno)
    as [H|[target [F M]]].
  - apply findRegionByName_none in H. rewrite H in C. exact C.
  - rewrite F in C. apply highlightable_meshes_nil in M. rewrite M in C.
    exact C.
Qed.


(** Claim C5. In every state the manager can be in, a [highlightRegion]
    call whose name matches no node in any of the fields [name], [NAME],
    [adcode], [code], or whose matched node has no mesh marked as
    highlightable, answers [false] and returns the very same manager
    state: no material is touched, no timer is set and the highlight
    records are as before, whichever regions are highlighted. (A record
    for the name itself cannot exist then: records are made only for
    names the search resolves to a node with a marked mesh.) *)
Theorem highlightRegion_unmatched_has_no_effect :
  forall (scene : Object3D) (st : MapManager) (name : string) (d : Z),
    reachable scene st ->
    no_node_matches scene name
    \/ (exists target, findRegionByName scene name = Some target
                       /\ no_mesh_marked target) ->
    highlightRegion scene name d st = (false, st)
    /\ JSMap.get name (highlightedRegions st) = None.
Proof.
  intros scene st name d Hr Hno.
  apply cannot_highlight_noop; auto.
  apply cannot_highlight_cases, Hno.
Qed.

Lemma S_highlighted_reachable : reachable demo_map S_highlighted.
Proof. apply reachable_step, reachable_new. Qed.

Lemma highlightRegion_unmatched_has_no_effect_witness :
  (reachable demo_map S_highlighted
   /\ (no_node_matches demo_map "nowhere"
       \/ exists target, findRegionByName demo_map "nowhere" = Some target
                         /\ no_mesh_marked target))
  /\ highlightRegion demo_map "nowhere" 3000 S_highlighted
     = (false, S_highlighted)
  /\ getHighlightedRegions S_highlighted = ["S"].
Proof.
  assert (H : no_node_matches demo_map "nowhere")
    by (apply findRegionByName_none; reflexivity).
  split; [split; [exact S_highlighted_reachable | left; exact H]|].
  split; [|reflexivity].
  exact (proj1 (highlightRegion_unmatched_has_no_effect demo_map S_highlighted
                  "nowhere" 3000 S_highlighted_reachable (or_introl H))).
Defined.

(** ** One record per region *)





(** ** Reverting *)

Lemma nth_error_set_nth_same {A : Type} (l : list A) i x y :
  nth_error l i = Some y -> nth_error (set_nth i x l) i = Some x.
Proof.
  revert i. induction l as [|a l IH]; intros [|i]; simpl; try discriminate;
    auto.
Qed.

Lemma nth_error_set_nth_other {A : Type} (l : list A) i j x :
  i <> j -> nth_error (set_nth i x l) j = nth_error l j.
Proof.
  revert i j. induction l as [|a l IH]; intros [|i] [|j] H; simpl; auto;
    try congruence.
Qed.

(** The first call of [animate] on a fresh tween. *)
Lemma animate_first i sc ec se ee mat st :
  nth_error (materials st) i = Some mat ->
  animate (mkTween i sc ec se ee 0) st
  = with_rafQueue (rafQueue st ++ [mkTween i sc ec se ee (1 # 50)])
      (with_materials
         (set_nth i (mkMaterial (isPhong mat) (lerpColors sc ec (1 # 50))
                       (lerpColors se ee (1 # 50))) (materials st)) st).
Proof.
  intros H. unfold animate. cbn [colorTween_t tween_material startColor
    endColor startEmissive endEmissive].
  change (Qred (0 + (2 # 100))) with (1 # 50)%Q.
  change (Qle_bool 1 (1 # 50)) with false. cbv iota.
  unfold paint. rewrite H. reflexivity.
Qed.

Lemma restore_mesh_step originals idx st mesh :
  snd (restore_mesh originals (idx, st) mesh) = st
  \/ exists i mat orig,
       nth_error (materials st) i = Some mat
       /\ snd (restore_mesh originals (idx, st) mesh)
          = animate (mkTween i (color mat) (color orig)
                       (emissive mat) (emissive orig) 0) st.
Proof.
  unfold restore_mesh, restore_one.
  repeat (break_match; simpl; auto); right; eauto.
Qed.

Lemma revert_begun_refl st : revert_begun st st.
Proof.
  exists []. rewrite app_nil_r.
  split; [reflexivity|]. split; [constructor|]. split; [|reflexivity].
  intros pre tw H. destruct pre; discriminate.
Qed.

Lemma revert_begun_step st0 st i mat sc ec se ee :
  revert_begun st0 st ->
  nth_error (materials st) i = Some mat ->
  revert_begun st0 (animate (mkTween i sc ec se ee 0) st).
Proof.
  intros [started [Hq [Ht [Hl Hm]]]] Hi.
  rewrite (animate_first _ _ _ _ _ _ _ Hi).
  exists (started ++ [mkTween i sc ec se ee (1 # 50)]).
  split; [|split; [|split]].
  - simpl. rewrite Hq, app_assoc. reflexivity.
  - apply Forall_app. split; auto.
  - intros pre tw E. apply app_inj_tail in E. destruct E as [_ <-].
    split; [reflexivity|]. simpl.
    eexists. split; [apply (nth_error_set_nth_same _ _ _ _ Hi)|].
    split; reflexivity.
  - intros E. destruct started; discriminate.
Qed.

Lemma revert_begun_fold originals ms st0 st idx :
  revert_begun st0 st ->
  revert_begun st0 (snd (fold_left (restore_mesh originals) ms (idx, st))).
Proof.
  revert st idx. induction ms as [|mesh ms IH]; intros st idx H; simpl; auto.
  destruct (restore_mesh originals (idx, st) mesh) as [idx' st'] eqn:E.
  apply IH.
  destruct (restore_mesh_step originals idx st mesh)
    as [H1|[i [mat [orig [Hi H1]]]]]; rewrite E in H1; simpl in H1;
    subst st'; auto.
  apply (revert_begun_step _ _ _ mat); auto.
Qed.

Lemma with_highlightedRegions_revert_begun st0 st hl :
  revert_begun st0 st -> revert_begun st0 (with_highlightedRegions hl st).
Proof. intros H. exact H. Qed.

Lemma restoreRegionMaterial_revert_begun name st :
  revert_begun st (restoreRegionMaterial name st).
Proof.
  unfold restoreRegionMaterial. break_match; [|apply revert_begun_refl].
  apply with_highlightedRegions_revert_begun, revert_begun_fold,
    revert_begun_refl.
Qed.


(** ** Snapshots and the meshes they belong to *)

Lemma clone_materials_top mats mesh i mat0 :
  top_material mesh = Some i -> nth_error mats i = Some mat0 ->
  nth_error (clone_materials mats mesh) 0 = Some mat0.
Proof.
  unfold top_material, clone_materials.
  destruct (material mesh) as [[|m ms]|m]; try discriminate;
    intros -> H; simpl; rewrite H; reflexivity.
Qed.











Lemma highlightedRegions_of_record_side st st' :
  record_side st' = record_side st ->
  highlightedRegions st' = highlightedRegions st.
Proof. unfold record_side. intros H. injection H as H _ _. exact H. Qed.

















(** ** A region with one mesh reverts *)

Lemma tween_time_next k :
  Qred (tween_time k + (2 # 100))%Q = tween_time (S k).
Proof.
  unfold tween_time. apply Qred_complete. rewrite Qred_correct.
  rewrite Nat2Z.inj_succ. unfold Z.succ. rewrite inject_Z_plus. ring.
Qed.

Lemma tween_time_done k : Qle_bool 1 (tween_time k) = true <-> 50 <= k.
Proof.
  unfold tween_time. rewrite Qle_bool_iff, Qred_correct.
  unfold Qle. simpl. lia.
Qed.

Lemma paint_same i c e mat st :
  nth_error (materials st) i = Some mat ->
  nth_error (materials (paint i c e st)) i = Some (mkMaterial (isPhong mat) c e).
Proof.
  intros H. unfold paint. rewrite H. simpl.
  apply (nth_error_set_nth_same _ _ _ _ H).
Qed.

Lemma animationFrame_lone_tween tw st :
  rafQueue st = [tw] ->
  animationFrame st = animate tw (with_rafQueue [] st).
Proof. intros H. unfold animationFrame. rewrite H. reflexivity. Qed.

Lemma lone_tween_converges n :
  forall k st tw mat,
    k + S n = 50 ->
    rafQueue st = [tw] ->
    colorTween_t tw = tween_time k ->
    nth_error (materials st) (tween_material tw) = Some mat ->
    exists mat',
      nth_error (materials (animationFrames (S n) st)) (tween_material tw)
      = Some mat'
      /\ color mat' = endColor tw /\ emissive mat' = endEmissive tw
      /\ isPhong mat' = isPhong mat
      /\ rafQueue (animationFrames (S n) st) = [].
Proof.
  induction n as [|n IH]; intros k st tw mat Hk Hq Ht Hm;
    cbn [animationFrames]; rewrite (animationFrame_lone_tween tw st Hq);
    unfold animate; rewrite Ht, tween_time_next.
  - assert (D : Qle_bool 1 (tween_time (S k)) = true)
      by (apply tween_time_done; lia).
    rewrite D. eexists. split; [apply paint_same; exact Hm|].
    repeat split. rewrite paint_rafQueue. reflexivity.
  - assert (D : Qle_bool 1 (tween_time (S k)) = false).
    { destruct (Qle_bool 1 (tween_time (S k))) eqn:E; auto.
      apply tween_time_done in E. lia. }
    rewrite D.
    set (st' := with_rafQueue _ _).
    set (tw' := mkTween (tween_material tw) (startColor tw) (endColor tw)
                  (startEmissive tw) (endEmissive tw) (tween_time (S k))).
    destruct (IH (S k) st' tw'
                (mkMaterial (isPhong mat)
                   (lerpColors (startColor tw) (endColor tw) (tween_time (S k)))
                   (lerpColors (startEmissive tw) (endEmissive tw)
                      (tween_time (S k)))))
      as [mat' H']; try reflexivity; try lia.
    + unfold st'. cbn [rafQueue with_rafQueue]. rewrite paint_rafQueue.
      reflexivity.
    + unfold st', tw'. cbn [materials with_rafQueue tween_material].
      apply (paint_same _ _ _ mat (with_rafQueue [] st)). exact Hm.
    + exists mat'. exact H'.
Qed.

Lemma animationFrames_record_side n st :
  record_side (animationFrames n st) = record_side st.
Proof.
  revert st. induction n as [|n IH]; intros st; simpl; auto.
  rewrite IH. apply animationFrame_record_side.
Qed.

Lemma animationFrames_highlightedRegions n st :
  highlightedRegions (animationFrames n st) = highlightedRegions st.
Proof.
  assert (H := animationFrames_record_side n st).
  unfold record_side in H. injection H as H _ _. exact H.
Qed.

Lemma find_new_timer tms n name d :
  (forall tm, In tm tms -> timer_id tm < n) ->
  find (fun tm => Nat.eqb (timer_id tm) n) (tms ++ [mkTimer n name d])
  = Some (mkTimer n name d).
Proof.
  induction tms as [|tm tms IH]; intros H; simpl.
  - rewrite Nat.eqb_refl. reflexivity.
  - destruct (Nat.eqb (timer_id tm) n) eqn:E.
    + apply Nat.eqb_eq in E. specialize (H tm (or_introl eq_refl)). lia.
    + apply IH. intros x Hx. apply H. right. exact Hx.
Qed.

Lemma applyHighlightMaterial_single mesh i mat0 st :
  top_material mesh = Some i -> nth_error (materials st) i = Some mat0 ->
  isPhong mat0 = true ->
  applyHighlightMaterial [mesh] st
  = paint i (setHex 0xFFD700) (setHex 0x444400) st.
Proof.
  unfold top_material, applyHighlightMaterial, highlight_one. simpl.
  destruct (material mesh) as [[|m ms]|m]; try discriminate;
    intros -> H P; rewrite H, P; reflexivity.
Qed.

Lemma restore_single originals mesh i mat orig st :
  top_material mesh = Some i ->
  nth_error (materials st) i = Some mat ->
  nth_error originals 0 = Some orig ->
  isPhong mat = true -> isPhong orig = true ->
  snd (fold_left (restore_mesh originals) [mesh] (0, st))
  = animate (mkTween i (color mat) (color orig) (emissive mat) (emissive orig) 0)
      st.
Proof.
  unfold top_material, restore_mesh, restore_one. simpl.
  destruct (material mesh) as [[|m ms]|m]; try discriminate;
    intros -> H O P1 P2; rewrite H, O, P1, P2; reflexivity.
Qed.

(** A region with a single marked mesh does revert: from a state with
    no tween pending and no record for the name, the highlight paints
    the top material gold, and once the timer has expired and 49 more
    animation frames have run the material is exactly what it was
    before the highlight, the record is gone and no tween is left. *)
Theorem single_mesh_region_reverts :
  forall (scene : Object3D) (st : MapManager) (name : string) (d : Z)
         (target : Object3D) (mesh : Mesh) (i : MatId) (mat0 : Material),
    reachable scene st ->
    rafQueue st = [] ->
    JSMap.get name (highlightedRegions st) = None ->
    findRegionByName scene name = Some target ->
    highlightable_meshes target = [mesh] ->
    top_material mesh = Some i ->
    nth_error (materials st) i = Some mat0 ->
    isPhong mat0 = true ->
    let st1 := snd (highlightRegion scene name d st) in
    let st2 := animationFrames 49 (timerFired (nextTimer st) st1) in
    fst (highlightRegion scene name d st) = true
    /\ nth_error (materials st1) i
       = Some (mkMaterial true (setHex 0xFFD700) (setHex 0x444400))
    /\ nth_error (materials st2) i = Some mat0
    /\ JSMap.get name (highlightedRegions st2) = None
    /\ rafQueue st2 = [].
Proof.
  intros scene st name d target mesh i mat0 Hr Hq Hg Hf Hm Ht Hi Hp st1 st2.
  assert (Hok := reachable_highlights_ok scene st Hr).
  assert (E0 : after_old_highlight name st = st)
    by (unfold after_old_highlight, JSMap.has; rewrite Hg; reflexivity).
  set (gold := mkMaterial true (setHex 0xFFD700) (setHex 0x444400)).
  set (n := nextTimer st).
  set (rec := mkHighlight [mesh]
                (flat_map (clone_materials (materials st)) [mesh]) n).
  assert (E1 : st1
               = with_highlightedRegions
                   (JSMap.set name rec (highlightedRegions st))
                   (with_timers (timers st ++ [mkTimer n name d]) (S n)
                      (with_materials (set_nth i gold (materials st)) st))).
  { unfold st1, highlightRegion. fold (after_old_highlight name st).
    rewrite E0, Hf, Hm. cbv zeta.
    rewrite (applyHighlightMaterial_single mesh i mat0 st Ht Hi Hp).
    unfold paint. rewrite Hi, Hp. reflexivity. }
  assert (M1 : nth_error (materials st1) i = Some gold)
    by (rewrite E1; simpl; apply (nth_error_set_nth_same _ _ _ _ Hi)).
  split.
  { assert (C := highlightRegion_cases scene name d st). cbv zeta in C.
    rewrite Hf, Hm in C. apply C. }
  split; [exact M1|].
  assert (F : find (fun tm => Nat.eqb (timer_id tm) n) (timers st1)
              = Some (mkTimer n name d)).
  { rewrite E1. simpl. apply find_new_timer.
    apply (ok_timer_bound _ _ _ _ Hok). }
  set (tw := mkTween i (setHex 0xFFD700) (color mat0) (setHex 0x444400)
               (emissive mat0) (1 # 50)).
  assert (E2 : exists s2,
             timerFired n st1 = s2 /\ rafQueue s2 = [tw]
             /\ (exists m, nth_error (materials s2) i = Some m
                           /\ isPhong m = true)
             /\ JSMap.get name (highlightedRegions s2) = None).
  { eexists. split; [reflexivity|].
    unfold timerFired. rewrite F. cbn [timer_region].
    unfold restoreRegionMaterial.
    assert (G : JSMap.get name (highlightedRegions (clearTimeout n st1))
                = Some rec)
      by (rewrite E1; simpl; apply JSMapFacts.get_set_same).
    rewrite G. cbn [meshes originalMaterials rec].
    rewrite (restore_single _ mesh i gold mat0); auto.
    - rewrite (animate_first _ _ _ _ _ gold); [|exact M1].
      cbn [rafQueue with_highlightedRegions with_rafQueue with_materials
             materials highlightedRegions].
      split; [rewrite E1; simpl; rewrite Hq; reflexivity|].
      split.
      + eexists. split; [apply (nth_error_set_nth_same _ _ _ _ M1)|].
        reflexivity.
      + apply JSMapFacts.get_delete_same.
    - simpl. rewrite app_nil_r.
      apply (clone_materials_top _ _ _ _ Ht Hi). }
  destruct E2 as [s2 [E2 [Q2 [[m2 [M2 P2]] G2]]]].
  unfold st2. fold n. rewrite E2.
  destruct (lone_tween_converges 48 1 s2 tw m2 eq_refl Q2 eq_refl M2)
    as [m3 [M3 [C3 [C4 [P3 Q3]]]]].
  split; [|split; [|exact Q3]].
  - cbn [tween_material tw] in M3. rewrite M3. f_equal.
    cbn [endColor endEmissive tw] in C3, C4. rewrite P2 in P3.
    destruct m3 as [p c e], mat0 as [p0 c0 e0].
    cbn [color emissive isPhong] in *. congruence.
  - rewrite animationFrames_highlightedRegions. exact G2.
Qed.

Lemma single_mesh_region_reverts_witness :
  let target := province "S" "120000" [polygon 4 5; outline] in
  let mesh := mkMesh true (MatArray [Some 4; Some 5]) in
  (reachable demo_map demo_start
   /\ rafQueue demo_start = []
   /\ JSMap.get "S" (highlightedRegions demo_start) = None
   /\ findRegionByName demo_map "S" = Some target
   /\ highlightable_meshes target = [mesh]
   /\ top_material mesh = Some 4
   /\ nth_error (materials demo_start) 4 = Some (phong teal)
   /\ isPhong (phong teal) = true)
  /\ nth_error
       (materials
          (animationFrames 49
             (timerFired (nextTimer demo_start)
                (snd (highlightRegion demo_map "S" 3000 demo_start)))))
       4
     = Some (phong teal).
Proof.
  intros target mesh.
  assert (Hr : reachable demo_map demo_start) by apply reachable_new.
  split; [repeat split; try reflexivity; exact Hr|].
  exact (proj1 (proj2 (proj2
           (single_mesh_region_reverts demo_map demo_start "S" 3000
              target mesh 4 (phong teal)
              Hr eq_refl eq_refl eq_refl eq_refl eq_refl eq_refl eq_refl)))).
Defined.

(** ** Materials no tween is aimed at *)

Lemma paint_other i j c e st :
  i <> j ->
  nth_error (materials (paint i c e st)) j = nth_error (materials st) j.
Proof.
  intros H. unfold paint. break_match; auto. simpl.
  apply nth_error_set_nth_other, H.
Qed.

Lemma animate_other tw j st :
  tween_material tw <> j ->
  aimed_elsewhere j (rafQueue st) ->
  nth_error (materials (animate tw st)) j = nth_error (materials st) j
  /\ aimed_elsewhere j (rafQueue (animate tw st)).
Proof.
  intros H Hq. unfold animate. break_match.
  - rewrite paint_rafQueue. split; auto. apply paint_other, H.
  - cbn [materials rafQueue with_rafQueue]. rewrite paint_rafQueue. split.
    + apply (paint_other _ _ _ _ st H).
    + apply Forall_app.
      split; [exact Hq | constructor; [exact H | constructor]].
Qed.

Lemma animate_all_other j q st :
  aimed_elsewhere j q ->
  aimed_elsewhere j (rafQueue st) ->
  nth_error (materials (fold_left (fun st tw => animate tw st) q st)) j
  = nth_error (materials st) j
  /\ aimed_elsewhere j
       (rafQueue (fold_left (fun st tw => animate tw st) q st)).
Proof.
  intros Hq. revert st. induction Hq as [|tw q Htw _ IH]; intros st Hst;
    simpl; auto.
  destruct (animate_other tw j st Htw Hst) as [H1 H2].
  destruct (IH (animate tw st) H2) as [H3 H4]. rewrite H3. auto.
Qed.

Lemma animationFrames_other j n st :
  aimed_elsewhere j (rafQueue st) ->
  nth_error (materials (animationFrames n st)) j = nth_error (materials st) j.
Proof.
  revert st. induction n as [|n IH]; intros st H; simpl; auto.
  assert (H0 : aimed_elsewhere j (rafQueue (with_rafQueue [] st)))
    by constructor.
  destruct (animate_all_other j (rafQueue st) (with_rafQueue [] st) H H0)
    as [H1 H2].
  unfold animationFrame. rewrite IH; auto.
Qed.

(** Claim C1, on a region the code gets wrong. Region R of the demo map
    has two marked meshes, each with a top and a side material. The
    highlight succeeds and snapshots grey for the second mesh's top.
    When the timer expires the record is discarded and the first mesh's
    top is back at its snapshot 49 frames later, with no tween left; the
    second mesh's top is paired with the snapshot of the first mesh's
    side material, which is not Phong, so no tween is started for it and
    it keeps the highlight colour after any number of frames. *)
Theorem second_mesh_keeps_highlight_colour :
  let st1 := snd (highlightRegion demo_map "R" 3000 demo_start) in
  let st2 := timerFired 0 st1 in
  fst (highlightRegion demo_map "R" 3000 demo_start) = true
  /\ option_map originalMaterials (JSMap.get "R" (highlightedRegions st1))
     = Some [phong blue; shader; phong grey; shader]
  /\ getHighlightedRegions st2 = []
  /\ option_map color (nth_error (materials (animationFrames 49 st2)) 0)
     = Some blue
  /\ rafQueue (animationFrames 49 st2) = []
  /\ (forall n,
        option_map color (nth_error (materials (animationFrames n st2)) 2)
        = Some (setHex 0xFFD700))
  /\ setHex 0xFFD700 <> grey.
Proof.
  intros st1 st2.
  split; [reflexivity|]. split; [reflexivity|]. split; [reflexivity|].
  split; [vm_compute; reflexivity|]. split; [vm_compute; reflexivity|].
  split; [|discriminate].
  intros n. rewrite animationFrames_other; [reflexivity|].
  unfold aimed_elsewhere. vm_compute rafQueue.
  repeat constructor. discriminate.
Qed.

(** ** Where a highlighted region stands among the others *)

Lemma after_old_highlight_keys name st :
  JSMap.keys (highlightedRegions (after_old_highlight name st))
  = filter (fun k => negb (String.eqb name k))
      (JSMap.keys (highlightedRegions st)).
Proof.
  unfold after_old_highlight, JSMap.has.
  assert (E := clearRegionHighlight_record_side name st).
  destruct (JSMap.get name (highlightedRegions st)) as [info|] eqn:G.
  - unfold record_side in E. injection E as E _ _. rewrite E.
    apply JSMapFacts.keys_delete.
  - rewrite <- JSMapFacts.keys_delete, (JSMapFacts.delete_absent _ _ G).
    reflexivity.
Qed.

(** A successful [highlightRegion] puts the name last among the
    highlighted regions and keeps the others in their order. *)
Theorem highlightRegion_puts_name_last :
  forall (scene : Object3D) (st st' : MapManager) (name : string) (d : Z),
    highlightRegion scene name d st = (true, st') ->
    getHighlightedRegions st'
    = filter (fun k => negb (String.eqb name k)) (getHighlightedRegions st)
      ++ [name].
Proof.
  intros scene st st' name d H.
  assert (C := highlightRegion_cases scene name d st). cbv zeta in C.
  destruct (findRegionByName scene name) as [target|];
    [|rewrite H in C; discriminate].
  destruct (highlightable_meshes target) as [|m l];
    [rewrite H in C; discriminate|].
  destruct C as [_ C]. rewrite H in C. cbn [snd] in C.
  unfold record_side in C. injection C as C _ _.
  unfold getHighlightedRegions. rewrite C.
  rewrite (JSMapFacts.set_absent _ _ _ (after_old_highlight_get name st)).
  unfold JSMap.keys at 1. rewrite map_app. cbn [map fst].
  fold (JSMap.keys (highlightedRegions (after_old_highlight name st))).
  rewrite after_old_highlight_keys. reflexivity.
Qed.

Lemma highlightRegion_puts_name_last_witness :
  highlightRegion demo_map "S" 5000 (snd (highlightRegion demo_map "R" 3000 S_highlighted))
  = (true, snd (highlightRegion demo_map "S" 5000
                  (snd (highlightRegion demo_map "R" 3000 S_highlighted))))
  /\ getHighlightedRegions (snd (highlightRegion demo_map "R" 3000 S_highlighted))
     = ["S"; "R"]
  /\ getHighlightedRegions
       (snd (highlightRegion demo_map "S" 5000
               (snd (highlightRegion demo_map "R" 3000 S_highlighted))))
     = ["R"; "S"].
Proof.
  assert (H : highlightRegion demo_map "S" 5000
                (snd (highlightRegion demo_map "R" 3000 S_highlighted))
              = (true, snd (highlightRegion demo_map "S" 5000
                  (snd (highlightRegion demo_map "R" 3000 S_highlighted)))))
    by reflexivity.
  split; [exact H|]. split; [reflexivity|].
  rewrite (highlightRegion_puts_name_last _ _ _ _ _ H). reflexivity.
Defined.

(** ** Clearing every highlight *)

Lemma clearRegionHighlight_highlightedRegions name st :
  highlightedRegions (snd (clearRegionHighlight name st))
  = JSMap.delete name (highlightedRegions st).
Proof.
  assert (E := clearRegionHighlight_record_side name st).
  destruct (JSMap.get name (highlightedRegions st)) as [info|] eqn:G.
  - unfold record_side in E. injection E as E _ _. exact E.
  - rewrite (highlightedRegions_of_record_side _ _ E).
    symmetry. apply JSMapFacts.delete_absent, G.
Qed.

Lemma clear_each_highlightedRegions names st :
  highlightedRegions
    (fold_left (fun st regionName => snd (clearRegionHighlight regionName st))
       names st)
  = fold_left (fun m k => JSMap.delete k m) names (highlightedRegions st).
Proof.
  revert st. induction names as [|n names IH]; intros st; simpl; auto.
  rewrite IH, clearRegionHighlight_highlightedRegions. reflexivity.
Qed.

Lemma delete_all_keys {V : Type} (m : JSMap.t V) :
  fold_left (fun m k => JSMap.delete k m) (JSMap.keys m) m = [].
Proof.
  destruct (fold_left (fun m k => JSMap.delete k m) (JSMap.keys m) m)
    as [|[k v] rest] eqn:E; auto.
  exfalso.
  assert (G : JSMap.get k (fold_left (fun m k => JSMap.delete k m)
                             (JSMap.keys m) m) <> None)
    by (rewrite E; simpl; rewrite String.eqb_refl; discriminate).
  destruct (get_fold_delete k (JSMap.keys m) m) as [H1 H2].
  destruct (in_dec string_dec k (JSMap.keys m)) as [Hin|Hnin].
  - apply G, H1, Hin.
  - apply G. rewrite (H2 Hnin). apply JSMapFacts.get_none_keys, Hnin.
Qed.

Lemma clearAllHighlights_empties scene st :
  highlights_ok scene st ->
  highlightedRegions (clearAllHighlights st) = []
  /\ timers (clearAllHighlights st) = [].
Proof.
  intros H. assert (Hok := clearAllHighlights_ok scene st H).
  assert (E : highlightedRegions (clearAllHighlights st) = []).
  { unfold clearAllHighlights. rewrite clear_each_highlightedRegions.
    apply delete_all_keys. }
  split; [exact E|].
  destruct (timers (clearAllHighlights st)) as [|tm tms] eqn:T; auto.
  exfalso.
  destruct (ok_timer_record _ _ _ _ Hok tm) as [info [G _]].
  - rewrite T. left. reflexivity.
  - rewrite E in G. discriminate.
Qed.

(** In every state the manager can be in, [clearAllHighlights] leaves no
    highlight record and no pending revert timer. *)
Theorem clearAllHighlights_leaves_nothing :
  forall (scene : Object3D) (st : MapManager),
    reachable scene st ->
    getHighlightedRegions (clearAllHighlights st) = []
    /\ timers (clearAllHighlights st) = [].
Proof.
  intros scene st Hr.
  destruct (clearAllHighlights_empties scene st
              (reachable_highlights_ok scene st Hr)) as [E T].
  split; [|exact T].
  unfold getHighlightedRegions. rewrite E. reflexivity.
Qed.

Lemma clearAllHighlights_leaves_nothing_witness :
  reachable demo_map (snd (highlightRegion demo_map "R" 3000 S_highlighted))
  /\ getHighlightedRegions (snd (highlightRegion demo_map "R" 3000 S_highlighted))
     = ["S"; "R"]
  /\ getHighlightedRegions
       (clearAllHighlights (snd (highlightRegion demo_map "R" 3000 S_highlighted)))
     = []
  /\ timers
       (clearAllHighlights (snd (highlightRegion demo_map "R" 3000 S_highlighted)))
     = [].
Proof.
  assert (Hr : reachable demo_map
                 (snd (highlightRegion demo_map "R" 3000 S_highlighted)))
    by (apply (reachable_step demo_map (HighlightRegion "R" 3000)),
          S_highlighted_reachable).
  split; [exact Hr|]. split; [reflexivity|].
  exact (clearAllHighlights_leaves_nothing demo_map _ Hr).
Defined.

(** ** The node the region search returns *)

Lemma field_is_true field name :
  field_is field name = true <-> field = Some name.
Proof.
  unfold field_is. destruct field as [s|]; [|split; discriminate].
  rewrite String.eqb_eq. split; congruence.
Qed.

Lemma properties_match_true properties name :
  properties_match properties name = true <->
  p_name properties = Some name \/ p_NAME properties = Some name
  \/ p_adcode properties = Some name \/ p_code properties = Some name.
Proof.
  unfold properties_match. rewrite !orb_true_iff, !field_is_true. tauto.
Qed.

Lemma last_match_some name l acc target :
  fold_left
    (fun targetRegion child =>
       match customProperties child with
       | Some properties =>
           if properties_match properties name
           then Some child else targetRegion
       | None => targetRegion
       end) l acc = Some target ->
  (acc = Some target /\ forall c, In c l -> ~ node_matches name c)
  \/ exists before after,
       l = before ++ target :: after
       /\ node_matches name target
       /\ forall c, In c after -> ~ node_matches name c.
Proof.
  revert acc. induction l as [|x l IH]; intros acc H; simpl in H.
  - left. split; [exact H | intros c []].
  - destruct (IH _ H) as [[Hacc Hl]|[before [after [E [Hm Ha]]]]].
    + destruct (customProperties x) as [p|] eqn:P.
      * destruct (properties_match p name) eqn:M.
        -- inversion Hacc; subst x. right. exists [], l.
           split; [reflexivity|]. split; [|exact Hl].
           exists p. split; [exact P|]. apply properties_match_true, M.
        -- left. split; [exact Hacc|]. intros c [<-|Hc]; [|exact (Hl c Hc)].
           intros [q [Q Hq]]. rewrite P in Q. inversion Q; subst q.
           apply properties_match_true in Hq. congruence.
      * left. split; [exact Hacc|]. intros c [<-|Hc]; [|exact (Hl c Hc)].
        intros [q [Q _]]. congruence.
    + right. exists (x :: before), after. split; [rewrite E; reflexivity|].
      auto.
Qed.

(** [findRegionByName] answers with a node of the map that carries the
    name in one of the fields [name], [NAME], [adcode], [code]; when
    several nodes do, it is the last one the traversal meets. *)
Theorem findRegionByName_last_match :
  forall (scene target : Object3D) (name : string),
    findRegionByName scene name = Some target ->
    exists before after,
      traverse scene = before ++ target :: after
      /\ node_matches name target
      /\ forall c, In c after -> ~ node_matches name c.
Proof.
  intros scene target name H. unfold findRegionByName in H.
  destruct (last_match_some _ _ _ _ H) as [[C _]|R]; [discriminate | exact R].
Qed.

Lemma findRegionByName_last_match_witness :
  findRegionByName demo_map "120000"
  = Some (province "S" "120000" [polygon 4 5; outline])
  /\ exists before after,
       traverse demo_map
       = before ++ province "S" "120000" [polygon 4 5; outline] :: after
       /\ node_matches "120000" (province "S" "120000" [polygon 4 5; outline])
       /\ forall c, In c after -> ~ node_matches "120000" c.
Proof.
  assert (H : findRegionByName demo_map "120000"
              = Some (province "S" "120000" [polygon 4 5; outline]))
    by reflexivity.
  split; [exact H|].
  exact (findRegionByName_last_match demo_map _ "120000" H).
Defined.

(** ** What a highlight paints *)

Lemma highlighted_idem mat : highlighted (highlighted mat) = highlighted mat.
Proof. reflexivity. Qed.

Lemma nth_error_set_nth {A : Type} (l : list A) i j x y :
  nth_error l i = Some y ->
  nth_error (set_nth i x l) j
  = if Nat.eqb i j then Some x else nth_error l j.
Proof.
  intros H. destruct (Nat.eqb i j) eqn:E.
  - apply Nat.eqb_eq in E. subst j. apply (nth_error_set_nth_same _ _ _ _ H).
  - apply Nat.eqb_neq in E. apply nth_error_set_nth_other, E.
Qed.

Lemma highlight_one_materials m j st :
  nth_error (materials (highlight_one m st)) j
  = option_map
      (fun mat => if isPhong mat
                     && match m with Some i => Nat.eqb i j | None => false end
                  then highlighted mat else mat)
      (nth_error (materials st) j).
Proof.
  unfold highlight_one. destruct m as [i|].
  - destruct (nth_error (materials st) i) as [mi|] eqn:Hi.
    + destruct (isPhong mi) eqn:P.
      * unfold paint. rewrite Hi. cbn [materials with_materials].
        rewrite (nth_error_set_nth _ _ j _ _ Hi).
        destruct (Nat.eqb i j) eqn:E.
        -- apply Nat.eqb_eq in E. subst j. rewrite Hi. simpl.
           unfold highlighted. rewrite P. reflexivity.
        -- destruct (nth_error (materials st) j); simpl; auto.
           rewrite andb_false_r. reflexivity.
      * destruct (Nat.eqb i j) eqn:E.
        -- apply Nat.eqb_eq in E. subst j. rewrite Hi. simpl.
           rewrite P. reflexivity.
        -- destruct (nth_error (materials st) j); simpl; auto.
           rewrite andb_false_r. reflexivity.
    + destruct (Nat.eqb i j) eqn:E.
      * apply Nat.eqb_eq in E. subst j. rewrite Hi. reflexivity.
      * destruct (nth_error (materials st) j); simpl; auto.
        rewrite andb_false_r. reflexivity.
  - destruct (nth_error (materials st) j); simpl; auto.
    rewrite andb_false_r. reflexivity.
Qed.

Lemma applyHighlightMaterial_materials ms j st :
  nth_error (materials (applyHighlightMaterial ms st)) j
  = option_map (after_highlight ms j) (nth_error (materials st) j).
Proof.
  unfold applyHighlightMaterial. revert st.
  induction ms as [|mesh ms IH]; intros st; cbn [fold_left].
  - unfold after_highlight. destruct (nth_error (materials st) j); simpl; auto.
    rewrite andb_false_r. reflexivity.
  - rewrite IH.
    assert (H : forall s,
      nth_error (materials
        match material mesh with
        | MatArray [] => s
        | MatArray (m :: _) => highlight_one m s
        | MatSingle m => highlight_one m s
        end) j
      = option_map
          (fun mat => if isPhong mat && has_top j mesh
                      then highlighted mat else mat)
          (nth_error (materials s) j)).
    { intros s. unfold has_top, top_material.
      destruct (material mesh) as [[|m l]|m];
        rewrite ?highlight_one_materials; try reflexivity.
      destruct (nth_error (materials s) j); simpl; auto.
      rewrite andb_false_r. reflexivity. }
    rewrite H. destruct (nth_error (materials st) j) as [mat|]; simpl; auto.
    f_equal. unfold after_highlight. cbn [existsb].
    destruct (isPhong mat) eqn:P; simpl.
    + destruct (has_top j mesh); simpl; rewrite ?P; simpl.
      * destruct (existsb (has_top j) ms); reflexivity.
      * reflexivity.
    + rewrite P. reflexivity.
Qed.

Lemma highlightRegion_materials scene name d st target :
  findRegionByName scene name = Some target ->
  materials (snd (highlightRegion scene name d st))
  = materials (applyHighlightMaterial (highlightable_meshes target)
                 (after_old_highlight name st)).
Proof.
  intros F. unfold highlightRegion. fold (after_old_highlight name st).
  rewrite F. destruct (highlightable_meshes target) as [|m l]; reflexivity.
Qed.

(** A successful highlight of a region that had no record repaints the
    Phong top materials of the region's marked meshes in the highlight
    colours and leaves every other material of the map as it was: side
    materials, materials that are not Phong and the materials of other
    regions are not touched. *)
Theorem highlightRegion_paints_only_tops :
  forall (scene target : Object3D) (st st' : MapManager) (name : string)
         (d : Z) (j : MatId),
    JSMap.get name (highlightedRegions st) = None ->
    findRegionByName scene name = Some target ->
    highlightRegion scene name d st = (true, st') ->
    nth_error (materials st') j
    = option_map (after_highlight (highlightable_meshes target) j)
        (nth_error (materials st) j).
Proof.
  intros scene target st st' name d j G F H.
  assert (E : after_old_highlight name st = st)
    by (unfold after_old_highlight, JSMap.has; rewrite G; reflexivity).
  change st' with (snd (true, st')). rewrite <- H.
  rewrite (highlightRegion_materials scene name d st target F), E.
  apply applyHighlightMaterial_materials.
Qed.

Lemma highlightRegion_paints_only_tops_witness :
  (JSMap.get "R" (highlightedRegions S_highlighted) = None
   /\ findRegionByName demo_map "R"
      = Some (province "R" "110000" [polygon 0 1; outline; polygon 2 3; outline])
   /\ highlightRegion demo_map "R" 3000 S_highlighted
      = (true, snd (highlightRegion demo_map "R" 3000 S_highlighted)))
  /\ nth_error (materials (snd (highlightRegion demo_map "R" 3000 S_highlighted))) 2
     = Some (highlighted (phong grey))
  /\ nth_error (materials (snd (highlightRegion demo_map "R" 3000 S_highlighted))) 3
     = Some shader.
Proof.
  assert (G : JSMap.get "R" (highlightedRegions S_highlighted) = None)
    by reflexivity.
  assert (F : findRegionByName demo_map "R"
      = Some (province "R" "110000" [polygon 0 1; outline; polygon 2 3; outline]))
    by reflexivity.
  assert (H : highlightRegion demo_map "R" 3000 S_highlighted
      = (true, snd (highlightRegion demo_map "R" 3000 S_highlighted)))
    by reflexivity.
  split; [repeat split; assumption|].
  split.
  - rewrite (highlightRegion_paints_only_tops _ _ _ _ _ _ 2 G F H). reflexivity.
  - rewrite (highlightRegion_paints_only_tops _ _ _ _ _ _ 3 G F H). reflexivity.
Defined.

(** ** Tweens end *)

Lemma animate_rafQueue tw st :
  rafQueue (animate tw st) = rafQueue st ++ next_frame tw.
Proof.
  unfold animate, next_frame.
  destruct (Qle_bool 1 (Qred (colorTween_t tw + (2 # 100)))).
  - rewrite paint_rafQueue, app_nil_r. reflexivity.
  - cbn [rafQueue with_rafQueue]. rewrite paint_rafQueue. reflexivity.
Qed.

Lemma animate_all_rafQueue q st :
  rafQueue (fold_left (fun st tw => animate tw st) q st)
  = rafQueue st ++ flat_map next_frame q.
Proof.
  revert st. induction q as [|tw q IH]; intros st; cbn [fold_left flat_map].
  - rewrite app_nil_r. reflexivity.
  - rewrite IH, animate_rafQueue, app_assoc. reflexivity.
Qed.

Lemma animationFrame_rafQueue st :
  rafQueue (animationFrame st) = flat_map next_frame (rafQueue st).
Proof. unfold animationFrame. rewrite animate_all_rafQueue. reflexivity. Qed.

Lemma next_frame_steps tw k :
  colorTween_t tw = tween_time k ->
  Forall (fun tw' => colorTween_t tw' = tween_time (S k) /\ S k <= 49)
         (next_frame tw).
Proof.
  intros H. unfold next_frame. rewrite H, tween_time_next.
  destruct (Qle_bool 1 (tween_time (S k))) eqn:D; constructor; [|constructor].
  split; [reflexivity|].
  destruct (le_lt_dec 50 (S k)) as [L|L]; [|lia].
  apply tween_time_done in L. congruence.
Qed.

(** Tweens that have all made at least [50 - n] steps are gone after [n]
    frames. *)
Lemma frames_drain n st :
  Forall (fun tw => exists k, 50 - n <= k <= 49 /\ colorTween_t tw = tween_time k)
         (rafQueue st) ->
  rafQueue (animationFrames n st) = [].
Proof.
  revert st. induction n as [|n IH]; intros st H; cbn [animationFrames].
  - destruct (rafQueue st) as [|tw q]; auto.
    inversion H as [|? ? [k [Hk _]] _]. lia.
  - apply IH. rewrite animationFrame_rafQueue.
    induction H as [|tw q [k [Hk Ht]] _ IHq]; cbn [flat_map]; [constructor|].
    apply Forall_app. split; [|exact IHq].
    eapply Forall_impl; [|apply (next_frame_steps tw k Ht)].
    intros tw' [Ht' Hle]. exists (S k). split; [lia | exact Ht'].
Qed.

Lemma tween_time_1 : tween_time 1 = (1 # 50)%Q.
Proof. reflexivity. Qed.

Lemma under_way_extend st st' started :
  rafQueue st' = rafQueue st ++ started ->
  Forall (fun tw => colorTween_t tw = (1 # 50)%Q) started ->
  tweens_under_way st -> tweens_under_way st'.
Proof.
  unfold tweens_under_way. intros -> Hs H. apply Forall_app. split; auto.
  eapply Forall_impl; [|exact Hs].
  intros tw Ht. exists 1. split; [lia | exact Ht].
Qed.

Lemma under_way_same st st' :
  rafQueue st' = rafQueue st -> tweens_under_way st -> tweens_under_way st'.
Proof. unfold tweens_under_way. intros ->. auto. Qed.

Lemma restoreRegionMaterial_under_way name st :
  tweens_under_way st -> tweens_under_way (restoreRegionMaterial name st).
Proof.
  destruct (restoreRegionMaterial_revert_begun name st)
    as [started [Hq [Ht _]]].
  apply (under_way_extend _ _ started Hq Ht).
Qed.

Lemma clearRegionHighlight_under_way name st :
  tweens_under_way st -> tweens_under_way (snd (clearRegionHighlight name st)).
Proof.
  intros H. unfold clearRegionHighlight. break_match; auto. cbn [snd].
  apply restoreRegionMaterial_under_way. exact H.
Qed.

Lemma clearAllHighlights_under_way st :
  tweens_under_way st -> tweens_under_way (clearAllHighlights st).
Proof.
  unfold clearAllHighlights.
  generalize (JSMap.keys (highlightedRegions st)) as names. intros names.
  revert st. induction names as [|n names IH]; intros st H; simpl; auto.
  apply IH, clearRegionHighlight_under_way, H.
Qed.

Lemma highlightRegion_under_way scene name d st :
  tweens_under_way st ->
  tweens_under_way (snd (highlightRegion scene name d st)).
Proof.
  intros H.
  assert (H1 : tweens_under_way (after_old_highlight name st)).
  { unfold after_old_highlight. break_match; auto.
    apply clearRegionHighlight_under_way, H. }
  unfold highlightRegion. fold (after_old_highlight name st).
  destruct (findRegionByName scene name) as [target|]; [|exact H1].
  destruct (highlightable_meshes target) as [|m l]; [exact H1|].
  cbv zeta. cbn [snd]. eapply under_way_same; [|exact H1].
  cbn [rafQueue with_highlightedRegions with_timers].
  apply applyHighlightMaterial_rafQueue.
Qed.

Lemma timerFired_under_way tid st :
  tweens_under_way st -> tweens_under_way (timerFired tid st).
Proof.
  intros H. unfold timerFired. break_match; auto.
  apply restoreRegionMaterial_under_way. exact H.
Qed.

Lemma animationFrame_under_way st :
  tweens_under_way st -> tweens_under_way (animationFrame st).
Proof.
  unfold tweens_under_way. rewrite animationFrame_rafQueue.
  induction 1 as [|tw q [k [Hk Ht]] _ IH]; cbn [flat_map]; [constructor|].
  apply Forall_app. split; [|exact IH].
  eapply Forall_impl; [|apply (next_frame_steps tw k Ht)].
  intros tw' [Ht' Hle]. exists (S k). split; [lia | exact Ht'].
Qed.

Lemma rafQueue_of_highlight_side st st' :
  highlight_side st' = highlight_side st -> rafQueue st' = rafQueue st.
Proof.
  unfold highlight_side. intros H. injection H as _ _ _ _ H. exact H.
Qed.

Lemma reachable_under_way scene st :
  reachable scene st -> tweens_under_way st.
Proof.
  induction 1 as [mats|ev st Hr IH].
  - constructor.
  - destruct ev; simpl.
    + eapply under_way_same; [|exact IH].
      apply rafQueue_of_highlight_side, addElements_highlight_side.
    + eapply under_way_same; [|exact IH].
      apply rafQueue_of_highlight_side, removeElements_highlight_side.
    + eapply under_way_same; [|exact IH].
      apply rafQueue_of_highlight_side, removeElements_highlight_side.
    + exact IH.
    + apply highlightRegion_under_way, IH.
    + apply clearRegionHighlight_under_way, IH.
    + apply clearAllHighlights_under_way, IH.
    + unfold dispose. apply clearAllHighlights_under_way.
      eapply under_way_same; [|exact IH].
      cbn [rafQueue with_flySpots with_animatedSpots with_modelMixers].
      apply rafQueue_of_highlight_side.
      apply (removeElements_highlight_side _ st).
    + eapply under_way_same; [|exact IH].
      apply rafQueue_of_highlight_side, loadSettled_highlight_side.
    + apply timerFired_under_way, IH.
    + apply animationFrame_under_way, IH.
Qed.

(** Every revert ends: from any state the manager can be in, 49 animation
    frames without another event leave no colour tween waiting. *)
Theorem tweens_end_within_49_frames :
  forall (scene : Object3D) (st : MapManager),
    reachable scene st ->
    rafQueue (animationFrames 49 st) = [].
Proof.
  intros scene st Hr. apply frames_drain.
  eapply Forall_impl; [|exact (reachable_under_way scene st Hr)].
  intros tw [k [Hk Ht]]. exists k. split; [lia | exact Ht].
Qed.

Lemma tweens_end_within_49_frames_witness :
  reachable demo_map (snd (clearRegionHighlight "S" S_highlighted))
  /\ List.length (rafQueue (snd (clearRegionHighlight "S" S_highlighted))) = 1
  /\ rafQueue (animationFrames 49 (snd (clearRegionHighlight "S" S_highlighted)))
     = [].
Proof.
  assert (Hr : reachable demo_map (snd (clearRegionHighlight "S" S_highlighted)))
    by (apply (reachable_step demo_map (ClearRegionHighlight "S")),
          S_highlighted_reachable).
  split; [exact Hr|]. split; [reflexivity|].
  exact (tweens_end_within_49_frames demo_map _ Hr).
Defined.

(** ** Elements and the scene objects they own *)

Lemma container_in_children ty st o :
  In o (container_of ty st) -> In o (all_children st).
Proof.
  unfold all_children. destruct ty; simpl; intros H;
    repeat (rewrite in_app_iff); auto.
Qed.

Lemma live_objects_in m k e o :
  In (k, e) m -> object3D e = Some o -> In o (live_objects m).
Proof.
  intros Hin Ho. unfold live_objects. apply in_flat_map.
  exists (k, e). split; auto. simpl. rewrite Ho. left. reflexivity.
Qed.

Lemma live_objects_inv m o :
  In o (live_objects m) -> exists k e, In (k, e) m /\ object3D e = Some o.
Proof.
  unfold live_objects. rewrite in_flat_map. intros [[k e] [Hin Ho]].
  exists k, e. split; auto. simpl in Ho.
  destruct (object3D e); [|contradiction].
  destruct Ho as [->|[]]. reflexivity.
Qed.

Lemma live_objects_set m k o d e x :
  In x (live_objects (JSMap.set k (set_object3D o d e) m)) ->
  x = o \/ In x (live_objects m).
Proof.
  intros H. apply live_objects_inv in H. destruct H as [k' [e' [Hin Ho]]].
  apply JSMapFacts.in_set in Hin. destruct Hin as [E|Hin].
  - inversion E; subst. simpl in Ho. left. congruence.
  - right. apply (live_objects_in _ _ _ _ Hin Ho).
Qed.

Lemma live_objects_set_nodup m k o d e :
  NoDup (live_objects m) -> ~ In o (live_objects m) ->
  NoDup (live_objects (JSMap.set k (set_object3D o d e) m)).
Proof.
  induction m as [|[k' e'] m IH]; intros Hnd Hnin; cbn [JSMap.set].
  - simpl. constructor; [intros [] | constructor].
  - destruct (String.eqb k k').
    + unfold live_objects in *. cbn [flat_map snd set_object3D object3D] in *.
      apply NoDup_app_remove_l in Hnd as Hm.
      cbn [app]. constructor; auto.
      intros Hin. apply Hnin. apply in_or_app. right. exact Hin.
    + unfold live_objects in *. cbn [flat_map snd] in *.
      fold (live_objects m) in *.
      fold (live_objects (JSMap.set k (set_object3D o d e) m)).
      destruct (object3D e') as [o'|]; cbn [app] in *.
      * inversion Hnd as [|? ? Ho' Hm]; subst. constructor.
        -- intros Hin. apply live_objects_set in Hin.
           destruct Hin as [->|Hin]; [apply Hnin; left; reflexivity | auto].
        -- apply IH; auto. intros Hin. apply Hnin. right. exact Hin.
      * apply IH; auto.
Qed.

Lemma live_objects_delete m k x :
  In x (live_objects (JSMap.delete k m)) -> In x (live_objects m).
Proof.
  intros H. apply live_objects_inv in H. destruct H as [k' [e' [Hin Ho]]].
  apply JSMapFacts.in_delete in Hin. apply (live_objects_in _ _ _ _ (proj1 Hin) Ho).
Qed.

Lemma live_objects_delete_nodup m k :
  NoDup (live_objects m) -> NoDup (live_objects (JSMap.delete k m)).
Proof.
  induction m as [|[k' e'] m IH]; intros Hnd; simpl; auto.
  unfold live_objects in Hnd. cbn [flat_map snd] in Hnd.
  fold (live_objects m) in Hnd.
  assert (Hm : NoDup (live_objects m)) by (apply NoDup_app_remove_l in Hnd; auto).
  destruct (String.eqb k k'); simpl; auto.
  unfold live_objects. cbn [flat_map snd].
  fold (live_objects (JSMap.delete k m)).
  destruct (object3D e') as [o'|]; cbn [app] in *; auto.
  inversion Hnd as [|? ? Ho' _]; subst. constructor; auto.
  intros Hin. apply Ho', (live_objects_delete _ _ _ Hin).
Qed.

(** Two live elements with different ids own different objects. *)
Lemma live_objects_distinct m k e o k' e' o' :
  NoDup (live_objects m) ->
  In (k, e) m -> In (k', e') m -> k <> k' ->
  object3D e = Some o -> object3D e' = Some o' -> o <> o'.
Proof.
  induction m as [|[k0 e0] m IH]; intros Hnd H1 H2 Hne Ho Ho';
    [contradiction|].
  unfold live_objects in Hnd. cbn [flat_map snd] in Hnd.
  fold (live_objects m) in Hnd.
  assert (Hm : NoDup (live_objects m)) by (apply NoDup_app_remove_l in Hnd; auto).
  destruct H1 as [E1|H1], H2 as [E2|H2].
  - congruence.
  - inversion E1; subst. rewrite Ho in Hnd. inversion Hnd as [|? ? Hn _]; subst.
    intros <-. apply Hn, (live_objects_in _ _ _ _ H2 Ho').
  - inversion E2; subst. rewrite Ho' in Hnd. inversion Hnd as [|? ? Hn _]; subst.
    intros ->. apply Hn, (live_objects_in _ _ _ _ H1 Ho).
  - apply (IH Hm H1 H2 Hne Ho Ho').
Qed.

Section RemoveBy.
Variable A : Type.
Variable key : A -> ObjId.

Lemma remove_by_in r x l : In x (remove_by key r l) -> In x l.
Proof.
  induction l as [|c l IH]; simpl; auto.
  destruct (Nat.eqb (key c) r); simpl; intros H; auto.
  destruct H; auto.
Qed.

Lemma remove_by_keys r l x :
  In x (map key (remove_by key r l)) -> In x (map key l).
Proof.
  rewrite !in_map_iff. intros [y [E H]]. exists y. split; auto.
  apply (remove_by_in _ _ _ H).
Qed.

Lemma remove_by_other r x l :
  key x <> r -> In x l -> In x (remove_by key r l).
Proof.
  intros Hne. induction l as [|c l IH]; simpl; auto.
  destruct (Nat.eqb (key c) r) eqn:E; intros [->|H]; simpl; auto.
  apply Nat.eqb_eq in E. congruence.
Qed.

Lemma remove_by_nodup r l :
  NoDup (map key l) -> NoDup (map key (remove_by key r l)).
Proof.
  induction l as [|c l IH]; simpl; intros H; auto.
  inversion H as [|? ? Hc Hl]; subst.
  destruct (Nat.eqb (key c) r); auto. simpl. constructor; auto.
  intros Hin. apply Hc, (remove_by_keys _ _ _ Hin).
Qed.

Lemma remove_by_gone r l :
  NoDup (map key l) -> ~ In r (map key (remove_by key r l)).
Proof.
  induction l as [|c l IH]; simpl; intros H; auto.
  inversion H as [|? ? Hc Hl]; subst.
  destruct (Nat.eqb (key c) r) eqn:E.
  - apply Nat.eqb_eq in E. subst. exact Hc.
  - apply Nat.eqb_neq in E. simpl. intros [Hx|Hx]; auto. apply (IH Hl Hx).
Qed.

End RemoveBy.

Lemma remove_child_by o cs : remove_child o cs = remove_by (fun c => c) o cs.
Proof. induction cs as [|c cs IH]; simpl; [|rewrite IH]; reflexivity. Qed.

Lemma remove_ring_by r l : remove_ring r l = remove_by ring_obj r l.
Proof. induction l as [|c l IH]; simpl; [|rewrite IH]; reflexivity. Qed.

Lemma remove_flySpot_by r l : remove_flySpot r l = remove_by fly_obj r l.
Proof. induction l as [|c l IH]; simpl; [|rewrite IH]; reflexivity. Qed.

Lemma remove_mixer_by r l : remove_mixer r l = remove_by getRoot r l.
Proof. induction l as [|c l IH]; simpl; [|rewrite IH]; reflexivity. Qed.

Lemma remove_child_in o x cs : In x (remove_child o cs) -> In x cs.
Proof. rewrite remove_child_by. apply remove_by_in. Qed.

Lemma remove_child_other o x cs : x <> o -> In x cs -> In x (remove_child o cs).
Proof. rewrite remove_child_by. apply (remove_by_other _ (fun c => c)). Qed.

Lemma remove_child_nodup o cs : NoDup cs -> NoDup (remove_child o cs).
Proof.
  intros H. rewrite remove_child_by.
  rewrite <- (map_id (remove_by _ o cs)). apply remove_by_nodup.
  rewrite map_id. exact H.
Qed.

Lemma remove_child_gone o cs : NoDup cs -> ~ In o (remove_child o cs).
Proof.
  intros H. rewrite remove_child_by.
  rewrite <- (map_id (remove_by _ o cs)). apply remove_by_gone.
  rewrite map_id. exact H.
Qed.

Ltac shrunk_container :=
  let ty := fresh "ty" in
  let x := fresh "x" in
  let Hne := fresh "Hne" in
  let Hx := fresh "Hx" in
  intros ty x Hne Hx; destruct ty; simpl in *; auto;
  apply remove_child_other; assumption.


(** ** Containers, animation lists and live elements hang together *)

Lemma remove_child_app_l o a b :
  In o a -> remove_child o (a ++ b) = remove_child o a ++ b.
Proof.
  induction a as [|c a IH]; simpl; [contradiction|].
  destruct (Nat.eqb c o) eqn:E; auto.
  intros [->|H]; [rewrite Nat.eqb_refl in E; discriminate|].
  rewrite (IH H). reflexivity.
Qed.

Lemma remove_child_app_r o a b :
  ~ In o a -> remove_child o (a ++ b) = a ++ remove_child o b.
Proof.
  induction a as [|c a IH]; simpl; auto.
  intros H. destruct (Nat.eqb c o) eqn:E.
  - apply Nat.eqb_eq in E. exfalso. apply H. left. exact E.
  - rewrite IH; auto.
Qed.

Lemma NoDup_app_not_in (a b : list ObjId) o :
  NoDup (a ++ b) -> In o b -> ~ In o a.
Proof.
  induction a as [|c a IH]; simpl; auto.
  intros H Hb [->|Ha].
  - inversion H as [|? ? Hn _]; subst. apply Hn, in_or_app. right. exact Hb.
  - inversion H; subst. apply IH; auto.
Qed.

(** Taking an object out of its container takes it out of the children
    of [elementsContainer], whichever container it was in. *)
Lemma all_children_remove st o l1 l2 l3 l4 :
  NoDup (all_children st) ->
  (In o (labelsContainer st) /\ l1 = remove_child o (labelsContainer st)
   /\ l2 = spotsContainer st /\ l3 = modelsContainer st
   /\ l4 = linesContainer st)
  \/ (In o (spotsContainer st) /\ l1 = labelsContainer st
      /\ l2 = remove_child o (spotsContainer st) /\ l3 = modelsContainer st
      /\ l4 = linesContainer st)
  \/ (In o (modelsContainer st) /\ l1 = labelsContainer st
      /\ l2 = spotsContainer st /\ l3 = remove_child o (modelsContainer st)
      /\ l4 = linesContainer st)
  \/ (In o (linesContainer st) /\ l1 = labelsContainer st
      /\ l2 = spotsContainer st /\ l3 = modelsContainer st
      /\ l4 = remove_child o (linesContainer st)) ->
  l1 ++ l2 ++ l3 ++ l4 = remove_child o (all_children st).
Proof.
  unfold all_children. intros Hnd H.
  destruct H as [H|[H|[H|H]]];
    destruct H as (Hin & -> & -> & -> & ->).
  - rewrite remove_child_app_l; auto.
  - rewrite remove_child_app_r, remove_child_app_l; auto.
    apply (NoDup_app_not_in _ _ _ Hnd). apply in_or_app. left. exact Hin.
  - rewrite remove_child_app_r, remove_child_app_r, remove_child_app_l; auto.
    + apply NoDup_app_remove_l in Hnd.
      apply (NoDup_app_not_in _ _ _ Hnd). apply in_or_app. left. exact Hin.
    + apply (NoDup_app_not_in _ _ _ Hnd).
      apply in_or_app. right. apply in_or_app. left. exact Hin.
  - rewrite remove_child_app_r, remove_child_app_r, remove_child_app_r; auto.
    + apply NoDup_app_remove_l in Hnd. apply NoDup_app_remove_l in Hnd.
      apply (NoDup_app_not_in _ _ _ Hnd). exact Hin.
    + apply NoDup_app_remove_l in Hnd.
      apply (NoDup_app_not_in _ _ _ Hnd). apply in_or_app. right. exact Hin.
    + apply (NoDup_app_not_in _ _ _ Hnd).
      apply in_or_app. right. apply in_or_app. right. exact Hin.
Qed.

Lemma NoDup_keys_snoc {A : Type} (key : A -> ObjId) l y n :
  NoDup (map key l) -> (forall x, In x l -> key x < n) -> n <= key y ->
  NoDup (map key (l ++ [y])).
Proof.
  intros Hnd Hlt Hy. rewrite map_app. simpl. apply NoDup_app.
  - exact Hnd.
  - constructor; [intros [] | constructor].
  - intros x Hx [E|[]]. subst x. apply in_map_iff in Hx.
    destruct Hx as [z [Ez Hz]]. specialize (Hlt z Hz). lia.
Qed.

Lemma scene_ok_new mats : scene_ok (newMapManager mats).
Proof.
  constructor; simpl.
  - intros o [].
  - constructor.
  - intros r [].
  - constructor.
  - intros f [].
  - constructor.
  - intros m [].
  - constructor.
  - constructor.
  - intros k e [].
  - intros l [].
  - intros o [].
  - intros k e [].
Qed.

Lemma scene_ok_of_sides st st' :
  element_side st' = element_side st ->
  pendingLoads st' = pendingLoads st ->
  scene_ok st -> scene_ok st'.
Proof.
  unfold element_side. intros E P H. injection E as E1 E2 E3 E4 E5 E6 E7 E8 E9 E10.
  assert (C : forall ty, container_of ty st' = container_of ty st)
    by (intros []; simpl; assumption).
  destruct H as [H1 H2 H3 H4 H5 H6 H7 H8 H9 H10 H11 H12 H13].
  constructor; unfold all_children in *;
    rewrite ?E1, ?E2, ?E3, ?E4, ?E5, ?E6, ?E7, ?E8, ?E9, ?E10, ?P; auto.
  intros k e Hin. destruct (H10 k e Hin) as [o Ho]. exists o.
  rewrite C. exact Ho.
Qed.

Lemma children_Add (l1 l2 l3 l4 : list ObjId) o :
  Add o (l1 ++ l2 ++ l3 ++ l4) ((l1 ++ [o]) ++ l2 ++ l3 ++ l4)
  /\ Add o (l1 ++ l2 ++ l3 ++ l4) (l1 ++ (l2 ++ [o]) ++ l3 ++ l4)
  /\ Add o (l1 ++ l2 ++ l3 ++ l4) (l1 ++ l2 ++ (l3 ++ [o]) ++ l4)
  /\ Add o (l1 ++ l2 ++ l3 ++ l4) (l1 ++ l2 ++ l3 ++ l4 ++ [o]).
Proof.
  repeat split.
  - rewrite <- app_assoc. simpl. apply Add_app.
  - rewrite <- (app_assoc l2). simpl.
    rewrite (app_assoc l1 l2 (l3 ++ l4)), (app_assoc l1 l2 (o :: l3 ++ l4)).
    apply Add_app.
  - rewrite <- (app_assoc l3). simpl.
    rewrite (app_assoc l2 l3 l4), (app_assoc l2 l3 (o :: l4)).
    rewrite (app_assoc l1 (l2 ++ l3) l4), (app_assoc l1 (l2 ++ l3) (o :: l4)).
    apply Add_app.
  - rewrite (app_assoc l3 l4 [o]), (app_assoc l2 (l3 ++ l4) [o]).
    rewrite (app_assoc l1 (l2 ++ l3 ++ l4) [o]).
    rewrite <- (app_nil_r (l1 ++ l2 ++ l3 ++ l4)) at 1.
    apply Add_app.
Qed.

(** A new element with a fresh object, hung into the container of its
    type. *)
Lemma scene_ok_insert st st' e o d :
  scene_ok st ->
  nextObject st <= o -> o < nextObject st' ->
  Add o (all_children st) (all_children st') ->
  (forall ty x, In x (container_of ty st) -> In x (container_of ty st')) ->
  In o (container_of (type e) st') ->
  data_fits (set_object3D o d e) o ->
  elements st' = JSMap.set (id e) (set_object3D o d e) (elements st) ->
  (forall r, In r (animatedSpots st') -> S (ring_obj r) < nextObject st') ->
  NoDup (map ring_obj (animatedSpots st')) ->
  (forall f, In f (flySpots st') -> S (S (fly_obj f)) < nextObject st') ->
  NoDup (map fly_obj (flySpots st')) ->
  (forall m, In m (modelMixers st') -> getRoot m < nextObject st') ->
  NoDup (map getRoot (modelMixers st')) ->
  (forall l, In l (pendingLoads st') -> type (load_element l) = model) ->
  disposed st' = disposed st ->
  scene_ok st'.
Proof.
  intros H Hlo Hhi HA Hincl Hin Hfit He R1 R2 F1 F2 M1 M2 P D.
  assert (Hfresh : ~ In o (all_children st)).
  { intros Ho. apply (so_children_fresh _ H) in Ho. lia. }
  assert (Hlive : ~ In o (live_objects (elements st))).
  { intros Ho. apply live_objects_inv in Ho. destruct Ho as [k [e' [Hk Ho]]].
    destruct (so_live _ H k e' Hk) as [o' [Ho' [Hc _]]].
    apply Hfresh. apply (container_in_children (type e')). congruence. }
  constructor; auto.
  - intros x Hx. apply (Add_in HA) in Hx. destruct Hx as [->|Hx]; auto.
    apply (so_children_fresh _ H) in Hx. lia.
  - apply (NoDup_Add HA). split; auto. apply (so_children_nodup _ H).
  - rewrite He. apply live_objects_set_nodup; auto. apply (so_live_nodup _ H).
  - intros k e' Hk. rewrite He in Hk. apply JSMapFacts.in_set in Hk.
    destruct Hk as [E|Hk].
    + injection E as _ E'. subst e'. exists o. auto.
    + destruct (so_live _ H k e' Hk) as [o' [Ho' [Hc Hd]]].
      exists o'. auto.
  - intros x Hx. rewrite D in Hx.
    destruct (so_disposed _ H x Hx) as [Hlt Hnin]. split; [lia|].
    intros Hx'. apply (Add_in HA) in Hx'. destruct Hx' as [->|Hx']; auto.
    lia.
  - intros k e' Hk. rewrite He in Hk. apply JSMapFacts.in_set in Hk.
    destruct Hk as [E|Hk].
    + injection E as E1 E2. subst e'. simpl. auto.
    + apply (so_keyed _ H k e' Hk).
Qed.

Lemma addLabel_scene_ok e st :
  type e = label -> scene_ok st -> scene_ok (snd (addLabel e st)).
Proof.
  intros T H. unfold addLabel. destruct (draw2dLabel _ _); [|exact H].
  cbn [snd]. apply (scene_ok_insert st _ e (nextObject st) (data e)); auto;
    simpl; try lia; try old_lists H.
  - apply children_Add.
  - grown_container.
  - rewrite T. simpl. apply in_or_app. right. left. reflexivity.
  - unfold data_fits. simpl. rewrite T. exact I.
Qed.

Lemma addBubble_scene_ok e st :
  type e = bubble -> scene_ok st -> scene_ok (snd (addBubble e st)).
Proof.
  intros T H. unfold addBubble. destruct (draw2dBubble _ _); [|exact H].
  cbn [snd]. apply (scene_ok_insert st _ e (nextObject st) (data e)); auto;
    simpl; try lia; try old_lists H.
  - apply children_Add.
  - grown_container.
  - rewrite T. simpl. apply in_or_app. right. left. reflexivity.
  - unfold data_fits. simpl. rewrite T. exact I.
Qed.

Lemma addSpot_scene_ok e st :
  type e = spot -> scene_ok st -> scene_ok (snd (addSpot e st)).
Proof.
  intros T H. unfold addSpot. destruct (drawSpot _); [|exact H].
  cbn [snd].
  apply (scene_ok_insert st _ e (S (S (nextObject st)))
           (SpotData (nextObject st) (S (nextObject st))));
    auto; simpl; try lia; try old_lists H.
  - apply children_Add.
  - grown_container.
  - rewrite T. simpl. apply in_or_app. right. left. reflexivity.
  - unfold data_fits. simpl. rewrite T. eauto.
  - intros r Hr. apply in_app_or in Hr. destruct Hr as [Hr|[<-|[]]].
    + apply (so_rings_fresh _ H) in Hr. lia.
    + simpl. lia.
  - apply (NoDup_keys_snoc _ _ _ (nextObject st)).
    + apply (so_rings_nodup _ H).
    + intros x Hx. apply (so_rings_fresh _ H) in Hx. lia.
    + simpl. lia.
Qed.

Lemma addLine_scene_ok e st :
  type e = line -> scene_ok st -> scene_ok (snd (addLine e st)).
Proof.
  intros T H. unfold addLine.
  destruct (drawLineBetween2Spot _ _); [|exact H].
  cbn [snd].
  apply (scene_ok_insert st _ e (S (S (nextObject st)))
           (LineData (S (nextObject st)) (nextObject st)));
    auto; simpl; try lia; try old_lists H.
  - apply children_Add.
  - grown_container.
  - rewrite T. simpl. apply in_or_app. right. left. reflexivity.
  - unfold data_fits. simpl. rewrite T. eauto.
  - intros f Hf. apply in_app_or in Hf. destruct Hf as [Hf|[<-|[]]].
    + apply (so_fly_fresh _ H) in Hf. lia.
    + simpl. lia.
  - apply (NoDup_keys_snoc _ _ _ (nextObject st)).
    + apply (so_fly_nodup _ H).
    + intros x Hx. apply (so_fly_fresh _ H) in Hx. lia.
    + simpl. lia.
Qed.

Lemma addElement_scene_ok e st :
  scene_ok st -> scene_ok (snd (addElement e st)).
Proof.
  intros H. unfold addElement. destruct (type e) eqn:T.
  - apply addLabel_scene_ok; auto.
  - apply addSpot_scene_ok; auto.
  - unfold addModel. cbn [snd]. destruct H. constructor; auto.
    simpl. intros l Hl. apply in_app_or in Hl.
    destruct Hl as [Hl|[<-|[]]]; auto.
  - apply addLine_scene_ok; auto.
  - apply addBubble_scene_ok; auto.
Qed.

Lemma addElements_scene_ok batch st :
  scene_ok st -> scene_ok (snd (addElements batch st)).
Proof.
  revert st. induction batch as [|e batch IH]; intros st H; simpl; auto.
  destruct (addElement e st) as [p st1] eqn:E1.
  destruct (addElements batch st1) as [ps st2] eqn:E2. simpl.
  change st2 with (snd (ps, st2)). rewrite <- E2. apply IH.
  change st1 with (snd (p, st1)). rewrite <- E1.
  apply addElement_scene_ok, H.
Qed.

Lemma onLoad_scene_ok e glb st :
  type e = model -> scene_ok st -> scene_ok (onLoad e glb st).
Proof.
  intros T H. unfold onLoad.
  apply (scene_ok_insert st _ e (nextObject st) (data e)); auto.
  - destruct (animation e && (0 <? animations glb)); simpl; lia.
  - destruct (animation e && (0 <? animations glb)); simpl;
      apply children_Add.
  - destruct (animation e && (0 <? animations glb)); grown_container.
  - rewrite T.
    destruct (animation e && (0 <? animations glb)); simpl;
      apply in_or_app; right; left; reflexivity.
  - unfold data_fits. simpl. rewrite T. exact I.
  - destruct (animation e && (0 <? animations glb)); reflexivity.
  - destruct (animation e && (0 <? animations glb)); simpl; old_lists H.
  - destruct (animation e && (0 <? animations glb)); simpl; old_lists H.
  - destruct (animation e && (0 <? animations glb)); simpl; old_lists H.
  - destruct (animation e && (0 <? animations glb)); simpl; old_lists H.
  - destruct (animation e && (0 <? animations glb)); simpl;
      [|old_lists H].
    intros m Hm. apply in_app_or in Hm. destruct Hm as [Hm|[<-|[]]].
    + apply (so_mixers_fresh _ H) in Hm. lia.
    + simpl. lia.
  - destruct (animation e && (0 <? animations glb)); simpl;
      [|old_lists H].
    apply (NoDup_keys_snoc _ _ _ (nextObject st)).
    + apply (so_mixers_nodup _ H).
    + intros x Hx. apply (so_mixers_fresh _ H) in Hx. lia.
    + simpl. lia.
  - destruct (animation e && (0 <? animations glb)); simpl; old_lists H.
  - destruct (animation e && (0 <? animations glb)); reflexivity.
Qed.

Lemma loadSettled_scene_ok request result st :
  scene_ok st -> scene_ok (loadSettled request result st).
Proof.
  intros H. unfold loadSettled.
  destruct (find _ (pendingLoads st)) as [l|] eqn:F; [|exact H].
  apply find_some in F. destruct F as [Hl _].
  assert (H' : scene_ok
                 (with_pendingLoads
                    (filter (fun l0 => negb (Nat.eqb (load_id l0) request))
                       (pendingLoads st)) (nextRequest st) st)).
  { destruct H. constructor; auto. simpl. intros l0 Hl0.
    apply filter_In in Hl0. destruct Hl0 as [Hl0 _]. auto. }
  destruct result as [glb|]; [|exact H'].
  apply onLoad_scene_ok; auto. apply (so_loads_model _ H l Hl).
Qed.

(** Taking a live element out. *)
Lemma scene_ok_remove st st' k e o :
  scene_ok st ->
  JSMap.get k (elements st) = Some e -> object3D e = Some o ->
  elements st' = JSMap.delete k (elements st) ->
  nextObject st' = nextObject st ->
  all_children st' = remove_child o (all_children st) ->
  (forall ty x, x <> o -> In x (container_of ty st) ->
                In x (container_of ty st')) ->
  (forall r, In r (animatedSpots st') -> In r (animatedSpots st)) ->
  NoDup (map ring_obj (animatedSpots st')) ->
  (forall f, In f (flySpots st') -> In f (flySpots st)) ->
  NoDup (map fly_obj (flySpots st')) ->
  (forall m, In m (modelMixers st') -> In m (modelMixers st)) ->
  NoDup (map getRoot (modelMixers st')) ->
  pendingLoads st' = pendingLoads st ->
  disposed st' = disposed st ++ [o] ->
  scene_ok st'.
Proof.
  intros H G Ho He Hn Hc Hincl R1 R2 F1 F2 M1 M2 P D.
  constructor; auto.
  - intros x Hx. rewrite Hc in Hx. apply remove_child_in in Hx.
    rewrite Hn. apply (so_children_fresh _ H x Hx).
  - rewrite Hc. apply remove_child_nodup, (so_children_nodup _ H).
  - intros r Hr. rewrite Hn. apply (so_rings_fresh _ H), R1, Hr.
  - intros f Hf. rewrite Hn. apply (so_fly_fresh _ H), F1, Hf.
  - intros m Hm. rewrite Hn. apply (so_mixers_fresh _ H), M1, Hm.
  - rewrite He. apply live_objects_delete_nodup, (so_live_nodup _ H).
  - intros k' e' Hk. rewrite He in Hk. apply JSMapFacts.in_delete in Hk.
    destruct Hk as [Hk Hne]. simpl in Hne.
    destruct (so_live _ H k' e' Hk) as [o' [Ho' [Hc' Hd]]].
    exists o'. split; [exact Ho'|]. split; [|exact Hd].
    apply Hincl; auto.
    apply not_eq_sym.
    apply (live_objects_distinct (elements st) k e o k' e' o'); auto.
    + apply (so_live_nodup _ H).
    + apply JSMapFacts.get_some_in, G.
  - rewrite P. apply (so_loads_model _ H).
  - intros x Hx. rewrite D in Hx. rewrite Hn, Hc.
    apply in_app_or in Hx. destruct Hx as [Hx|[<-|[]]].
    + destruct (so_disposed _ H x Hx) as [Hlt Hnin]. split; auto.
      intros Hx'. apply Hnin, (remove_child_in _ _ _ Hx').
    + destruct (so_live _ H k e (JSMapFacts.get_some_in _ _ _ G))
        as [o' [Ho' [Hc' _]]].
      rewrite Ho in Ho'. injection Ho' as <-. split.
      * apply (so_children_fresh _ H).
        apply (container_in_children (type e)), Hc'.
      * apply remove_child_gone, (so_children_nodup _ H).
  - intros k' e' Hk. rewrite He in Hk. apply JSMapFacts.in_delete in Hk.
    apply (so_keyed _ H k' e'), Hk.
Qed.

Lemma removeElement_scene_ok id0 st :
  scene_ok st -> scene_ok (snd (removeElement id0 st)).
Proof.
  intros H. unfold removeElement.
  destruct (JSMap.get id0 (elements st)) as [e|] eqn:G; [|exact H].
  destruct (object3D e) as [o|] eqn:Ho; [|exact H].
  destruct (so_live _ H id0 e (JSMapFacts.get_some_in _ _ _ G))
    as [o' [Ho' [Hc Hd]]].
  rewrite Ho in Ho'. injection Ho' as <-.
  cbn [snd]. unfold data_fits in Hd.
  destruct (type e) eqn:T; simpl in Hc.
  - apply (scene_ok_remove st _ id0 e o); auto; simpl; auto;
      try old_lists H; try shrunk_container.
    apply (all_children_remove st o); [apply (so_children_nodup _ H)|].
    left. auto.
  - destruct Hd as [circle [ring [Hd ->]]]. rewrite Hd.
    apply (scene_ok_remove st _ id0 e (S ring)); auto; simpl; auto;
      try old_lists H; try shrunk_container.
    + apply (all_children_remove st (S ring));
        [apply (so_children_nodup _ H)|].
      right. left. auto.
    + intros r. rewrite remove_ring_by. apply remove_by_in.
    + rewrite remove_ring_by. apply remove_by_nodup, (so_rings_nodup _ H).
  - apply (scene_ok_remove st _ id0 e o); auto; simpl; auto;
      try old_lists H; try shrunk_container.
    + apply (all_children_remove st o); [apply (so_children_nodup _ H)|].
      right. right. left. auto.
    + intros m. rewrite remove_mixer_by. apply remove_by_in.
    + rewrite remove_mixer_by. apply remove_by_nodup, (so_mixers_nodup _ H).
  - destruct Hd as [flyLine [flySpot [Hd ->]]]. rewrite Hd.
    apply (scene_ok_remove st _ id0 e (S (S flySpot))); auto; simpl; auto;
      try old_lists H; try shrunk_container.
    + apply (all_children_remove st (S (S flySpot)));
        [apply (so_children_nodup _ H)|].
      right. right. right. auto.
    + intros f. rewrite remove_flySpot_by. apply remove_by_in.
    + rewrite remove_flySpot_by. apply remove_by_nodup, (so_fly_nodup _ H).
  - apply (scene_ok_remove st _ id0 e o); auto; simpl; auto;
      try old_lists H; try shrunk_container.
    apply (all_children_remove st o); [apply (so_children_nodup _ H)|].
    left. auto.
Qed.

Lemma removeElements_scene_ok ids st :
  scene_ok st -> scene_ok (removeElements ids st).
Proof.
  unfold removeElements. revert st.
  induction ids as [|i ids IH]; intros st H; simpl; auto.
  apply IH, removeElement_scene_ok, H.
Qed.

Lemma updateAnimations_scene_ok delta st :
  scene_ok st -> scene_ok (updateAnimations delta st).
Proof.
  intros H. unfold updateAnimations.
  destruct H as [H1 H2 H3 H4 H5 H6 H7 H8 H9 H10 H11 H12 H13].
  constructor; simpl; auto.
  - intros r Hr. apply in_map_iff in Hr. destruct Hr as [r0 [<- Hr]].
    unfold update_ring. destruct (JS.le _ _); simpl; auto.
  - rewrite map_map.
    rewrite (map_ext _ ring_obj); auto.
    intros r. unfold update_ring. destruct (JS.le _ _); reflexivity.
  - intros f Hf. apply in_map_iff in Hf. destruct Hf as [f0 [<- Hf]].
    simpl. auto.
  - rewrite map_map. exact H6.
  - intros m Hm. apply in_map_iff in Hm. destruct Hm as [m0 [<- Hm]].
    simpl. auto.
  - rewrite map_map. exact H8.
Qed.

Lemma dispose_scene_ok st : scene_ok st -> scene_ok (dispose st).
Proof.
  intros H. unfold dispose.
  apply (scene_ok_of_sides
           (with_flySpots []
              (with_animatedSpots []
                 (with_modelMixers [] (clearAllElements st))))).
  - apply clearAllHighlights_element_side.
  - assert (E := clearAllHighlights_load_side
                   (with_flySpots []
                      (with_animatedSpots []
                         (with_modelMixers [] (clearAllElements st))))).
    unfold load_side in E. injection E as E _. exact E.
  - assert (H' : scene_ok (clearAllElements st))
      by (apply removeElements_scene_ok, H).
    destruct H'. constructor; simpl; auto; try constructor;
      intros ? [].
Qed.

Lemma reachable_scene_ok scene st : reachable scene st -> scene_ok st.
Proof.
  induction 1 as [mats|ev st Hr IH].
  - apply scene_ok_new.
  - destruct ev; simpl.
    + apply addElements_scene_ok, IH.
    + apply removeElements_scene_ok, IH.
    + apply removeElements_scene_ok, IH.
    + apply updateAnimations_scene_ok, IH.
    + apply (scene_ok_of_sides st); auto.
      * apply highlightRegion_element_side.
      * assert (E := highlightRegion_load_side scene regionName duration st).
        unfold load_side in E. injection E as E _. exact E.
    + apply (scene_ok_of_sides st); auto.
      * apply clearRegionHighlight_element_side.
      * assert (E := clearRegionHighlight_load_side regionName st).
        unfold load_side in E. injection E as E _. exact E.
    + apply (scene_ok_of_sides st); auto.
      * apply clearAllHighlights_element_side.
      * assert (E := clearAllHighlights_load_side st).
        unfold load_side in E. injection E as E _. exact E.
    + apply dispose_scene_ok, IH.
    + apply loadSettled_scene_ok, IH.
    + apply (scene_ok_of_sides st); auto.
      * apply timerFired_element_side.
      * assert (E := timerFired_load_side tid st).
        unfold load_side in E. injection E as E _. exact E.
    + apply (scene_ok_of_sides st); auto.
      * apply animationFrame_element_side.
      * assert (E := animationFrame_load_side st).
        unfold load_side in E. injection E as E _. exact E.
Qed.

(** ** What a live element owns *)

(** Every live element is stored under its own id and owns an object
    that hangs in the container of its variant and was never handed to
    [disposeObject3D]. *)
Theorem live_element_is_attached scene st k e :
  reachable scene st ->
  getElement k st = Some e ->
  id e = k
  /\ exists o, object3D e = Some o
               /\ In o (container_of (type e) st)
               /\ ~ In o (disposed st).
Proof.
  intros R G. apply reachable_scene_ok in R.
  apply JSMapFacts.get_some_in in G. split.
  - apply (so_keyed _ R k e G).
  - destruct (so_live _ R k e G) as [o [Ho [Hc _]]].
    exists o. split; [exact Ho|]. split; [exact Hc|].
    intros Hd. apply (so_disposed _ R o) in Hd.
    apply (proj2 Hd), (container_in_children (type e)), Hc.
Qed.

Lemma live_element_is_attached_witness :
  let e := set_object3D 4 (SpotData 2 3) (a_spot "spot-1" here) in
  (reachable empty_scene mixed_elements
   /\ getElement "spot-1" mixed_elements = Some e)
  /\ id e = "spot-1"
  /\ exists o, object3D e = Some o
               /\ In o (container_of (type e) mixed_elements)
               /\ ~ In o (disposed mixed_elements).
Proof.
  intros e.
  assert (R : reachable empty_scene mixed_elements)
    by (apply reachable_step, reachable_new).
  assert (G : getElement "spot-1" mixed_elements = Some e) by reflexivity.
  split; [split; assumption|].
  exact (live_element_is_attached empty_scene mixed_elements "spot-1" e R G).
Defined.

(** Two live elements never share a scene object. *)
Theorem live_elements_own_distinct_objects scene st k k' e e' :
  reachable scene st ->
  k <> k' ->
  getElement k st = Some e -> getElement k' st = Some e' ->
  object3D e <> object3D e'.
Proof.
  intros R Hne G G'. apply reachable_scene_ok in R.
  apply JSMapFacts.get_some_in in G. apply JSMapFacts.get_some_in in G'.
  destruct (so_live _ R k e G) as [o [Ho _]].
  destruct (so_live _ R k' e' G') as [o' [Ho' _]].
  rewrite Ho, Ho'. intros E. injection E as E.
  apply (live_objects_distinct (elements st) k e o k' e' o'); auto.
  apply (so_live_nodup _ R).
Qed.

Lemma live_elements_own_distinct_objects_witness :
  let e := set_object3D 0 NoData (a_label "label-0" here) in
  let e' := set_object3D 1 NoData (a_label "label-1" here) in
  (reachable empty_scene two_labels
   /\ "label-0" <> "label-1"
   /\ getElement "label-0" two_labels = Some e
   /\ getElement "label-1" two_labels = Some e')
  /\ object3D e <> object3D e'.
Proof.
  intros e e'.
  assert (R : reachable empty_scene two_labels)
    by (apply reachable_step, reachable_new).
  assert (N : "label-0" <> "label-1") by discriminate.
  assert (G : getElement "label-0" two_labels = Some e) by reflexivity.
  assert (G' : getElement "label-1" two_labels = Some e') by reflexivity.
  split; [repeat split; assumption|].
  exact (live_elements_own_distinct_objects empty_scene two_labels
           "label-0" "label-1" e e' R N G G').
Defined.

(** ** Removing a live element *)

Lemma removeElement_live_shape st k e o :
  scene_ok st ->
  JSMap.get k (elements st) = Some e -> object3D e = Some o ->
  fst (removeElement k st) = true
  /\ elements (snd (removeElement k st)) = JSMap.delete k (elements st)
  /\ all_children (snd (removeElement k st))
     = remove_child o (all_children st)
  /\ disposed (snd (removeElement k st)) = disposed st ++ [o]
  /\ (forall ty x, x <> o -> In x (container_of ty st) ->
                   In x (container_of ty (snd (removeElement k st))))
  /\ animatedSpots (snd (removeElement k st))
     = match type e, data e with
       | spot, SpotData _ ring => remove_ring ring (animatedSpots st)
       | _, _ => animatedSpots st
       end
  /\ flySpots (snd (removeElement k st))
     = match type e, data e with
       | line, LineData _ flySpot => remove_flySpot flySpot (flySpots st)
       | _, _ => flySpots st
       end
  /\ modelMixers (snd (removeElement k st))
     = match type e with
       | model => remove_mixer o (modelMixers st)
       | _ => modelMixers st
       end.
Proof.
  intros H G Ho.
  destruct (so_live _ H k e (JSMapFacts.get_some_in _ _ _ G))
    as [o' [Ho' [Hc Hd]]].
  rewrite Ho in Ho'. injection Ho' as <-.
  unfold removeElement. rewrite G, Ho. cbn [fst snd].
  assert (Hnd := so_children_nodup _ H).
  destruct (type e) eqn:T; simpl in Hc.
  - repeat split; simpl; auto; try shrunk_container.
    apply (all_children_remove st o); auto.
    left. repeat split; auto.
  - destruct (data e); repeat split; simpl; auto; try shrunk_container;
      apply (all_children_remove st o); auto;
      right; left; repeat split; auto.
  - repeat split; simpl; auto; try shrunk_container.
    apply (all_children_remove st o); auto.
    right; right; left; repeat split; auto.
  - destruct (data e); repeat split; simpl; auto; try shrunk_container;
      apply (all_children_remove st o); auto;
      right; right; right; repeat split; auto.
  - repeat split; simpl; auto; try shrunk_container.
    apply (all_children_remove st o); auto.
    left. repeat split; auto.
Qed.

(** Removing a live element detaches its object from the scene, hands it
    to [disposeObject3D], forgets the id, and stops the animation that
    belongs to it. *)
Theorem removeElement_releases scene st k e :
  reachable scene st ->
  getElement k st = Some e ->
  exists o,
    object3D e = Some o
    /\ fst (removeElement k st) = true
    /\ getElement k (snd (removeElement k st)) = None
    /\ ~ In o (all_children (snd (removeElement k st)))
    /\ disposed (snd (removeElement k st)) = disposed st ++ [o]
    /\ (type e = model ->
        ~ In o (map getRoot (modelMixers (snd (removeElement k st)))))
    /\ (type e = spot ->
        exists circle ring,
          data e = SpotData circle ring
          /\ ~ In ring
               (map ring_obj (animatedSpots (snd (removeElement k st)))))
    /\ (type e = line ->
        exists flyLine flySpot,
          data e = LineData flyLine flySpot
          /\ ~ In flySpot
               (map fly_obj (flySpots (snd (removeElement k st))))).
Proof.
  intros R G. apply reachable_scene_ok in R. unfold getElement in *.
  destruct (so_live _ R k e (JSMapFacts.get_some_in _ _ _ G))
    as [o [Ho [Hc Hd]]].
  destruct (removeElement_live_shape st k e o R G Ho)
    as (E1 & E2 & E3 & E4 & _ & E6 & E7 & E8).
  exists o. split; [exact Ho|]. split; [exact E1|].
  split; [rewrite E2; apply JSMapFacts.get_delete_same|].
  split; [rewrite E3; apply remove_child_gone, (so_children_nodup _ R)|].
  split; [exact E4|].
  unfold data_fits in Hd. split; [|split].
  - intros T. rewrite E8, T, remove_mixer_by.
    apply remove_by_gone, (so_mixers_nodup _ R).
  - intros T. rewrite T in Hd. destruct Hd as [circle [ring [Hd _]]].
    exists circle, ring. split; [exact Hd|].
    rewrite E6, T, Hd, remove_ring_by.
    apply remove_by_gone, (so_rings_nodup _ R).
  - intros T. rewrite T in Hd. destruct Hd as [flyLine [flySpot [Hd _]]].
    exists flyLine, flySpot. split; [exact Hd|].
    rewrite E7, T, Hd, remove_flySpot_by.
    apply remove_by_gone, (so_fly_nodup _ R).
Qed.

Lemma removeElement_releases_witness :
  let e := set_object3D 4 (SpotData 2 3) (a_spot "spot-1" here) in
  (reachable empty_scene mixed_elements
   /\ getElement "spot-1" mixed_elements = Some e)
  /\ exists o,
       object3D e = Some o
       /\ disposed (snd (removeElement "spot-1" mixed_elements))
          = disposed mixed_elements ++ [o].
Proof.
  intros e.
  assert (R : reachable empty_scene mixed_elements)
    by (apply reachable_step, reachable_new).
  assert (G : getElement "spot-1" mixed_elements = Some e) by reflexivity.
  split; [split; assumption|].
  destruct (removeElement_releases empty_scene mixed_elements "spot-1" e R G)
    as [o [Ho [_ [_ [_ [Hd _]]]]]].
  exists o. split; [exact Ho | exact Hd].
Defined.

(** Removing one element leaves every other one as it was: stored,
    attached, and animated. *)
Theorem removeElement_spares_the_others scene st k k' e' :
  reachable scene st ->
  k' <> k ->
  getElement k' st = Some e' ->
  getElement k' (snd (removeElement k st)) = Some e'
  /\ (exists o', object3D e' = Some o'
                 /\ In o' (container_of (type e')
                             (snd (removeElement k st))))
  /\ (forall circle ring x,
        type e' = spot -> data e' = SpotData circle ring ->
        In x (animatedSpots st) -> ring_obj x = ring ->
        In x (animatedSpots (snd (removeElement k st))))
  /\ (forall flyLine flySpot x,
        type e' = line -> data e' = LineData flyLine flySpot ->
        In x (flySpots st) -> fly_obj x = flySpot ->
        In x (flySpots (snd (removeElement k st))))
  /\ (forall o' x,
        type e' = model -> object3D e' = Some o' ->
        In x (modelMixers st) -> getRoot x = o' ->
        In x (modelMixers (snd (removeElement k st)))).
Proof.
  intros R Hne G'. apply reachable_scene_ok in R. unfold getElement in *.
  assert (Hin' := JSMapFacts.get_some_in _ _ _ G').
  destruct (so_live _ R k' e' Hin') as [o' [Ho' [Hc' Hd']]].
  destruct (JSMap.get k (elements st)) as [e|] eqn:G.
  - assert (Hin := JSMapFacts.get_some_in _ _ _ G).
    destruct (so_live _ R k e Hin) as [o [Ho [Hc Hd]]].
    assert (Hoo : o' <> o).
    { apply (live_objects_distinct (elements st) k' e' o' k e o); auto.
      apply (so_live_nodup _ R). }
    destruct (removeElement_live_shape st k e o R G Ho)
      as (_ & E2 & _ & _ & E5 & E6 & E7 & E8).
    split; [rewrite E2, JSMapFacts.get_delete_other; auto|].
    split; [exists o'; split; auto|].
    unfold data_fits in Hd, Hd'. split; [|split].
    + intros circle ring x T' D' Hx Ex. rewrite E6.
      destruct (type e) eqn:T; auto. destruct Hd as [c [r [Hd Er]]].
      rewrite Hd. rewrite remove_ring_by. apply remove_by_other; auto.
      rewrite T', D' in Hd'. destruct Hd' as [c' [r' [Hd' Er']]].
      injection Hd' as _ <-. lia.
    + intros flyLine flySpot x T' D' Hx Ex. rewrite E7.
      destruct (type e) eqn:T; auto. destruct Hd as [c [r [Hd Er]]].
      rewrite Hd. rewrite remove_flySpot_by. apply remove_by_other; auto.
      rewrite T', D' in Hd'. destruct Hd' as [c' [r' [Hd' Er']]].
      injection Hd' as _ <-. lia.
    + intros o1 x T' O1 Hx Ex. rewrite E8.
      destruct (type e) eqn:T; auto.
      rewrite remove_mixer_by. apply remove_by_other; auto. congruence.
  - unfold removeElement. rewrite G. cbn [snd].
    split; [exact G'|]. split; [exists o'; auto|]. auto.
Qed.

Lemma removeElement_spares_the_others_witness :
  let e' := set_object3D 0 NoData (a_label "label-31" here) in
  (reachable empty_scene mixed_elements
   /\ "label-31" <> "spot-1"
   /\ getElement "label-31" mixed_elements = Some e')
  /\ getElement "label-31" (snd (removeElement "spot-1" mixed_elements))
     = Some e'.
Proof.
  intros e'.
  assert (R : reachable empty_scene mixed_elements)
    by (apply reachable_step, reachable_new).
  assert (N : "label-31" <> "spot-1") by discriminate.
  assert (G : getElement "label-31" mixed_elements = Some e')
    by reflexivity.
  split; [repeat split; assumption|].
  exact (proj1 (removeElement_spares_the_others empty_scene mixed_elements
                  "spot-1" "label-31" e' R N G)).
Defined.

(** ** Adding what can be drawn *)

Lemma addElement_drawn e st :
  drawable e = true ->
  exists o d,
    addElement e st
    = (Fulfilled,
       snd (addElement e st))
    /\ elements (snd (addElement e st))
       = JSMap.set (id e) (set_object3D o d e) (elements st)
    /\ nextObject st <= o < nextObject (snd (addElement e st))
    /\ In o (container_of (type e) (snd (addElement e st)))
    /\ (forall ty x, In x (container_of ty st) ->
                     In x (container_of ty (snd (addElement e st))))
    /\ disposed (snd (addElement e st)) = disposed st.
Proof.
  unfold drawable, addElement, addLabel, addBubble, addSpot, addLine,
    draw2dLabel, draw2dBubble, drawSpot, drawLineBetween2Spot.
  destruct (type e) eqn:T; try discriminate.
  - intros D. rewrite D. destruct (position e) as [c|]; [|discriminate].
    exists (nextObject st), (data e). simpl.
    repeat split; auto; try lia; try grown_container.
    simpl. apply in_or_app. right. left. reflexivity.
  - intros D. rewrite D. destruct (position e) as [c|]; [|discriminate].
    exists (S (S (nextObject st))), (SpotData (nextObject st) (S (nextObject st))).
    simpl.
    repeat split; auto; try lia; try grown_container.
    simpl. apply in_or_app. right. left. reflexivity.
  - destruct (startPosition e), (endPosition e); try discriminate. intros _.
    exists (S (S (nextObject st))), (LineData (S (nextObject st)) (nextObject st)).
    simpl.
    repeat split; auto; try lia; try grown_container.
    simpl. apply in_or_app. right. left. reflexivity.
  - intros D. rewrite D. destruct (position e) as [c|]; [|discriminate].
    exists (nextObject st), (data e). simpl.
    repeat split; auto; try lia; try grown_container.
    simpl. apply in_or_app. right. left. reflexivity.
Qed.

(** A label, bubble or spot with coordinates, or a line with both end
    points, is stored under its id at once, with the payload's own fields
    and a fresh object in the container of its variant. *)
Theorem addElement_then_getElement e st :
  drawable e = true ->
  fst (addElement e st) = Fulfilled
  /\ exists o d,
       getElement (id e) (snd (addElement e st))
       = Some (set_object3D o d e)
       /\ nextObject st <= o < nextObject (snd (addElement e st))
       /\ In o (container_of (type e) (snd (addElement e st))).
Proof.
  intros D. destruct (addElement_drawn e st D)
    as [o [d (E1 & E2 & E3 & E4 & _)]].
  split; [rewrite E1; reflexivity|].
  exists o, d. split; [|split; assumption].
  unfold getElement. rewrite E2. apply JSMapFacts.get_set_same.
Qed.

Lemma addElement_then_getElement_witness :
  let e := a_line "route" here (Some [5 # 1; 6 # 1]%Q) in
  drawable e = true
  /\ fst (addElement e two_labels) = Fulfilled
  /\ exists o d,
       getElement (id e) (snd (addElement e two_labels))
       = Some (set_object3D o d e)
       /\ nextObject two_labels <= o
          < nextObject (snd (addElement e two_labels))
       /\ In o (container_of (type e) (snd (addElement e two_labels))).
Proof.
  intros e.
  assert (D : drawable e = true) by reflexivity.
  split; [exact D|].
  exact (addElement_then_getElement e two_labels D).
Defined.

Lemma addElement_keys_fresh e st :
  drawable e = true -> getElement (id e) st = None ->
  JSMap.keys (elements (snd (addElement e st)))
  = JSMap.keys (elements st) ++ [id e].
Proof.
  intros D G. destruct (addElement_drawn e st D) as [o [d (_ & E2 & _)]].
  rewrite E2, (JSMapFacts.set_absent _ _ _ G).
  unfold JSMap.keys. rewrite map_app. reflexivity.
Qed.

Lemma addElement_get_other e st k :
  drawable e = true -> id e <> k ->
  getElement k (snd (addElement e st)) = getElement k st.
Proof.
  intros D Hne. destruct (addElement_drawn e st D) as [o [d (_ & E2 & _)]].
  unfold getElement. rewrite E2. apply JSMapFacts.get_set_other, Hne.
Qed.

(** A batch of drawable payloads with new, pairwise different ids is
    stored in batch order behind the elements already there, and every
    promise is settled when the call returns. *)
Theorem addElements_appends_in_batch_order batch st :
  forallb drawable batch = true ->
  NoDup (map id batch) ->
  (forall e, In e batch -> getElement (id e) st = None) ->
  JSMap.keys (elements (snd (addElements batch st)))
  = JSMap.keys (elements st) ++ map id batch
  /\ fst (addElements batch st) = map (fun _ => Fulfilled) batch.
Proof.
  revert st. induction batch as [|e batch IH]; intros st D N F; simpl.
  - rewrite app_nil_r. auto.
  - simpl in D. apply andb_true_iff in D. destruct D as [De Db].
    inversion N as [|? ? Hn Nb]; subst.
    destruct (addElement e st) as [p st1] eqn:E1.
    destruct (addElements batch st1) as [ps st2] eqn:E2. simpl.
    assert (Hp : p = Fulfilled).
    { destruct (addElement_drawn e st De) as [o [d (E & _)]].
      rewrite E1 in E. injection E as ->. reflexivity. }
    assert (Hk : JSMap.keys (elements st1)
                 = JSMap.keys (elements st) ++ [id e]).
    { change st1 with (snd (p, st1)). rewrite <- E1.
      apply addElement_keys_fresh; auto. apply F. left. reflexivity. }
    destruct (IH st1 Db Nb) as [K P].
    { intros e' He'. change st1 with (snd (p, st1)). rewrite <- E1.
      rewrite addElement_get_other; auto.
      - apply F. right. exact He'.
      - intros E. apply Hn. rewrite E. apply in_map, He'. }
    rewrite E2 in K, P. simpl in K, P.
    rewrite K, Hk, <- app_assoc, Hp, P. auto.
Qed.

Lemma addElements_appends_in_batch_order_witness :
  let batch := [a_spot "s" here; a_bubble "b" here;
                a_line "l" here (Some [5 # 1; 6 # 1]%Q)] in
  (forallb drawable batch = true
   /\ NoDup (map id batch)
   /\ (forall e, In e batch -> getElement (id e) two_labels = None))
  /\ JSMap.keys (elements (snd (addElements batch two_labels)))
     = JSMap.keys (elements two_labels) ++ map id batch
  /\ fst (addElements batch two_labels) = map (fun _ => Fulfilled) batch.
Proof.
  intros batch.
  assert (D : forallb drawable batch = true) by reflexivity.
  assert (N : NoDup (map id batch)).
  { repeat constructor; simpl; intuition discriminate. }
  assert (F : forall e, In e batch -> getElement (id e) two_labels = None).
  { intros e [<-|[<-|[<-|[]]]]; reflexivity. }
  split; [repeat split; assumption|].
  exact (addElements_appends_in_batch_order batch two_labels D N F).
Defined.

(** ** Adding under an id that is in use *)

(** Adding under a live id replaces the stored element but leaves the
    old object in the scene: no element owns it any more, so no call
    of the manager detaches or disposes it, not even removing the id. *)
Theorem overwritten_element_is_orphaned scene st e e0 o0 :
  reachable scene st ->
  drawable e = true ->
  getElement (id e) st = Some e0 -> object3D e0 = Some o0 ->
  let st1 := snd (addElement e st) in
  let st2 := snd (removeElement (id e) st1) in
  In o0 (all_children st1)
  /\ (forall k e', getElement k st1 = Some e' -> object3D e' <> Some o0)
  /\ getElement (id e) st2 = None
  /\ In o0 (all_children st2)
  /\ ~ In o0 (disposed st2).
Proof.
  intros R D G0 O0 st1 st2.
  assert (R1 : reachable scene st1)
    by (apply (reachable_step scene (AddElements [e]) st) in R;
        simpl in R; unfold st1; destruct (addElement e st); exact R).
  assert (S0 := reachable_scene_ok _ _ R).
  assert (S1 := reachable_scene_ok _ _ R1).
  destruct (addElement_drawn e st D) as [o [d (_ & E2 & E3 & E4 & E5 & E6)]].
  fold st1 in E2, E3, E4, E5, E6.
  unfold getElement in *.
  assert (Hin0 := JSMapFacts.get_some_in _ _ _ G0).
  destruct (so_live _ S0 _ _ Hin0) as [o0' [O0' [Hc0 _]]].
  rewrite O0 in O0'; injection O0' as <-.
  assert (Hlt : o0 < nextObject st).
  { apply (so_children_fresh _ S0), (container_in_children (type e0)), Hc0. }
  assert (G1 : JSMap.get (id e) (elements st1) = Some (set_object3D o d e)).
  { rewrite E2. apply JSMapFacts.get_set_same. }
  assert (Hc1 : In o0 (all_children st1)).
  { apply (container_in_children (type e0)), E5, Hc0. }
  assert (Hown : forall k e', JSMap.get k (elements st1) = Some e' ->
                              object3D e' <> Some o0).
  { intros k e' G'. destruct (String.eqb (id e) k) eqn:Ek.
    - apply String.eqb_eq in Ek. subst k. rewrite G1 in G'.
      injection G' as <-. simpl. intros E. injection E as E. lia.
    - apply String.eqb_neq in Ek.
      rewrite E2, JSMapFacts.get_set_other in G'; auto.
      apply JSMapFacts.get_some_in in G'.
      destruct (so_live _ S0 _ _ G') as [o' [O' _]]. rewrite O'.
      intros E. injection E as E.
      apply (live_objects_distinct (elements st) (id e) e0 o0 k e' o');
        auto. apply (so_live_nodup _ S0). }
  destruct (removeElement_live_shape st1 (id e) _ o S1 G1 eq_refl)
    as (_ & F2 & F3 & F4 & _).
  fold st2 in F2, F3, F4.
  split; [exact Hc1|]. split; [exact Hown|].
  split; [rewrite F2; apply JSMapFacts.get_delete_same|].
  split.
  - rewrite F3. apply remove_child_other; auto. lia.
  - rewrite F4, E6. intros Hd. apply in_app_or in Hd.
    destruct Hd as [Hd|[Hd|[]]]; [|lia].
    apply (so_disposed _ S0) in Hd. apply (proj2 Hd).
    apply (container_in_children (type e0)), Hc0.
Qed.

Lemma overwritten_element_is_orphaned_witness :
  let e := a_spot "label-0" here in
  let e0 := set_object3D 0 NoData (a_label "label-0" here) in
  (reachable empty_scene two_labels
   /\ drawable e = true
   /\ getElement (id e) two_labels = Some e0
   /\ object3D e0 = Some 0)
  /\ In 0 (all_children
             (snd (removeElement (id e) (snd (addElement e two_labels))))).
Proof.
  intros e e0.
  assert (R : reachable empty_scene two_labels)
    by (apply reachable_step, reachable_new).
  assert (D : drawable e = true) by reflexivity.
  assert (G : getElement (id e) two_labels = Some e0) by reflexivity.
  assert (O : object3D e0 = Some 0) by reflexivity.
  split; [repeat split; assumption|].
  exact (proj1 (proj2 (proj2 (proj2
           (overwritten_element_is_orphaned empty_scene two_labels e e0 0
              R D G O))))).
Defined.

(** ** Removing a model whose load is still in flight *)



(** ** The pulse and the markers stay in range *)

Lemma update_ring_in_range mesh :
  ring_in_range mesh -> ring_in_range (update_ring mesh).
Proof.
  intros [[Hs Ho]|[s [o [Hs [Ho [Rs Ro]]]]]].
  - right. exists 1%Q, 1%Q. unfold update_ring. rewrite Hs. simpl.
    rewrite Ho. repeat split; auto; lra.
  - right. rewrite (update_ring_numeric mesh s Hs). cbv zeta.
    assert (E : (Qred (s + (1 # 100)) == s + (1 # 100))%Q)
      by apply Qred_correct.
    destruct (Qle_bool (Qred (s + (1 # 100))) 2) eqn:L.
    + apply Qle_bool_iff in L.
      exists (Qred (s + (1 # 100))), (Qred (2 - Qred (s + (1 # 100)))).
      cbn [_s opacity].
      assert (E2 : (Qred (2 - Qred (s + (1 # 100)))
                    == 2 - Qred (s + (1 # 100)))%Q) by apply Qred_correct.
      repeat split; auto; lra.
    + exists 1%Q, o. cbn [_s opacity]. repeat split; auto; lra.
Qed.

Lemma update_flySpot_under_way mesh :
  fly_under_way mesh -> fly_under_way (update_flySpot mesh).
Proof.
  intros [s [Hs Rs]]. exists (Qred (s + (3 # 1000))).
  unfold update_flySpot. rewrite Hs. split; [reflexivity|].
  assert (E : (Qred (s + (3 # 1000)) == s + (3 # 1000))%Q)
    by apply Qred_correct.
  lra.
Qed.

Lemma animations_ok_of_side st st' :
  element_side st' = element_side st -> animations_ok st -> animations_ok st'.
Proof.
  unfold element_side, animations_ok. intros E.
  injection E as _ _ _ _ _ E6 E7 _ _ _. rewrite E6, E7. auto.
Qed.

Lemma addElement_animations_ok e st :
  animations_ok st -> animations_ok (snd (addElement e st)).
Proof.
  intros [H1 H2].
  unfold addElement, addLabel, addBubble, addSpot, addModel, addLine.
  repeat (break_match; simpl; try (split; assumption)).
  - split; simpl; auto. apply Forall_app. split; auto.
    constructor; [|constructor]. left. auto.
  - split; simpl; auto. apply Forall_app. split; auto.
    constructor; [|constructor]. exists 0%Q. split; [reflexivity | lra].
Qed.

Lemma addElements_animations_ok batch st :
  animations_ok st -> animations_ok (snd (addElements batch st)).
Proof.
  revert st. induction batch as [|e batch IH]; intros st H; simpl; auto.
  destruct (addElement e st) as [p st1] eqn:E1.
  destruct (addElements batch st1) as [ps st2] eqn:E2. simpl.
  change st2 with (snd (ps, st2)). rewrite <- E2. apply IH.
  change st1 with (snd (p, st1)). rewrite <- E1.
  apply addElement_animations_ok, H.
Qed.

Lemma removeElement_animations_ok id0 st :
  animations_ok st -> animations_ok (snd (removeElement id0 st)).
Proof.
  intros [H1 H2]. unfold removeElement.
  repeat (break_match; simpl; try (split; assumption)).
  - split; simpl; auto. rewrite remove_ring_by.
    apply incl_Forall with (2 := H1). intros x. apply remove_by_in.
  - split; simpl; auto. rewrite remove_flySpot_by.
    apply incl_Forall with (2 := H2). intros x. apply remove_by_in.
Qed.

Lemma removeElements_animations_ok ids st :
  animations_ok st -> animations_ok (removeElements ids st).
Proof.
  unfold removeElements. revert st.
  induction ids as [|i ids IH]; intros st H; simpl; auto.
  apply IH, removeElement_animations_ok, H.
Qed.

Lemma updateAnimations_animations_ok delta st :
  animations_ok st -> animations_ok (updateAnimations delta st).
Proof.
  intros [H1 H2]. unfold updateAnimations, animations_ok. simpl. split.
  - apply Forall_map. apply Forall_impl with (2 := H1).
    apply update_ring_in_range.
  - apply Forall_map. apply Forall_impl with (2 := H2).
    apply update_flySpot_under_way.
Qed.

Lemma loadSettled_animations_ok request result st :
  animations_ok st -> animations_ok (loadSettled request result st).
Proof.
  intros H. unfold loadSettled, onLoad.
  repeat (break_match; simpl; try exact H).
Qed.

Lemma reachable_animations_ok scene st :
  reachable scene st -> animations_ok st.
Proof.
  induction 1 as [mats|ev st Hr IH].
  - split; constructor.
  - destruct ev; simpl.
    + apply addElements_animations_ok, IH.
    + apply removeElements_animations_ok, IH.
    + apply removeElements_animations_ok, IH.
    + apply updateAnimations_animations_ok, IH.
    + apply (animations_ok_of_side st); auto.
      apply highlightRegion_element_side.
    + apply (animations_ok_of_side st); auto.
      apply clearRegionHighlight_element_side.
    + apply (animations_ok_of_side st); auto.
      apply clearAllHighlights_element_side.
    + unfold dispose.
      apply (animations_ok_of_side
               (with_flySpots []
                  (with_animatedSpots []
                     (with_modelMixers [] (clearAllElements st))))).
      * apply clearAllHighlights_element_side.
      * split; constructor.
    + apply loadSettled_animations_ok, IH.
    + apply (animations_ok_of_side st); auto.
      apply timerFired_element_side.
    + apply (animations_ok_of_side st); auto.
      apply animationFrame_element_side.
Qed.



Lemma mod_1_in_range s :
  (0 <= s)%Q ->
  exists u, mod_1 (JS.Num s) = JS.Num u /\ (0 <= u < 1)%Q.
Proof.
  intros Hs. exists (Qred (s - inject_Z (Z.quot (Qnum s) (Zpos (Qden s))))).
  split; [reflexivity|].
  assert (Hn : (0 <= Qnum s)%Z).
  { unfold Qle in Hs. simpl in Hs. lia. }
  rewrite Z.quot_div_nonneg by lia.
  replace (Qnum s / Zpos (Qden s))%Z with (Qfloor s)
    by (destruct s; reflexivity).
  assert (E := Qred_correct (s - inject_Z (Qfloor s))).
  assert (L := Qfloor_le s). assert (U := Qlt_floor s).
  rewrite inject_Z_plus in U. change (inject_Z 1) with 1%Q in U.
  lra.
Qed.

(** A marker's [_s] is a number that never decreases below 0, so the
    point of the curve it is moved to is always taken at a parameter in
    the range [0, 1). *)
Theorem flySpot_parameter_in_range scene st mesh :
  reachable scene st ->
  In mesh (flySpots st) ->
  exists s u : Q,
    fly_s mesh = JS.Num s /\ (0 <= s)%Q
    /\ curve_parameter mesh = JS.Num u /\ (0 <= u < 1)%Q.
Proof.
  intros R Hin. destruct (reachable_animations_ok _ _ R) as [_ H].
  destruct (proj1 (Forall_forall _ _) H mesh Hin) as [s [Hs Rs]].
  destruct (mod_1_in_range s Rs) as [u [Hu Ru]].
  exists s, u. unfold curve_parameter. rewrite Hs. auto.
Qed.

Lemma flySpot_parameter_in_range_witness :
  let st := step empty_scene (UpdateAnimations (1 # 60))
              (step empty_scene
                 (AddElements [a_line "l" here (Some [5 # 1; 6 # 1]%Q)])
                 (newMapManager [])) in
  let mesh := mkFlySpot 0 (JS.Num (3 # 1000)) in
  (reachable empty_scene st /\ In mesh (flySpots st))
  /\ exists s u : Q,
       fly_s mesh = JS.Num s /\ (0 <= s)%Q
       /\ curve_parameter mesh = JS.Num u /\ (0 <= u < 1)%Q.
Proof.
  intros st mesh.
  assert (R : reachable empty_scene st)
    by (do 2 apply reachable_step; apply reachable_new).
  assert (Hin : In mesh (flySpots st)) by (vm_compute; left; reflexivity).
  split; [split; assumption|].
  exact (flySpot_parameter_in_range empty_scene st mesh R Hin).
Defined.

(** ** The labels made from the map and the protected range *)

Lemma positional_snoc ds d :
  positional (ds ++ [d]) = (positional ds * 10 + Z.of_nat d)%Z.
Proof.
  induction ds as [|x ds IH]; cbn [app positional List.length].
  - change (10 ^ Z.of_nat 0)%Z with 1%Z. lia.
  - rewrite IH, length_app. cbn [List.length].
    rewrite Nat.add_1_r, Nat2Z.inj_succ, Z.pow_succ_r by lia. ring.
Qed.

Lemma decimal_digits_spec fuel n :
  n < fuel ->
  decimal_digits fuel n <> []
  /\ Forall (fun d => d < 10) (decimal_digits fuel n)
  /\ positional (decimal_digits fuel n) = Z.of_nat n.
Proof.
  revert n. induction fuel as [|fuel IH]; intros n H; [lia|].
  cbn [decimal_digits]. destruct (n <? 10) eqn:L.
  - apply Nat.ltb_lt in L. split; [discriminate|]. split.
    + constructor; [exact L | constructor].
    + cbn [positional List.length]. change (10 ^ Z.of_nat 0)%Z with 1%Z. lia.
  - apply Nat.ltb_ge in L.
    assert (Hd : n / 10 < fuel).
    { assert (n / 10 < n) by (apply Nat.div_lt; lia). lia. }
    destruct (IH (n / 10) Hd) as [H1 [H2 H3]]. split; [|split].
    + intros E. apply app_eq_nil in E. destruct E as [_ E]. discriminate.
    + apply Forall_app. split; [exact H2|].
      constructor; [|constructor]. apply Nat.mod_upper_bound. lia.
    + rewrite positional_snoc, H3.
      rewrite (Nat.div_mod_eq n 10) at 3. lia.
Qed.

Lemma idsToRemove_filter_numeral ds :
  ds <> [] -> Forall (fun d => d < 10) ds ->
  idsToRemove_filter ("label-" ++ numeral ds) = (31 <? positional ds)%Z.
Proof.
  intros Hne Hds. unfold idsToRemove_filter, match_label.
  rewrite (proj2 (strip_prefix_spec "label-" _ (numeral ds)) eq_refl).
  destruct (numeral ds) eqn:En;
    [apply numeral_nonempty in Hne; congruence|].
  rewrite <- En, (all_digits_numeral ds Hds).
  unfold parseInt. rewrite En, <- En.
  rewrite !lt_of_Z, (parse_digits_numeral ds 0 Hds).
  assert (P := positional_nonneg ds).
  replace (0 * 10 ^ Z.of_nat (List.length ds) + positional ds)%Z
    with (positional ds) by lia.
  destruct (positional ds <? 0)%Z eqn:L; [apply Z.ltb_lt in L; lia|].
  reflexivity.
Qed.

Lemma generateElementsData_from_nth label2dData index i e :
  nth_error (generateElementsData_from index label2dData) i = Some e ->
  exists item,
    nth_error label2dData i = Some item /\ e = label_of (index + i) item.
Proof.
  revert index i.
  induction label2dData as [|item rest IH]; intros index i;
    cbn [generateElementsData_from].
  - destruct i; discriminate.
  - destruct i as [|i]; cbn [nth_error].
    + intros [= <-]. exists item. rewrite Nat.add_0_r. auto.
    + intros H. destruct (IH (S index) i H) as [it [H1 H2]].
      exists it. split; [exact H1|].
      rewrite H2. f_equal. lia.
Qed.

(** Of the labels [generateElementsData] makes, [clearAllElements] keeps
    the ones of the first 32 entries and removes all later ones. *)
Theorem clearAllElements_keeps_first_32_generated_labels
  scene st label2dData i e :
  reachable scene st ->
  nth_error (generateElementsData label2dData) i = Some e ->
  type e = label
  /\ getElement (id e) (clearAllElements st)
     = if 31 <? i then None else getElement (id e) st.
Proof.
  intros R H. unfold generateElementsData in H.
  destruct (generateElementsData_from_nth _ _ _ _ H) as [item [_ ->]].
  split; [reflexivity|].
  rewrite (clearAllElements_getElement st _ (reachable_live _ _ R)).
  cbn [id label_of plus]. unfold template_number.
  destruct (decimal_digits_spec (S i) i (Nat.lt_succ_diag_r i))
    as [H1 [H2 H3]].
  rewrite (idsToRemove_filter_numeral _ H1 H2), H3.
  destruct (31 <? i) eqn:L.
  - apply Nat.ltb_lt in L.
    replace (31 <? Z.of_nat i)%Z with true
      by (symmetry; apply Z.ltb_lt; lia).
    reflexivity.
  - apply Nat.ltb_ge in L.
    replace (31 <? Z.of_nat i)%Z with false
      by (symmetry; apply Z.ltb_ge; lia).
    reflexivity.
Qed.

Lemma clearAllElements_keeps_first_32_generated_labels_witness :
  let label2dData := repeat (mkLabelDatum here "Macau") 34 in
  let st := step empty_scene
              (AddElements (generateElementsData label2dData))
              (newMapManager []) in
  let e := label_of 32 (mkLabelDatum here "Macau") in
  (reachable empty_scene st
   /\ nth_error (generateElementsData label2dData) 32 = Some e)
  /\ type e = label
  /\ getElement (id e) (clearAllElements st)
     = if 31 <? 32 then None else getElement (id e) st.
Proof.
  intros label2dData st e.
  assert (R : reachable empty_scene st)
    by exact (reachable_step empty_scene
                (AddElements (generateElementsData label2dData))
                (newMapManager []) (reachable_new empty_scene [])).
  assert (H : nth_error (generateElementsData label2dData) 32 = Some e)
    by (vm_compute; reflexivity).
  split; [split; assumption|].
  exact (clearAllElements_keeps_first_32_generated_labels
           empty_scene st label2dData 32 e R H).
Defined.

(** ** The lines made from the map *)

Lemma floor_of_random r (m : Z) :
  (0 <= r < 1)%Q -> (0 < m)%Z ->
  (0 <= Qfloor (r * inject_Z m) < m)%Z.
Proof.
  intros [H0 H1] Hm.
  assert (Hq : (0 < inject_Z m)%Q)
    by (change 0%Q with (inject_Z 0); rewrite <- Zlt_Qlt; exact Hm).
  split.
  - rewrite <- (Qfloor_Z 0). apply Qfloor_resp_le.
    change (inject_Z 0) with 0%Q. apply Qmult_le_0_compat; [exact H0|].
    apply Qlt_le_weak, Hq.
  - rewrite Zlt_Qlt.
    apply Qle_lt_trans with (r * inject_Z m)%Q; [apply Qfloor_le|].
    rewrite <- (Qmult_1_l (inject_Z m)) at 2.
    apply Qmult_lt_compat_r; assumption.
Qed.

Lemma item_at_in label2dData i :
  (0 <= i < Z.of_nat (List.length label2dData))%Z ->
  exists item, item_at label2dData i = Some item /\ In item label2dData.
Proof.
  intros [H0 H1]. unfold item_at.
  destruct (i <? 0)%Z eqn:L; [apply Z.ltb_lt in L; lia|].
  destruct (nth_error label2dData (Z.to_nat i)) as [item|] eqn:N.
  - exists item. split; [reflexivity|]. apply (nth_error_In _ _ N).
  - apply nth_error_None in N. lia.
Qed.

Lemma line_of_two_or_more count label2dData r1 r2 :
  2 <= List.length label2dData ->
  (0 <= r1 < 1)%Q -> (0 <= r2 < 1)%Q ->
  exists e,
    line_of count label2dData r1 r2 = Some [e]
    /\ id e = ("line-" ++ template_number count)%string
    /\ line_between label2dData e.
Proof.
  intros Hl H1 H2. unfold line_of, line_indices.
  set (n := List.length label2dData) in *.
  assert (Hm : (0 < Z.of_nat (n / 2))%Z).
  { assert (E := Nat.div_mod_eq n 2).
    assert (U : n mod 2 < 2) by (apply Nat.mod_upper_bound; lia). lia. }
  assert (Hn : (2 * Z.of_nat (n / 2) <= Z.of_nat n)%Z).
  { assert (E := Nat.div_mod_eq n 2). lia. }
  destruct (floor_of_random r1 _ H1 Hm) as [A1 A2].
  destruct (floor_of_random r2 _ H2 Hm) as [B1 B2].
  set (s := Qfloor (r1 * inject_Z (Z.of_nat (n / 2)))) in *.
  set (t := Qfloor (r2 * inject_Z (Z.of_nat (n / 2)))) in *.
  replace (s <? Z.of_nat n)%Z with true by (symmetry; apply Z.ltb_lt; lia).
  replace (t + Z.of_nat (n / 2) - 1 <? Z.of_nat n)%Z with true
    by (symmetry; apply Z.ltb_lt; lia).
  cbn [andb].
  destruct (item_at_in label2dData s) as [a [Ea Ia]]; [fold n; lia|].
  destruct (item_at_in label2dData (t + Z.of_nat (n / 2) - 1))
    as [b [Eb Ib]]; [fold n; lia|].
  rewrite Ea, Eb. eexists. split; [reflexivity|].
  split; [reflexivity|]. split; [reflexivity|].
  exists a, b. auto.
Qed.

Lemma generateLineElementsData_from_two_or_more count todo label2dData randoms :
  2 <= List.length label2dData ->
  unit_interval randoms ->
  exists lines,
    generateLineElementsData_from count todo label2dData randoms = Some lines
    /\ map id lines
       = map (fun c => ("line-" ++ template_number c)%string) (seq count todo)
    /\ Forall (line_between label2dData) lines.
Proof.
  intros Hl Hr. revert count.
  induction todo as [|todo IH]; intros count;
    cbn [generateLineElementsData_from seq map].
  - exists []. auto.
  - destruct (Hr count) as [H1 H2].
    destruct (line_of_two_or_more count label2dData _ _ Hl H1 H2)
      as [e [E [I L]]].
    rewrite E. destruct (IH (S count)) as [lines [E' [I' L']]].
    rewrite E'. exists ([e] ++ lines). split; [reflexivity|].
    cbn [app map]. rewrite I, I'. auto.
Qed.

(** With at least two entries to choose from, [generateLineElementsData]
    never reads outside [label2dData]: it returns [maxLineCount] lines
    with the ids [line-0], [line-1], ..., each between the centres of
    two entries. *)
Theorem generateLineElementsData_two_or_more
  label2dData maxLineCount randoms :
  2 <= List.length label2dData ->
  unit_interval randoms ->
  exists lines,
    generateLineElementsData label2dData maxLineCount randoms = Some lines
    /\ map id lines
       = map (fun c => ("line-" ++ template_number c)%string) (seq 0 maxLineCount)
    /\ Forall (fun e =>
                 type e = line
                 /\ exists a b,
                      In a label2dData /\ In b label2dData
                      /\ position e = featureCenterCoord a
                      /\ startPosition e = featureCenterCoord a
                      /\ endPosition e = featureCenterCoord b) lines.
Proof.
  intros Hl Hr.
  apply (generateLineElementsData_from_two_or_more 0 maxLineCount
           label2dData randoms Hl Hr).
Qed.

Lemma generateLineElementsData_two_or_more_witness :
  let label2dData := [mkLabelDatum here "A";
                       mkLabelDatum (Some [5 # 1; 6 # 1]%Q) "B";
                       mkLabelDatum (Some [7 # 1; 8 # 1]%Q) "C"] in
  let randoms := fun _ : nat => ((1 # 2)%Q, (9 # 10)%Q) in
  (2 <= List.length label2dData /\ unit_interval randoms)
  /\ exists lines,
       generateLineElementsData label2dData 2 randoms = Some lines
       /\ map id lines
          = map (fun c => ("line-" ++ template_number c)%string) (seq 0 2)
       /\ Forall (fun e =>
                    type e = line
                    /\ exists a b,
                         In a label2dData /\ In b label2dData
                         /\ position e = featureCenterCoord a
                         /\ startPosition e = featureCenterCoord a
                         /\ endPosition e = featureCenterCoord b) lines.
Proof.
  intros label2dData randoms.
  assert (Hl : 2 <= List.length label2dData) by (simpl; lia).
  assert (Hr : unit_interval randoms).
  { intros count. unfold randoms. simpl. repeat split; discriminate. }
  split; [split; assumption|].
  exact (generateLineElementsData_two_or_more label2dData 2 randoms Hl Hr).
Defined.

Lemma Qfloor_mul_0 r : Qfloor (r * 0) = 0%Z.
Proof.
  rewrite <- (Qfloor_Z 0). apply Qfloor_comp.
  change (inject_Z 0) with 0%Q. apply Qmult_0_r.
Qed.

Lemma line_of_nil count r1 r2 : line_of count [] r1 r2 = Some [].
Proof.
  unfold line_of, line_indices. cbn [List.length Nat.div Nat.divmod fst].
  change (inject_Z (Z.of_nat 0)) with 0%Q. rewrite !Qfloor_mul_0.
  reflexivity.
Qed.

Lemma line_of_single count item r1 r2 : line_of count [item] r1 r2 = None.
Proof.
  unfold line_of, line_indices. cbn [List.length Nat.div Nat.divmod fst].
  change (inject_Z (Z.of_nat 0)) with 0%Q. rewrite !Qfloor_mul_0.
  reflexivity.
Qed.

(** With a single entry the index of the end point is -1, so the first
    iteration reads [featureCenterCoord] of [undefined] and throws; with
    no entry, or with [maxLineCount] 0 as the map component passes it,
    nothing is made. *)
Theorem generateLineElementsData_too_few item maxLineCount randoms :
  0 < maxLineCount ->
  generateLineElementsData [item] maxLineCount randoms = None
  /\ generateLineElementsData [] maxLineCount randoms = Some []
  /\ generateLineElementsData [item] 0 randoms = Some [].
Proof.
  intros H. unfold generateLineElementsData. split; [|split].
  - destruct maxLineCount as [|todo]; [lia|].
    cbn [generateLineElementsData_from].
    rewrite line_of_single. reflexivity.
  - generalize 0 as count. clear H.
    induction maxLineCount as [|todo IH]; intros count;
      cbn [generateLineElementsData_from]; auto.
    rewrite line_of_nil, IH. reflexivity.
  - reflexivity.
Qed.

Lemma generateLineElementsData_too_few_witness :
  0 < 5
  /\ generateLineElementsData [mkLabelDatum here "A"] 5
       (fun _ => ((1 # 2)%Q, (1 # 2)%Q)) = None
  /\ generateLineElementsData [] 5 (fun _ => ((1 # 2)%Q, (1 # 2)%Q))
     = Some []
  /\ generateLineElementsData [mkLabelDatum here "A"] 0
       (fun _ => ((1 # 2)%Q, (1 # 2)%Q)) = Some [].
Proof.
  assert (H : 0 < 5) by lia.
  split; [exact H|].
  exact (generateLineElementsData_too_few (mkLabelDatum here "A") 5
           (fun _ => ((1 # 2)%Q, (1 # 2)%Q)) H).
Defined.

(** ** Disposing of the manager *)

(** [dispose] empties the three animation lists and leaves no highlight
    record and no timer. It removes the elements [clearAllElements]
    removes, so the protected labels stay, and it does not touch the
    loads in flight: a model whose load settles later is still added. *)
Theorem dispose_stops_animations_and_highlights scene st :
  reachable scene st ->
  modelMixers (dispose st) = []
  /\ animatedSpots (dispose st) = []
  /\ flySpots (dispose st) = []
  /\ getHighlightedRegions (dispose st) = []
  /\ timers (dispose st) = []
  /\ elements (dispose st) = elements (clearAllElements st)
  /\ pendingLoads (dispose st) = pendingLoads st.
Proof.
  intros R. unfold dispose.
  set (st1 := with_flySpots []
                (with_animatedSpots []
                   (with_modelMixers [] (clearAllElements st)))).
  assert (E := clearAllHighlights_element_side st1).
  unfold element_side in E. injection E as _ _ _ _ E5 E6 E7 E8 _ _.
  assert (L := clearAllHighlights_load_side st1).
  unfold load_side in L. injection L as L _.
  assert (L1 := removeElements_load_side
                  (filter idsToRemove_filter (JSMap.keys (elements st))) st).
  unfold load_side in L1. injection L1 as L1 _.
  assert (H1 := removeElements_highlight_side
                  (filter idsToRemove_filter (JSMap.keys (elements st))) st).
  assert (Hok : highlights_ok scene st1).
  { apply (highlights_ok_of_record_side scene st);
      [|apply (reachable_highlights_ok scene st R)].
    unfold highlight_side in H1. injection H1 as A1 _ A3 A4 _.
    unfold record_side, st1, clearAllElements. simpl.
    rewrite A1, A3, A4. reflexivity. }
  destruct (clearAllHighlights_empties scene st1 Hok) as [C1 C2].
  rewrite E6, E7, E8, E5, L, C2. unfold getHighlightedRegions. rewrite C1.
  repeat split; auto.
Qed.

Lemma dispose_stops_animations_and_highlights_witness :
  let st := step demo_map (HighlightRegion "S" 3000)
              (step demo_map
                 (AddElements [a_spot "spot-1" here; a_model "tower" true;
                               a_label "label-7" here])
                 demo_start) in
  reachable demo_map st
  /\ animatedSpots (dispose st) = []
  /\ getHighlightedRegions (dispose st) = []
  /\ JSMap.keys (elements (dispose st)) = ["label-7"]
  /\ List.length (pendingLoads (dispose st)) = 1.
Proof.
  intros st.
  assert (R : reachable demo_map st)
    by (do 2 apply reachable_step; apply reachable_new).
  destruct (dispose_stops_animations_and_highlights demo_map st R)
    as (_ & H2 & _ & H4 & _ & H6 & H7).
  split; [exact R|]. split; [exact H2|]. split; [exact H4|].
  split; [rewrite H6 | rewrite H7]; reflexivity.
Defined.

(** ** Nothing is disposed twice *)

Lemma removeElement_disposed_once id0 st :
  scene_ok st -> NoDup (disposed st) ->
  NoDup (disposed (snd (removeElement id0 st))).
Proof.
  intros H N.
  destruct (JSMap.get id0 (elements st)) as [e|] eqn:G.
  - destruct (so_live _ H id0 e (JSMapFacts.get_some_in _ _ _ G))
      as [o [Ho [Hc _]]].
    destruct (removeElement_live_shape st id0 e o H G Ho)
      as (_ & _ & _ & E & _).
    rewrite E. apply NoDup_app.
    + exact N.
    + constructor; [intros [] | constructor].
    + intros x Hx [<-|[]]. apply (so_disposed _ H) in Hx.
      apply (proj2 Hx), (container_in_children (type e)), Hc.
  - unfold removeElement. rewrite G. exact N.
Qed.

Lemma removeElements_disposed_once ids st :
  scene_ok st -> NoDup (disposed st) ->
  NoDup (disposed (removeElements ids st)).
Proof.
  unfold removeElements. revert st.
  induction ids as [|i ids IH]; intros st H N; simpl; auto.
  apply IH.
  - apply removeElement_scene_ok, H.
  - apply removeElement_disposed_once; assumption.
Qed.

Lemma disposed_of_side st st' :
  element_side st' = element_side st -> disposed st' = disposed st.
Proof. unfold element_side. intros E. injection E as _ _ _ _ _ _ _ _ _ E. exact E. Qed.

Lemma addElements_disposed batch st :
  disposed (snd (addElements batch st)) = disposed st.
Proof.
  revert st. induction batch as [|e batch IH]; intros st; simpl; auto.
  destruct (addElement e st) as [p st1] eqn:E1.
  destruct (addElements batch st1) as [ps st2] eqn:E2. simpl.
  change st2 with (snd (ps, st2)). rewrite <- E2, IH.
  change st1 with (snd (p, st1)). rewrite <- E1.
  unfold addElement, addLabel, addBubble, addSpot, addModel, addLine.
  repeat (break_match; simpl; auto).
Qed.

Lemma reachable_disposed_once scene st :
  reachable scene st -> NoDup (disposed st).
Proof.
  induction 1 as [mats|ev st Hr IH].
  - constructor.
  - assert (H := reachable_scene_ok _ _ Hr). destruct ev; simpl.
    + rewrite addElements_disposed. exact IH.
    + apply removeElements_disposed_once; assumption.
    + apply removeElements_disposed_once; assumption.
    + exact IH.
    + rewrite (disposed_of_side st); auto.
      apply highlightRegion_element_side.
    + rewrite (disposed_of_side st); auto.
      apply clearRegionHighlight_element_side.
    + rewrite (disposed_of_side st); auto.
      apply clearAllHighlights_element_side.
    + unfold dispose.
      rewrite (disposed_of_side _ _ (clearAllHighlights_element_side _)).
      cbn [disposed with_flySpots with_animatedSpots with_modelMixers].
      apply removeElements_disposed_once; assumption.
    + unfold loadSettled, onLoad.
      repeat (break_match; simpl; try exact IH).
    + rewrite (disposed_of_side st); auto.
      apply timerFired_element_side.
    + rewrite (disposed_of_side st); auto.
      apply animationFrame_element_side.
Qed.

(** [disposeObject3D] is never called twice on the same object, and an
    object it was called on is in none of the containers any more. *)
Theorem disposed_once_and_detached scene st :
  reachable scene st ->
  NoDup (disposed st)
  /\ forall o, In o (disposed st) -> ~ In o (all_children st).
Proof.
  intros R. split; [apply (reachable_disposed_once scene st R)|].
  intros o Ho. apply (so_disposed _ (reachable_scene_ok _ _ R) o Ho).
Qed.

Lemma disposed_once_and_detached_witness :
  let st := step empty_scene (RemoveElements ["spot-1"; "label-31"; "spot-1"])
              mixed_elements in
  (reachable empty_scene st /\ disposed st = [4; 0])
  /\ NoDup (disposed st)
  /\ forall o, In o (disposed st) -> ~ In o (all_children st).
Proof.
  intros st.
  assert (R : reachable empty_scene st)
    by exact (reachable_step empty_scene _ _ mixed_elements_reachable).
  split; [split; [exact R | vm_compute; reflexivity]|].
  exact (disposed_once_and_detached empty_scene st R).
Defined.
